(** * WaveSimulation: a shallow embedding of [src/WaveSimulation.ts]

    The engine is one TypeScript class over IEEE-754 numbers and typed
    arrays.  It is embedded as follows.

    - a JavaScript [number] is a primitive binary64 [float]; [+ - * /] and
      the comparisons are the primitive IEEE operations;
    - integral results ([Math.floor], [Math.ceil], [Math.round], grid sizes,
      loop counters, array indices) are kept as exact integers ([xint], [Z]);
    - a [Float32Array] is a [list float] whose stores go through [fround];
      a [Uint8Array] is a [list Z]; reads out of range give [None]
      (JavaScript's [undefined]) and writes out of range are dropped;
    - [Math.sin], [Math.cos], [Math.exp], [Math.sqrt] and [**] are
      implementation-approximated in ECMAScript, so the engine is
      parameterised by a [MathLib]; [ref_math] is one conforming instance;
    - the object is a record passed through every method; loop counters are
      exact integers, and a [for] loop whose bound is infinite makes the
      method return [None]. *)

From Stdlib Require Import ZArith Floats Lia Bool.
From stdpp Require Import base list sorting.

Set Warnings "-inexact-float".
Local Open Scope Z_scope.

(* ===================================================================== *)
(** ** JavaScript numbers *)
(* ===================================================================== *)

(** The Number nearest to an integer ([ToNumber] of an integral value). *)
Definition Z_to_float (z : Z) : float :=
  SF2Prim (binary_normalize prec emax z 0 false).

(** The integer nearest to [m / 2^k], ties to even. *)
Definition rne (m k : Z) : Z :=
  let q := m / 2 ^ k in
  let r := m mod 2 ^ k in
  let h := 2 ^ (k - 1) in
  if r <? h then q
  else if h <? r then q + 1
  else if Z.even q then q else q + 1.

(** Rounding of a binary64 value [(-1)^s * m * 2^e] onto the binary32 grid
    (24 significant bits, least exponent -149, overflow from [2^128]): the
    low [k] bits of the mantissa are rounded away, to nearest and ties to
    even.  The result stays in binary64 form. *)
Definition round32 (sf : spec_float) : spec_float :=
  match sf with
  | S754_finite s m e =>
      let k := Z.max (Z.log2 (Zpos m) + 1 + e - 24) (-149) - e in
      if k <=? 0 then sf
      else
        let m' := rne (Zpos m) k * 2 ^ k in
        let '(m2, e2) := if m' =? 2 ^ 53 then (2 ^ 52, e + 1) else (m', e) in
        match m2 with
        | Zpos p => if e2 <=? 75 then S754_finite s p e2 else S754_infinity s
        | _ => S754_zero s
        end
  | _ => sf
  end.

(** [Math.fround]: the conversion applied by every [Float32Array] store. *)
Definition fround (v : float) : float := SF2Prim (round32 (Prim2SF v)).

(** The same rounding through the Standard Library's generic
    [binary_normalize] at precision 24, for comparison. *)
Definition fround_ref (v : float) : float :=
  match Prim2SF v with
  | S754_finite s m e =>
      SF2Prim (binary_normalize 24 128 (cond_Zopp s (Zpos m)) e s)
  | _ => v
  end.

(** [ToBoolean] on a Number: [NaN], [+0] and [-0] are falsy. *)
Definition js_truthy (v : float) : bool := negb (is_nan v || is_zero v).

(** Truthiness of an optional field ([undefined] is falsy). *)
Definition opt_truthy (o : option float) : bool :=
  match o with Some v => js_truthy v | None => false end.

(** [isFinite(v)] where [v] may be [undefined]. *)
Definition isFinite (o : option float) : bool :=
  match o with Some v => is_finite v | None => false end.

(** [Math.max(a, b)] on two Numbers. *)
Definition Math_max (a b : float) : float :=
  if is_nan a || is_nan b then nan
  else if (a <? b)%float then b
  else if (b <? a)%float then a
  else if get_sign a then b else a.

(** [Math.min(a, b)] on two Numbers. *)
Definition Math_min (a b : float) : float :=
  if is_nan a || is_nan b then nan
  else if (a <? b)%float then a
  else if (b <? a)%float then b
  else if get_sign a then a else b.

(** The result of an integer-valued Math function: an exact integer, an
    infinity or NaN. *)
Inductive xint : Type :=
  | XNaN
  | XInf (negative : bool)
  | XInt (z : Z).

Definition xint_to_float (a : xint) : float :=
  match a with
  | XNaN => nan
  | XInf false => infinity
  | XInf true => neg_infinity
  | XInt z => Z_to_float z
  end.

(** A finite Number is [(-1)^s * m * 2^e]; its floor is an arithmetic shift. *)
Definition Math_floor (v : float) : xint :=
  match Prim2SF v with
  | S754_nan => XNaN
  | S754_infinity s => XInf s
  | S754_zero _ => XInt 0
  | S754_finite s m e => XInt (Z.shiftl (cond_Zopp s (Zpos m)) e)
  end.

Definition Math_ceil (v : float) : xint :=
  match Prim2SF v with
  | S754_nan => XNaN
  | S754_infinity s => XInf s
  | S754_zero _ => XInt 0
  | S754_finite s m e => XInt (- Z.shiftl (cond_Zopp (negb s) (Zpos m)) e)
  end.

(** [Math.round]: nearest integer, ties towards +infinity, that is
    [floor (v + 1/2)] computed exactly. *)
Definition Math_round (v : float) : xint :=
  match Prim2SF v with
  | S754_nan => XNaN
  | S754_infinity s => XInf s
  | S754_zero _ => XInt 0
  | S754_finite s m e =>
      if 0 <=? e then XInt (Z.shiftl (cond_Zopp s (Zpos m)) e)
      else XInt (Z.shiftr (2 * cond_Zopp s (Zpos m) + 2 ^ (- e)) (- e + 1))
  end.

(** [v | 0], that is [ToInt32]: truncate, then wrap to a signed 32-bit. *)
Definition ToInt32 (v : float) : Z :=
  match Prim2SF v with
  | S754_finite s m e =>
      let t := cond_Zopp s (Z.shiftl (Zpos m) e) in
      (t + 2 ^ 31) mod 2 ^ 32 - 2 ^ 31
  | _ => 0
  end.

(** Comparisons of such a result with an integer ([NaN] compares false). *)
Definition x_lt (a : xint) (n : Z) : bool :=
  match a with XInt z => z <? n | XInf s => s | XNaN => false end.

Definition x_ge (a : xint) (n : Z) : bool :=
  match a with XInt z => n <=? z | XInf s => negb s | XNaN => false end.

(** [a + d] for an integer [d]. *)
Definition x_add (a : xint) (d : Z) : xint :=
  match a with XInt z => XInt (z + d) | _ => a end.

(** [Math.max(a, b)] on two such results. *)
Definition x_max (a b : xint) : xint :=
  match a, b with
  | XNaN, _ | _, XNaN => XNaN
  | XInf false, _ | _, XInf false => XInf false
  | XInf true, c | c, XInf true => c
  | XInt u, XInt v => XInt (Z.max u v)
  end.

(** How often [for (let s = 0; s < n; s++)] runs its body, the counter being
    an exact integer: never for a NaN bound, without end ([None]) for an
    infinite one. *)
Definition loop_count (n : xint) : option N :=
  match n with
  | XNaN => Some 0%N
  | XInf true => Some 0%N
  | XInf false => None
  | XInt z => Some (Z.to_N z)
  end.

(** The Math functions ECMAScript leaves implementation-approximated. *)
Record MathLib : Type := {
  Math_sin : float -> float;
  Math_cos : float -> float;
  Math_exp : float -> float;
  Math_sqrt : float -> float;
  Math_pow : float -> float -> float
}.

(* ===================================================================== *)
(** ** Typed arrays *)
(* ===================================================================== *)

Definition ta_get {A} (a : list A) (i : Z) : option A :=
  if decide (0 <= i) then a !! Z.to_nat i else None.

Definition ta_set {A} (a : list A) (i : Z) (v : A) : list A :=
  if decide (0 <= i) then <[Z.to_nat i := v]> a else a.

(** A read used as a Number: [undefined] becomes [NaN]. *)
Definition rd (a : list float) (i : Z) : float := default nan (ta_get a i).

(** A [Float32Array] store. *)
Definition st32 (a : list float) (i : Z) (v : float) : list float :=
  ta_set a i (fround v).

(** [a.fill(0)]. *)
Definition fill0 (a : list float) : list float := replicate (length a) 0%float.

Definition fill0_u8 (a : list Z) : list Z := replicate (length a) 0.

Definition Zlen {A} (a : list A) : Z := Z.of_nat (length a).

(** [lo, lo+1, ..., hi-1]. *)
Definition zrange (lo hi : Z) : list Z := seqZ lo (hi - lo).

(* ===================================================================== *)
(** ** Data model *)
(* ===================================================================== *)

Module WaveSource.
Record t : Type := mk {
  x : float;
  y : float;
  frequency : float;
  amplitude : float;
  phase : float;
  active : bool;
  vx : option float;
  vy : option float;
  orbitCenterX : option float;
  orbitCenterY : option float;
  orbitRadius : option float;
  orbitSpeed : option float;
  orbitAngle : option float
}.
End WaveSource.

Module Wall.
Record t : Type := mk {
  x1 : float;
  y1 : float;
  x2 : float;
  y2 : float;
  slits : option (list (float * float))   (* (start, end) *)
}.
End Wall.

Record WaveSimulation : Type := mkSim {
  width : float;
  height : float;
  cellSize : float;
  cols : Z;
  rows : Z;
  current : list float;
  previous : list float;
  velocity : list float;
  energyMap : list float;
  energyTrailEnabled : bool;
  energyDecay : float;
  wallMask : list Z;
  wallMaskDirty : bool;
  sampleBuffer : list float;
  waveSpeed : float;
  damping : float;
  dt : float;
  sources : list WaveSource.t;
  walls : list Wall.t;
  reflectiveBoundaries : bool
}.

(** Field updates ([this.f = v]). *)
Definition set_current (v : list float) (s : WaveSimulation) : WaveSimulation :=
  mkSim (width s) (height s) (cellSize s) (cols s) (rows s) v (previous s)
    (velocity s) (energyMap s) (energyTrailEnabled s) (energyDecay s)
    (wallMask s) (wallMaskDirty s) (sampleBuffer s) (waveSpeed s) (damping s)
    (dt s) (sources s) (walls s) (reflectiveBoundaries s).

Definition set_previous (v : list float) (s : WaveSimulation) : WaveSimulation :=
  mkSim (width s) (height s) (cellSize s) (cols s) (rows s) (current s) v
    (velocity s) (energyMap s) (energyTrailEnabled s) (energyDecay s)
    (wallMask s) (wallMaskDirty s) (sampleBuffer s) (waveSpeed s) (damping s)
    (dt s) (sources s) (walls s) (reflectiveBoundaries s).

Definition set_velocity (v : list float) (s : WaveSimulation) : WaveSimulation :=
  mkSim (width s) (height s) (cellSize s) (cols s) (rows s) (current s)
    (previous s) v (energyMap s) (energyTrailEnabled s) (energyDecay s)
    (wallMask s) (wallMaskDirty s) (sampleBuffer s) (waveSpeed s) (damping s)
    (dt s) (sources s) (walls s) (reflectiveBoundaries s).

Definition set_energyMap (v : list float) (s : WaveSimulation) : WaveSimulation :=
  mkSim (width s) (height s) (cellSize s) (cols s) (rows s) (current s)
    (previous s) (velocity s) v (energyTrailEnabled s) (energyDecay s)
    (wallMask s) (wallMaskDirty s) (sampleBuffer s) (waveSpeed s) (damping s)
    (dt s) (sources s) (walls s) (reflectiveBoundaries s).

Definition set_wallMask (v : list Z) (dirty : bool) (s : WaveSimulation)
  : WaveSimulation :=
  mkSim (width s) (height s) (cellSize s) (cols s) (rows s) (current s)
    (previous s) (velocity s) (energyMap s) (energyTrailEnabled s)
    (energyDecay s) v dirty (sampleBuffer s) (waveSpeed s) (damping s)
    (dt s) (sources s) (walls s) (reflectiveBoundaries s).

Definition set_sampleBuffer (v : list float) (s : WaveSimulation)
  : WaveSimulation :=
  mkSim (width s) (height s) (cellSize s) (cols s) (rows s) (current s)
    (previous s) (velocity s) (energyMap s) (energyTrailEnabled s)
    (energyDecay s) (wallMask s) (wallMaskDirty s) v (waveSpeed s) (damping s)
    (dt s) (sources s) (walls s) (reflectiveBoundaries s).

Definition set_sources (v : list WaveSource.t) (s : WaveSimulation)
  : WaveSimulation :=
  mkSim (width s) (height s) (cellSize s) (cols s) (rows s) (current s)
    (previous s) (velocity s) (energyMap s) (energyTrailEnabled s)
    (energyDecay s) (wallMask s) (wallMaskDirty s) (sampleBuffer s)
    (waveSpeed s) (damping s) (dt s) v (walls s) (reflectiveBoundaries s).

Definition set_walls (v : list Wall.t) (s : WaveSimulation) : WaveSimulation :=
  mkSim (width s) (height s) (cellSize s) (cols s) (rows s) (current s)
    (previous s) (velocity s) (energyMap s) (energyTrailEnabled s)
    (energyDecay s) (wallMask s) (wallMaskDirty s) (sampleBuffer s)
    (waveSpeed s) (damping s) (dt s) (sources s) v (reflectiveBoundaries s).

(** The public parameter fields, which the host assigns directly. *)
Definition set_params (ws damp d : float) (refl trail : bool)
  (s : WaveSimulation) : WaveSimulation :=
  mkSim (width s) (height s) (cellSize s) (cols s) (rows s) (current s)
    (previous s) (velocity s) (energyMap s) trail (energyDecay s)
    (wallMask s) (wallMaskDirty s) (sampleBuffer s) ws damp d (sources s)
    (walls s) refl.

(** CFL stability limit ([static readonly CFL_LIMIT = 0.5]). *)
Definition CFL_LIMIT : float := 0.5.

(** The constructor.  [new Float32Array(size)] throws a [RangeError] on a
    negative size; grid sizes that are not integers ([NaN], infinite) are
    outside this model.  Both give [None]. *)
Definition new_WaveSimulation (w h cs : float) : option WaveSimulation :=
  match Math_ceil (w / cs), Math_ceil (h / cs) with
  | XInt c, XInt r =>
      if 0 <=? c * r then
        let size := Z.to_nat (c * r) in
        Some (mkSim w h cs c r
                (replicate size 0%float) (replicate size 0%float)
                (replicate size 0%float) (replicate size 0%float)
                false 0.997%float
                (replicate size 0) true
                (replicate 256 0%float)
                0.5%float 0.995%float 1%float [] [] false)
      else None
  | _, _ => None
  end.

Definition getIndex (s : WaveSimulation) (x y : Z) : Z := y * cols s + x.

Definition addSource (px py freq amp : float) (s : WaveSimulation)
  : WaveSimulation :=
  set_sources
    (sources s ++
       [WaveSource.mk (px / cellSize s) (py / cellSize s) freq amp 0 true
          None None None None None None None]) s.

Definition addWall (px1 py1 px2 py2 : float)
  (slits : option (list (float * float))) (s : WaveSimulation)
  : WaveSimulation :=
  set_wallMask (wallMask s) true
    (set_walls
       (walls s ++
          [Wall.mk (px1 / cellSize s) (py1 / cellSize s)
             (px2 / cellSize s) (py2 / cellSize s) slits]) s).

Definition clear (s : WaveSimulation) : WaveSimulation :=
  set_wallMask (fill0_u8 (wallMask s)) true
    (set_walls []
       (set_sources []
          (set_energyMap (fill0 (energyMap s))
             (set_velocity (fill0 (velocity s))
                (set_previous (fill0 (previous s))
                   (set_current (fill0 (current s)) s)))))).

Section Engine.
Variable M : MathLib.

Definition addOrbitalSource (centerX centerY radius speed freq amp
  startAngle : float) (s : WaveSimulation) : WaveSimulation :=
  let cx := (centerX / cellSize s)%float in
  let cy := (centerY / cellSize s)%float in
  let r := (radius / cellSize s)%float in
  set_sources
    (sources s ++
       [WaveSource.mk (cx + r * Math_cos M startAngle)
          (cy + r * Math_sin M startAngle) freq amp 0 true
          None None (Some cx) (Some cy) (Some r) (Some speed)
          (Some startAngle)]) s.

(** *** Obstacle mask *)

Definition distanceToLine (px py x1 y1 x2 y2 : float) : float :=
  let dx := (x2 - x1)%float in
  let dy := (y2 - y1)%float in
  let len2 := (dx * dx + dy * dy)%float in
  if (len2 =? 0)%float then
    Math_sqrt M (Math_pow M (px - x1) 2 + Math_pow M (py - y1) 2)
  else
    let t := Math_max 0 (Math_min 1 (((px - x1) * dx + (py - y1) * dy) / len2)) in
    let projx := (x1 + t * dx)%float in
    let projy := (y1 + t * dy)%float in
    Math_sqrt M (Math_pow M (px - projx) 2 + Math_pow M (py - projy) 2).

Definition isPointOnWall (x y : float) (w : Wall.t) : bool :=
  (distanceToLine x y (Wall.x1 w) (Wall.y1 w) (Wall.x2 w) (Wall.y2 w)
   <? 0.7)%float.

Definition getParametricPosition (x y : float) (w : Wall.t) : float :=
  let dx := (Wall.x2 w - Wall.x1 w)%float in
  let dy := (Wall.y2 w - Wall.y1 w)%float in
  let len2 := (dx * dx + dy * dy)%float in
  if (len2 =? 0)%float then 0%float
  else (((x - Wall.x1 w) * dx + (y - Wall.y1 w) * dy) / len2)%float.

(** The first wall the point lies on decides. *)
Fixpoint isInsideWall_in (ws : list Wall.t) (x y : float) : bool :=
  match ws with
  | [] => false
  | w :: rest =>
      if isPointOnWall x y w then
        match Wall.slits w with
        | Some sl =>
            let t := getParametricPosition x y w in
            negb (existsb (fun '(a, b) => (a <=? t)%float && (t <=? b)%float) sl)
        | None => true
        end
      else isInsideWall_in rest x y
  end.

Definition isInsideWall (s : WaveSimulation) (x y : Z) : bool :=
  isInsideWall_in (walls s) (Z_to_float x) (Z_to_float y).

(** The double loop of [rebuildWallMask] over every cell. *)
Definition scan_walls (s : WaveSimulation) (m : list Z) : list Z :=
  foldl (fun m y =>
           foldl (fun m x =>
                    if isInsideWall s x y then ta_set m (y * cols s + x) 1 else m)
             m (zrange 0 (cols s)))
    m (zrange 0 (rows s)).

Definition rebuildWallMask (s : WaveSimulation) : WaveSimulation :=
  if negb (wallMaskDirty s) then s
  else
    let cleared := fill0_u8 (wallMask s) in
    match walls s with
    | [] => set_wallMask cleared false s
    | _ => set_wallMask (scan_walls s cleared) false s
    end.

(** *** Sources *)

(** First loop of [step]: a source with orbital parameters moves along its
    circle and gets the velocity of that move. *)
Definition orbit_update (src : WaveSource.t) : WaveSource.t :=
  match WaveSource.orbitCenterX src, WaveSource.orbitRadius src,
        WaveSource.orbitSpeed src with
  | Some cX, Some r, Some sp =>
      let angle := (default 0%float (WaveSource.orbitAngle src) + sp)%float in
      let newX := (cX + r * Math_cos M angle)%float in
      let newY :=
        (default cX (WaveSource.orbitCenterY src) + r * Math_sin M angle)%float in
      WaveSource.mk newX newY
        (WaveSource.frequency src) (WaveSource.amplitude src)
        (WaveSource.phase src) (WaveSource.active src)
        (Some ((newX - WaveSource.x src) * 0.1)%float)
        (Some ((newY - WaveSource.y src) * 0.1)%float)
        (Some cX) (WaveSource.orbitCenterY src) (Some r) (Some sp)
        (Some angle)
  | _, _, _ => src
  end.

(** [source.vx || 0]. *)
Definition or_zero (o : option float) : float :=
  match o with
  | Some v => if js_truthy v then v else 0%float
  | None => 0%float
  end.

(** The cell a source writes to, when it lies on the grid. *)
Definition source_cell (s : WaveSimulation) (src : WaveSource.t) : option Z :=
  let sx := Math_round (WaveSource.x src) in
  let sy := Math_round (WaveSource.y src) in
  if x_ge sx 0 && x_lt sx (cols s) && x_ge sy 0 && x_lt sy (rows s) then
    match sx, sy with
    | XInt ix, XInt iy => Some (iy * cols s + ix)
    | _, _ => None
    end
  else None.

(** [this.current[idx] += amplitude * sin(time * freq + phase)]. *)
Definition inject (s : WaveSimulation) (time : float) (cur : list float)
  (src : WaveSource.t) : list float :=
  match source_cell s src with
  | Some idx =>
      let freq :=
        (WaveSource.frequency src + or_zero (WaveSource.vx src) * 0.001)%float in
      st32 cur idx
        (rd cur idx
         + WaveSource.amplitude src
           * Math_sin M (time * freq + WaveSource.phase src))%float
  | None => cur
  end.

(** [if (!source.orbitCenterX) { if (source.vx) ...; if (source.vy) ... }] *)
Definition advance (s : WaveSimulation) (src : WaveSource.t) : WaveSource.t :=
  if negb (opt_truthy (WaveSource.orbitCenterX src)) then
    let x' :=
      match WaveSource.vx src with
      | Some v => if js_truthy v then (WaveSource.x src + v * dt s)%float
                  else WaveSource.x src
      | None => WaveSource.x src
      end in
    let y' :=
      match WaveSource.vy src with
      | Some v => if js_truthy v then (WaveSource.y src + v * dt s)%float
                  else WaveSource.y src
      | None => WaveSource.y src
      end in
    WaveSource.mk x' y'
      (WaveSource.frequency src) (WaveSource.amplitude src)
      (WaveSource.phase src) (WaveSource.active src)
      (WaveSource.vx src) (WaveSource.vy src)
      (WaveSource.orbitCenterX src) (WaveSource.orbitCenterY src)
      (WaveSource.orbitRadius src) (WaveSource.orbitSpeed src)
      (WaveSource.orbitAngle src)
  else src.

(** Second loop of [step], over the sources in order; an inactive source is
    skipped whole ([continue]). *)
Fixpoint emit_sources (s : WaveSimulation) (time : float) (cur : list float)
  (srcs : list WaveSource.t) : list float * list WaveSource.t :=
  match srcs with
  | [] => (cur, [])
  | src :: rest =>
      if negb (WaveSource.active src) then
        let '(cur', rest') := emit_sources s time cur rest in
        (cur', src :: rest')
      else
        let '(cur', rest') := emit_sources s time (inject s time cur src) rest in
        (cur', advance s src :: rest')
  end.

(** *** The wave update *)

Definition mask_at (m : list Z) (i : Z) : bool :=
  match ta_get m i with Some v => negb (v =? 0) | None => false end.

(** The value written to [cur[idx]]: the update rule, then the clamp. *)
Definition newValue (s : WaveSimulation) (c2dt2 : float)
  (cur prev : list float) (idx : Z) : float :=
  let laplacian :=
    (rd cur (idx + 1) + rd cur (idx - 1) + rd cur (idx + cols s)
     + rd cur (idx - cols s) - 4 * rd cur idx)%float in
  ((2 * rd cur idx - rd prev idx + c2dt2 * laplacian) * damping s)%float.

Definition clamp50 (v : float) : float :=
  if (50 <? v)%float then 50%float
  else if (v <? -50)%float then (-50)%float else v.

(** One iteration of the inner loop, on the pair (current, previous). *)
Definition sweep_cell (s : WaveSimulation) (c2dt2 : float)
  (cp : list float * list float) (idx : Z) : list float * list float :=
  let '(cur, prev) := cp in
  if mask_at (wallMask s) idx then (st32 cur idx 0, st32 prev idx 0)
  else
    let v := newValue s c2dt2 cur prev idx in
    let prev' := st32 prev idx (rd cur idx) in
    (st32 cur idx (clamp50 v), prev').

Definition sweep (s : WaveSimulation) (c2dt2 : float)
  (cp : list float * list float) : list float * list float :=
  foldl (fun cp y =>
           foldl (fun cp x => sweep_cell s c2dt2 cp (y * cols s + x))
             cp (zrange 1 (cols s - 1)))
    cp (zrange 1 (rows s - 1)).

Definition applyBoundaryConditions (s : WaveSimulation) (cur : list float)
  : list float :=
  if reflectiveBoundaries s then
    let cur1 :=
      foldl (fun c x =>
               let c := st32 c (getIndex s x 0) (rd c (getIndex s x 1)) in
               st32 c (getIndex s x (rows s - 1))
                 (rd c (getIndex s x (rows s - 2))))
        cur (zrange 0 (cols s)) in
    foldl (fun c y =>
             let c := st32 c (getIndex s 0 y) (rd c (getIndex s 1 y)) in
             st32 c (getIndex s (cols s - 1) y)
               (rd c (getIndex s (cols s - 2) y)))
      cur1 (zrange 0 (rows s))
  else
    let cur1 :=
      foldl (fun c x =>
               let c := st32 c (getIndex s x 0) 0 in
               st32 c (getIndex s x (rows s - 1)) 0)
        cur (zrange 0 (cols s)) in
    foldl (fun c y =>
             let c := st32 c (getIndex s 0 y) 0 in
             st32 c (getIndex s (cols s - 1) y) 0)
      cur1 (zrange 0 (rows s)).

Definition substep (subDt : float) (s : WaveSimulation) : WaveSimulation :=
  let c2 := (waveSpeed s * waveSpeed s)%float in
  let dt2 := (subDt * subDt)%float in
  let c2dt2 := (c2 * dt2)%float in
  let '(cur, prev) := sweep s c2dt2 (current s, previous s) in
  set_current (applyBoundaryConditions s cur) (set_previous prev s).

(** *** Energy trail and stability guard *)

Definition update_energy (s : WaveSimulation) : WaveSimulation :=
  if energyTrailEnabled s then
    set_energyMap
      (foldl (fun em i =>
                let absVal := abs (rd (current s) i) in
                st32 em i (Math_max (rd em i * energyDecay s) absVal))
         (energyMap s) (zrange 0 (Zlen (current s))))
      s
  else s.

(** [(len >>> 4) || 1]. *)
Definition guard_stride (len : Z) : Z :=
  let q := Z.shiftr (len mod 2 ^ 32) 4 in
  if q =? 0 then 1 else q.

(** The indices [0, stride, 2*stride, ...] below [len]. *)
Definition guard_samples (len : Z) : list Z :=
  let stride := guard_stride len in
  map (fun k => k * stride) (zrange 0 ((len + stride - 1) / stride)).

Definition corrupt (cur : list float) (i : Z) : bool :=
  negb (isFinite (ta_get cur i)).

Definition hard_reset (s : WaveSimulation) : WaveSimulation :=
  set_velocity (fill0 (velocity s))
    (set_previous (fill0 (previous s))
       (set_current (fill0 (current s)) s)).

(** Whether the guard finds a non-finite sample. *)
Definition guard_trips (s : WaveSimulation) : bool :=
  let cur := current s in
  let len := Zlen cur in
  existsb (corrupt cur) (guard_samples len) || corrupt cur (len - 1).

Definition stabilityGuard (s : WaveSimulation) : WaveSimulation :=
  let cur := current s in
  let len := Zlen cur in
  if existsb (corrupt cur) (guard_samples len) then hard_reset s
  else if corrupt cur (len - 1) then hard_reset s
  else s.

(** *** step *)

Definition subSteps (s : WaveSimulation) : xint :=
  let cflRatio := (waveSpeed s * dt s)%float in
  x_max (XInt 1) (Math_ceil (cflRatio / CFL_LIMIT)).

(** Everything [step] does before the sub-step loop. *)
Definition step_prepare (time : float) (s : WaveSimulation) : WaveSimulation :=
  let s1 := rebuildWallMask s in
  let s2 := set_sources (map orbit_update (sources s1)) s1 in
  let '(cur, srcs) := emit_sources s2 time (current s2) (sources s2) in
  set_sources srcs (set_current cur s2).

(** [step] up to, and without, the final [this.stabilityGuard()]. *)
Definition step_until_guard (time : float) (s : WaveSimulation)
  : option WaveSimulation :=
  let subDt := (dt s / xint_to_float (subSteps s))%float in
  match loop_count (subSteps s) with
  | Some n => Some (update_energy (N.iter n (substep subDt) (step_prepare time s)))
  | None => None
  end.

Definition step (time : float) (s : WaveSimulation) : option WaveSimulation :=
  option_map stabilityGuard (step_until_guard time s).

(** *** Impulses and queries *)

(** The body of the two nested loops of [applyImpulse]. *)
Definition impulse_cell (s : WaveSimulation) (cx cy : xint) (r : Z)
  (amp sigma2 : float) (cur : list float) (dy dx : Z) : list float :=
  let gx := x_add cx dx in
  let gy := x_add cy dy in
  if x_lt gx 1 || x_ge gx (cols s - 1) || x_lt gy 1 || x_ge gy (rows s - 1)
  then cur
  else
    let fdx := Z_to_float dx in
    let fdy := Z_to_float dy in
    let fr := Z_to_float r in
    let dist2 := (fdx * fdx + fdy * fdy)%float in
    if (fr * fr <? dist2)%float then cur
    else
      let gaussian := (amp * Math_exp M (- dist2 / (2 * sigma2)))%float in
      match gx, gy with
      | XInt ix, XInt iy =>
          let idx := getIndex s ix iy in
          st32 cur idx (rd cur idx + gaussian)%float
      | _, _ => cur   (* the index is NaN: the store is dropped *)
      end.

(** [None]: the radius in cells is infinite and the loop counter, which
    starts at minus infinity, never moves. *)
Definition applyImpulse (pixelX pixelY radius amp : float) (s : WaveSimulation)
  : option WaveSimulation :=
  let cx := Math_floor (pixelX / cellSize s) in
  let cy := Math_floor (pixelY / cellSize s) in
  match Math_ceil (radius / cellSize s) with
  | XNaN => Some s
  | XInf true => Some s
  | XInf false => None
  | XInt r =>
      let sigma := (Z_to_float r * 0.5)%float in
      let sigma2 := (sigma * sigma)%float in
      Some (set_current
              (foldl (fun c dy =>
                        foldl (fun c dx => impulse_cell s cx cy r amp sigma2 c dy dx)
                          c (zrange (- r) (r + 1)))
                 (current s) (zrange (- r) (r + 1)))
              s)
  end.

(** [getValue]; [None] is JavaScript's [undefined] (a NaN coordinate passes
    every comparison and indexes the array with NaN). *)
Definition cell_lookup (s : WaveSimulation) (a : list float) (px py : float)
  : option float :=
  let gx := Math_floor (px / cellSize s) in
  let gy := Math_floor (py / cellSize s) in
  if x_lt gx 0 || x_ge gx (cols s) || x_lt gy 0 || x_ge gy (rows s)
  then Some 0%float
  else
    match gx, gy with
    | XInt ix, XInt iy => ta_get a (getIndex s ix iy)
    | _, _ => None
    end.

Definition getValue (px py : float) (s : WaveSimulation) : option float :=
  cell_lookup s (current s) px py.

Definition getEnergyValue (px py : float) (s : WaveSimulation) : option float :=
  cell_lookup s (energyMap s) px py.

(** The grid cell of the [i]-th probe point, by [| 0]. *)
Definition sample_cell (s : WaveSimulation) (p1 d : float) (i : Z) : Z :=
  ToInt32 ((p1 + d * Z_to_float i) * (1 / cellSize s))%float.

Definition sample_at (s : WaveSimulation) (px1 py1 dx dy : float) (i : Z)
  : float :=
  let gx := sample_cell s px1 dx i in
  let gy := sample_cell s py1 dy i in
  if (0 <=? gx) && (gx <? cols s) && (0 <=? gy) && (gy <? rows s)
  then rd (current s) (gy * cols s + gx)
  else 0%float.

(** [sampleLine] for an integral [numSamples]; it returns the object (whose
    scratch buffer it has overwritten) and the view [subarray(0, numSamples)]. *)
Definition sampleLine (px1 py1 px2 py2 : float) (numSamples : Z)
  (s : WaveSimulation) : WaveSimulation * list float :=
  let buf :=
    if Zlen (sampleBuffer s) <? numSamples
    then replicate (Z.to_nat numSamples) 0%float
    else sampleBuffer s in
  let invN := (1 / Z_to_float (numSamples - 1))%float in
  let dx := ((px2 - px1) * invN)%float in
  let dy := ((py2 - py1) * invN)%float in
  let buf' :=
    foldl (fun b i => st32 b i (sample_at s px1 py1 dx dy i))
      buf (zrange 0 numSamples) in
  let stop := if numSamples <? 0 then Zlen buf' + numSamples else numSamples in
  (set_sampleBuffer buf' s, take (Z.to_nat stop) buf').

End Engine.

(* ===================================================================== *)
(** ** A conforming Math library *)
(* ===================================================================== *)

Local Open Scope float_scope.

(** Horner evaluation of [c0 + c1*t + c2*t^2 + ...]. *)
Fixpoint horner (cs : list float) (t : float) : float :=
  match cs with
  | [] => 0%float
  | c :: rest => (c + t * horner rest t)%float
  end.

Definition two_pi : float := 6.283185307179586%float.

(** Reduce to [-pi, pi], then a Taylor polynomial in [t^2]. *)
Definition reduce_angle (v : float) : float :=
  (v - xint_to_float (Math_round (v / two_pi)) * two_pi)%float.

Definition ref_sin (v : float) : float :=
  if negb (is_finite v) then nan
  else if is_zero v then v
  else
    let t := reduce_angle v in
    (t * horner [1; -0.16666666666666666; 8.333333333333333e-3;
                 -1.984126984126984e-4; 2.7557319223985893e-6;
                 -2.505210838544172e-8; 1.6059043836821613e-10;
                 -7.647163731819816e-13; 2.8114572543455206e-15]
           (t * t))%float.

Definition ref_cos (v : float) : float :=
  if negb (is_finite v) then nan
  else
    let t := reduce_angle v in
    horner [1; -0.5; 4.1666666666666664e-2; -1.388888888888889e-3;
            2.48015873015873e-5; -2.755731922398589e-7;
            2.08767569878681e-9; -1.1470745597729725e-11;
            4.779477332387385e-14; -1.5619206968586225e-16]
      (t * t)%float.

(** [exp v = (exp (v / 1024)) ^ 1024]. *)
Definition ref_exp (v : float) : float :=
  if is_nan v then nan
  else if is_zero v then 1%float
  else
    let t := (v / 1024)%float in
    let e :=
      horner [1; 1; 0.5; 0.16666666666666666; 4.1666666666666664e-2;
              8.333333333333333e-3; 1.388888888888889e-3;
              1.984126984126984e-4] t in
    N.iter 10 (fun a => (a * a)%float) e.

(** [x ** n] for the natural exponents the engine uses. *)
Definition ref_pow (v n : float) : float :=
  match Math_floor n with
  | XInt k =>
      if (0 <=? k)%Z && (Z_to_float k =? n)
      then N.iter (Z.to_N k) (fun a => (a * v)%float) 1%float
      else nan
  | _ => nan
  end.

Definition ref_math : MathLib :=
  {| Math_sin := ref_sin; Math_cos := ref_cos; Math_exp := ref_exp;
     Math_sqrt := sqrt; Math_pow := ref_pow |}.

Local Close Scope float_scope.

(* ===================================================================== *)
(** ** Vocabulary of the properties *)
(* ===================================================================== *)

(** [s'] is [s] with other contents in [current] and [previous]. *)
Definition fields_only (s s' : WaveSimulation) : Prop :=
  exists c p, s' = set_current c (set_previous p s).

(** The fields of a source no phase of [step] assigns. *)
Definition source_fixed (src : WaveSource.t) :=
  (WaveSource.frequency src, WaveSource.amplitude src, WaveSource.phase src,
   WaveSource.active src,
   (WaveSource.orbitCenterX src, WaveSource.orbitCenterY src,
    WaveSource.orbitRadius src, WaveSource.orbitSpeed src)).

(** *** Concrete objects *)

(** [new WaveSimulation(0, 0, 4)]: the grid without cells. *)
Definition sim_0x0 : WaveSimulation :=
  mkSim 0 0 4 0 0 [] [] [] [] false 0.997%float [] true
    (replicate 256 0%float) 0.5%float 0.995%float 1 [] [] false.

(** [new WaveSimulation(w, h, cs)], for arguments the constructor accepts. *)
Definition construct (w h cs : float) : WaveSimulation :=
  default sim_0x0 (new_WaveSimulation w h cs).

(** A 3x3 grid, a 3x16 grid and a 2x2 grid of 4-pixel cells. *)
Definition sim_3x3 : WaveSimulation := construct 12 12 4.
Definition sim_3x16 : WaveSimulation := construct 12 64 4.
Definition sim_2x2 : WaveSimulation := construct 8 8 4.

(** [sim.current[i] = v], the host writing into the public buffer. *)
Definition poke (i : Z) (v : float) (s : WaveSimulation) : WaveSimulation :=
  set_current (st32 (current s) i v) s.

(** The representation invariant of the grid: [current] has one slot per
    cell. *)
Definition grid_ok (s : WaveSimulation) : Prop :=
  Zlen (current s) = cols s * rows s.

(** Cell [(x, y)] lies on one of the four edges. *)
Definition on_edge (s : WaveSimulation) (x y : Z) : Prop :=
  x = 0 \/ x = cols s - 1 \/ y = 0 \/ y = rows s - 1.

Definition zero_at (c : list float) (i : Z) : Prop := ta_get c i = Some 0%float.

(** One loop of the absorbing branch of [applyBoundaryConditions]: two zero
    stores per iteration, at the indices [i1 b] and [i2 b]. *)
Definition zero_pair {B} (i1 i2 : B -> Z) (c : list float) (b : B)
  : list float :=
  st32 (st32 c (i1 b) 0) (i2 b) 0.

(** A 3x3 grid with one source on the corner cell (0, 0). *)
Definition sim_corner_source : WaveSimulation := addSource 0 0 0.05 1 sim_3x3.

(** "NaN, or within [-50, 50]". *)
Definition amp_ok (v : float) : bool :=
  is_nan v || ((-50 <=? v)%float && (v <=? 50)%float).

(** The magnitude [m * 2^e] of a binary64 value is at most 50
    ([50 = 7036874417766400 * 2^-47]). *)
Definition mag_le50 (m : positive) (e : Z) : bool :=
  (e <? -47) || ((e =? -47) && (Zpos m <=? 7036874417766400)).

(** Cell [i] of [c], when there is one, holds NaN or a value in [-50, 50]. *)
Definition cell_ok (c : list float) (i : Z) : Prop :=
  forall v, ta_get c i = Some v -> amp_ok v = true.

(** Values on which [fround] is checked against [fround_ref]: zeros, ties,
    binary32 subnormals, the overflow threshold, carries, specials. *)
Definition fround_samples : list float :=
  [0; -0; 1; 0.1; -0.1; 50; -50; 1e39; -1e39; 3.4028234663852886e38;
   3.4028235677973366e38; 3.4028235677973362e38; 1e-45;
   7.006492321624085e-46; 7.00649232162409e-46; 1.401298464324817e-45;
   2.1019476964872256e-45; 1e-46; -1e-46; 1.1754943508222875e-38;
   1.1754942e-38; 16777217; 16777219; 33554434; 1e-320; 5e-324;
   1.7976931348623157e308; infinity; neg_infinity; 0.49999999;
   123456.789; 1.0000000596046448; 1.0000001788139343; 1.00000005960465;
   49.99999999999; 50.000000001]%float.

(** The bodies of the two loops of the reflective branch of
    [applyBoundaryConditions]. *)
Definition reflect_rows (s : WaveSimulation) (c : list float) (x : Z)
  : list float :=
  let c := st32 c (getIndex s x 0) (rd c (getIndex s x 1)) in
  st32 c (getIndex s x (rows s - 1)) (rd c (getIndex s x (rows s - 2))).

Definition reflect_cols (s : WaveSimulation) (c : list float) (y : Z)
  : list float :=
  let c := st32 c (getIndex s 0 y) (rd c (getIndex s 1 y)) in
  st32 c (getIndex s (cols s - 1) y) (rd c (getIndex s (cols s - 2) y)).

(** A source of amplitude 100 in the middle of a 3x3 grid, and on a 2x2 grid
    (which has no interior cell) with reflective boundaries. *)
Definition sim_loud_3x3 : WaveSimulation := addSource 6 6 0.1 100 sim_3x3.

Definition sim_loud_2x2 : WaveSimulation :=
  set_params 0.5 0.995 1 true false (addSource 4 4 0.1 100 sim_2x2).

(** [waveSpeed = NaN] on the grid with the corner source. *)
Definition sim_nan_speed : WaveSimulation :=
  set_params nan 0.995 1 false false sim_corner_source.

(** The 3x3 grid after [applyImpulse(6, 6, 4, 3)]: 3 in the middle cell. *)
Definition sim_bump_3x3 : WaveSimulation :=
  default sim_3x3 (applyImpulse ref_math 6 6 4 3 sim_3x3).

(** What one [step] does to a source: the orbital update of the first loop,
    then, for an active source, the velocity update of the second. *)
Definition move_source (M : MathLib) (s : WaveSimulation)
  (src : WaveSource.t) : WaveSource.t :=
  let src1 := orbit_update M src in
  if WaveSource.active src1 then advance s src1 else src1.

(** [addOrbitalSource(0, 40, 20, 0.05)] on a 25x25 grid: an orbit of radius
    5 cells around the cell-coordinates (0, 10). *)
Definition sim_orbit_left_edge : WaveSimulation :=
  addOrbitalSource ref_math 0 40 20 0.05 0.05 1 0 (construct 100 100 4).

(** The indices of [cur] that [stabilityGuard] reads, in order: the samples
    up to the first non-finite one, and the last index when no sample is
    non-finite. *)
Fixpoint scan_until (cur : list float) (l : list Z) : list Z * bool :=
  match l with
  | [] => ([], false)
  | i :: rest =>
      if corrupt cur i then ([i], true)
      else let '(r, hit) := scan_until cur rest in (i :: r, hit)
  end.

Definition guard_reads (cur : list float) : list Z :=
  let len := Zlen cur in
  let '(r, hit) := scan_until cur (guard_samples len) in
  if hit then r else r ++ [len - 1].


(** A 3x3 grid of 49-pixel cells with 3 in the middle cell, and the 3x3 grid
    of 4-pixel cells one reflective step after the impulse. *)
Definition sim_bump_49 : WaveSimulation :=
  default sim_0x0 (applyImpulse ref_math 73 73 49 3 (construct 147 147 49)).

Definition sim_reflected_3x3 : WaveSimulation :=
  default sim_0x0
    (step ref_math 0 (set_params 0.5 0.995 1 true false sim_bump_3x3)).

(* ===================================================================== *)
(** ** Vocabulary of the further properties *)
(* ===================================================================== *)

(** The sizes of the grid and the lengths of the five buffers. *)
Definition dims (s : WaveSimulation) : Z * Z * list Z :=
  (cols s, rows s,
   [Zlen (current s); Zlen (previous s); Zlen (velocity s);
    Zlen (energyMap s); Zlen (wallMask s)]).

(** The configuration of the object: what the host sets and no method of
    the engine assigns after construction. *)
Definition config (s : WaveSimulation) :=
  (width s, height s, cellSize s, cols s, rows s,
   (waveSpeed s, damping s, dt s, reflectiveBoundaries s,
    energyTrailEnabled s, energyDecay s)).

(** Every value of the buffer is a zero ([+0] or [-0]). *)
Definition silent (c : list float) : Prop :=
  forall i v, ta_get c i = Some v -> is_zero v = true.

(** The factor [c2dt2] of the Laplacian in the update rule. *)
Definition update_coefficient (s : WaveSimulation) : float :=
  let d := (dt s / xint_to_float (subSteps s))%float in
  (waveSpeed s * waveSpeed s * (d * d))%float.

(** The interior coordinate nearest to [x] on an axis of [n] cells. *)
Definition nearest_interior (n x : Z) : Z := Z.max 1 (Z.min (n - 2) x).

(** The slot holds a binary32 value. *)
Definition holds_f32 (c : list float) (j : Z) : Prop :=
  exists v, ta_get c j = Some (fround v).

(** The indices the sweep visits, in the order of the two nested loops. *)
Definition visit_order (s : WaveSimulation) : list Z :=
  zrange 1 (rows s - 1) ≫= fun y => (fun x => y * cols s + x) <$> zrange 1 (cols s - 1).

(** The update rule on the six values it reads. *)
Definition update_rule (s : WaveSimulation) (c2dt2 : float)
  (c p east west south north : float) : float :=
  ((2 * c - p + c2dt2 * (east + west + south + north - 4 * c)) * damping s)%float.

(** The Gaussian weight [applyImpulse] adds at offset [(dx, dy)] from the
    centre, for a radius of [r] cells; [None] outside the disc. *)
Definition impulse_weight (M : MathLib) (r : Z) (amp : float) (dx dy : Z)
  : option float :=
  let sigma := (Z_to_float r * 0.5)%float in
  let sigma2 := (sigma * sigma)%float in
  let dist2 :=
    (Z_to_float dx * Z_to_float dx + Z_to_float dy * Z_to_float dy)%float in
  if (- r <=? dx) && (dx <=? r) && (- r <=? dy) && (dy <=? r)
     && negb (Z_to_float r * Z_to_float r <? dist2)%float
  then Some (amp * Math_exp M (- dist2 / (2 * sigma2)))%float
  else None.

(** The cell is not on the edge of the grid. *)
Definition interior (s : WaveSimulation) (x y : Z) : bool :=
  (1 <=? x) && (x <? cols s - 1) && (1 <=? y) && (y <? rows s - 1).

(** The source sits on its circle, at its current angle. *)
Definition on_orbit (M : MathLib) (src : WaveSource.t) : Prop :=
  exists cX cY r a,
    WaveSource.orbitCenterX src = Some cX
    /\ WaveSource.orbitCenterY src = Some cY
    /\ WaveSource.orbitRadius src = Some r
    /\ WaveSource.orbitAngle src = Some a
    /\ WaveSource.x src = (cX + r * Math_cos M a)%float
    /\ WaveSource.y src = (cY + r * Math_sin M a)%float.

(* ===================================================================== *)
(** ** Tactics *)
(* ===================================================================== *)

(** Two cells with different coordinates are different pairs. *)
Ltac pair_ne := let H := fresh in intros H; injection H; intros; lia.

(* ===================================================================== *)
(** ** Typed-array lemmas *)
(* ===================================================================== *)

Lemma ta_set_length {A} (a : list A) i v : length (ta_set a i v) = length a.
Proof. unfold ta_set. case_decide; [apply length_insert | done]. Qed.

Lemma ta_get_set_eq {A} (a : list A) i v :
  0 <= i < Zlen a -> ta_get (ta_set a i v) i = Some v.
Proof.
  unfold ta_get, ta_set, Zlen. intros [H0 H1].
  rewrite !decide_True by done.
  apply list_lookup_insert_eq. lia.
Qed.

Lemma ta_get_set_ne {A} (a : list A) i j v :
  i <> j -> ta_get (ta_set a i v) j = ta_get a j.
Proof.
  unfold ta_get, ta_set. intros Hne.
  destruct (decide (0 <= j)); [|done].
  destruct (decide (0 <= i)); [|done].
  apply list_lookup_insert_ne. lia.
Qed.

Lemma ta_get_Some {A} (a : list A) i :
  0 <= i < Zlen a -> exists v, ta_get a i = Some v.
Proof.
  unfold ta_get, Zlen. intros [H0 H1]. rewrite decide_True by done.
  apply lookup_lt_is_Some. lia.
Qed.

Lemma ta_get_None {A} (a : list A) i :
  i < 0 \/ Zlen a <= i -> ta_get a i = None.
Proof.
  unfold ta_get, Zlen. intros H. case_decide; [|done].
  apply lookup_ge_None. lia.
Qed.

Lemma ta_get_inv {A} (a : list A) i v :
  ta_get a i = Some v -> 0 <= i < Zlen a.
Proof.
  unfold ta_get, Zlen. case_decide; [|done]. intros H'.
  apply lookup_lt_Some in H'. lia.
Qed.

Lemma st32_length a i v : length (st32 a i v) = length a.
Proof. apply ta_set_length. Qed.

Lemma Zlen_st32 a i v : Zlen (st32 a i v) = Zlen a.
Proof. unfold Zlen. by rewrite st32_length. Qed.

Lemma fill0_length a : length (fill0 a) = length a.
Proof. apply length_replicate. Qed.

Lemma ta_get_fill0 a i v : ta_get (fill0 a) i = Some v -> v = 0%float.
Proof.
  unfold ta_get, fill0. case_decide; [|done].
  intros H'. by apply lookup_replicate in H' as [-> _].
Qed.

Lemma elem_of_zrange lo hi k : k ∈ zrange lo hi <-> lo <= k < hi.
Proof. unfold zrange. rewrite elem_of_seqZ. lia. Qed.

(** A loop whose body keeps an invariant keeps it. *)
Lemma foldl_invariant {A B} (P : A -> Prop) (f : A -> B -> A) (l : list B) a :
  P a -> (forall a' b, b ∈ l -> P a' -> P (f a' b)) -> P (foldl f a l).
Proof.
  revert a. induction l as [|b l IH]; intros a Ha Hf; [done|].
  simpl. apply IH.
  - apply Hf; [left | done].
  - intros a' b' Hb'. apply Hf. by right.
Qed.

(** The same, when the invariant is about the items already visited. *)
Lemma foldl_visited {A B} (P : list B -> A -> Prop) (f : A -> B -> A)
  (l : list B) a :
  P [] a ->
  (forall done_ b a', b ∈ l -> P done_ a' -> P (done_ ++ [b]) (f a' b)) ->
  P l (foldl f a l).
Proof.
  intros H0 Hstep.
  assert (G : forall pre rest a', pre ++ rest = l -> P pre a' ->
                P (pre ++ rest) (foldl f a' rest)).
  { intros pre rest. revert pre.
    induction rest as [|b rest IH]; intros pre a' Heq Hp.
    - by rewrite app_nil_r.
    - simpl.
      replace (pre ++ b :: rest) with ((pre ++ [b]) ++ rest)
        by (by rewrite <- app_assoc).
      apply IH.
      + by rewrite <- app_assoc.
      + apply Hstep; [|done]. rewrite <- Heq.
        apply elem_of_app. right. left. }
  apply (G [] l a eq_refl H0).
Qed.

(* ===================================================================== *)
(** ** What each phase of [step] leaves alone *)
(* ===================================================================== *)

Lemma fields_only_refl s : fields_only s s.
Proof. exists (current s), (previous s). by destruct s. Qed.

Lemma fields_only_trans s1 s2 s3 :
  fields_only s1 s2 -> fields_only s2 s3 -> fields_only s1 s3.
Proof. intros (c & p & ->) (c' & p' & ->). by exists c', p'. Qed.

Section Frames.
Variable M : MathLib.

Lemma substep_fields d s : fields_only s (substep d s).
Proof.
  unfold substep.
  destruct (sweep s _ _) as [cur prev]. by eexists _, _.
Qed.

Lemma iter_substep_fields n d s : fields_only s (N.iter n (substep d) s).
Proof.
  induction n as [|n IH] using N.peano_ind.
  - apply fields_only_refl.
  - rewrite N.iter_succ.
    eapply fields_only_trans; [exact IH | apply substep_fields].
Qed.

Lemma update_energy_shape s :
  exists em, update_energy s = set_energyMap em s.
Proof.
  unfold update_energy. destruct (energyTrailEnabled s).
  - by eexists.
  - exists (energyMap s). by destruct s.
Qed.

Lemma stabilityGuard_cases s :
  stabilityGuard s = if guard_trips s then hard_reset s else s.
Proof.
  unfold stabilityGuard, guard_trips.
  destruct (existsb _ _); [done|]. by destruct (corrupt _ _).
Qed.

Lemma step_prepare_shape time s :
  exists cur srcs,
    step_prepare M time s
    = set_sources srcs (set_current cur (rebuildWallMask M s)).
Proof.
  unfold step_prepare.
  destruct (emit_sources _ _ _ _ _) as [cur srcs]. by exists cur, srcs.
Qed.

Lemma rebuildWallMask_shape s :
  exists m, rebuildWallMask M s = set_wallMask m (wallMaskDirty (rebuildWallMask M s)) s.
Proof.
  unfold rebuildWallMask. destruct (wallMaskDirty s) eqn:Hd; simpl.
  - destruct (walls s); eexists; reflexivity.
  - exists (wallMask s). rewrite Hd. destruct s; simpl in *. by subst.
Qed.

(** *** The source list across [step] *)

Lemma orbit_update_fixed src : source_fixed (orbit_update M src) = source_fixed src.
Proof.
  unfold orbit_update.
  destruct (WaveSource.orbitCenterX src) eqn:E1; [|done].
  destruct (WaveSource.orbitRadius src) eqn:E2; [|done].
  destruct (WaveSource.orbitSpeed src) eqn:E3; [|done].
  unfold source_fixed; simpl. by rewrite E1, E2, E3.
Qed.

Lemma advance_fixed s src : source_fixed (advance s src) = source_fixed src.
Proof. unfold advance. by destruct (negb _). Qed.

Lemma emit_sources_fixed s time cur srcs :
  map source_fixed (emit_sources M s time cur srcs).2 = map source_fixed srcs.
Proof.
  revert cur. induction srcs as [|src rest IH]; intros cur; [done|].
  simpl. destruct (negb (WaveSource.active src)).
  - specialize (IH cur). destruct (emit_sources _ _ _ _ _) as [c r].
    simpl in *. by rewrite IH.
  - specialize (IH (inject M s time cur src)).
    destruct (emit_sources _ _ _ _ _) as [c r].
    simpl in *. by rewrite IH, advance_fixed.
Qed.

Lemma step_prepare_sources_fixed time s :
  map source_fixed (sources (step_prepare M time s))
  = map source_fixed (sources s).
Proof.
  unfold step_prepare.
  pose proof (emit_sources_fixed
                (set_sources (map (orbit_update M) (sources (rebuildWallMask M s)))
                   (rebuildWallMask M s)) time
                (current (rebuildWallMask M s))
                (map (orbit_update M) (sources (rebuildWallMask M s)))) as H.
  simpl in *. destruct (emit_sources _ _ _ _ _) as [cur srcs]. simpl in *.
  rewrite H. rewrite <- list_fmap_compose.
  destruct (rebuildWallMask_shape s) as [m ->]. simpl.
  apply list_fmap_ext. intros _ src _. apply orbit_update_fixed.
Qed.

Lemma step_until_guard_inv time s s1 :
  step_until_guard M time s = Some s1 ->
  exists n, loop_count (subSteps s) = Some n /\
    s1 = update_energy
           (N.iter n (substep (dt s / xint_to_float (subSteps s)))
              (step_prepare M time s)).
Proof.
  unfold step_until_guard. destruct (loop_count _) as [n|]; [|done].
  intros [= <-]. by exists n.
Qed.

Lemma step_inv time s s' :
  step M time s = Some s' ->
  exists s1, step_until_guard M time s = Some s1 /\ s' = stabilityGuard s1.
Proof.
  unfold step. destruct (step_until_guard _ _ _) as [s1|]; [|done].
  intros [= <-]. by exists s1.
Qed.

End Frames.

Section StepShape.
Variable M : MathLib.

(** [step] rewrites the five buffers, the mask and the source list, and
    nothing else. *)
Lemma step_shape time s s' :
  step M time s = Some s' ->
  exists c p v em srcs,
    s' = set_velocity v (set_energyMap em (set_sources srcs
           (set_current c (set_previous p (rebuildWallMask M s))))).
Proof.
  intros (s1 & H1 & ->)%step_inv.
  apply step_until_guard_inv in H1 as (n & _ & ->).
  destruct (step_prepare_shape M time s) as (cur & srcs & Hp).
  destruct (iter_substep_fields n (dt s / xint_to_float (subSteps s))
              (step_prepare M time s)) as (c & p & Hi).
  rewrite Hi, Hp.
  destruct (update_energy_shape
              (set_current c (set_previous p (set_sources srcs
                 (set_current cur (rebuildWallMask M s)))))) as [em ->].
  rewrite stabilityGuard_cases. destruct (guard_trips _).
  - exists (fill0 c), (fill0 p), (fill0 (velocity (rebuildWallMask M s))), em,
      srcs. reflexivity.
  - exists c, p, (velocity (rebuildWallMask M s)), em, srcs. reflexivity.
Qed.

Lemma rebuildWallMask_dirty s :
  wallMaskDirty s = true ->
  rebuildWallMask M s
  = set_wallMask
      (match walls s with
       | [] => fill0_u8 (wallMask s)
       | _ => scan_walls M s (fill0_u8 (wallMask s))
       end) false s.
Proof. unfold rebuildWallMask. intros ->. simpl. by destruct (walls s). Qed.

End StepShape.

(* ===================================================================== *)
(** ** Walls, the guard's reset, source parameters, sub-step count *)
(* ===================================================================== *)

Lemma new_sim_3x3 : new_WaveSimulation 12 12 4 = Some sim_3x3.
Proof. vm_compute. reflexivity. Qed.

Lemma new_sim_3x16 : new_WaveSimulation 12 64 4 = Some sim_3x16.
Proof. vm_compute. reflexivity. Qed.

Lemma new_sim_2x2 : new_WaveSimulation 8 8 4 = Some sim_2x2.
Proof. vm_compute. reflexivity. Qed.

Lemma new_sim_0x0 : new_WaveSimulation 0 0 4 = Some sim_0x0.
Proof. vm_compute. reflexivity. Qed.

(** C9.  [addWall] takes pixel coordinates: the wall it stores has each
    endpoint coordinate divided by [cellSize] and the slit list as given; it
    sets the dirty flag, so the next [step] rebuilds the mask from the wall
    list (which now holds the new wall) and clears the flag. *)
Theorem addWall_stores_grid_coordinates (M : MathLib)
  (px1 py1 px2 py2 : float) (slits : option (list (float * float)))
  (s : WaveSimulation) :
  let s' := addWall px1 py1 px2 py2 slits s in
  walls s'
  = walls s ++ [Wall.mk (px1 / cellSize s) (py1 / cellSize s)
                  (px2 / cellSize s) (py2 / cellSize s) slits]
  /\ wallMaskDirty s' = true
  /\ forall time s'',
       step M time s' = Some s'' ->
       wallMaskDirty s'' = false
       /\ walls s'' = walls s'
       /\ wallMask s'' = scan_walls M s' (fill0_u8 (wallMask s)).
Proof.
  intros s'. split; [reflexivity|]. split; [reflexivity|].
  intros time s'' Hstep.
  apply step_shape in Hstep as (c & p & v & em & srcs & ->).
  rewrite (rebuildWallMask_dirty M s' eq_refl). simpl.
  split; [reflexivity|]. split; [reflexivity|].
  destruct (walls s); reflexivity.
Qed.

Lemma addWall_stores_grid_coordinates_witness :
  exists s'',
    step ref_math 0 (addWall 4 0 4 12 (Some [(0.4, 0.6)%float]) sim_3x3) = Some s''
    /\ wallMaskDirty s'' = false
    /\ wallMask s''
       = scan_walls ref_math (addWall 4 0 4 12 (Some [(0.4, 0.6)%float]) sim_3x3)
           (fill0_u8 (wallMask sim_3x3)).
Proof.
  eexists. split; [vm_compute; reflexivity|].
  destruct (addWall_stores_grid_coordinates ref_math 4 0 4 12
              (Some [(0.4, 0.6)%float]) sim_3x3) as (_ & _ & H).
  destruct (H 0%float _ eq_refl) as (H1 & _ & H3).
  split; [exact H1 | exact H3].
Defined.

(** C6.  When the guard at the end of [step] finds a non-finite sample, the
    step still returns, and its result is the state the guard received with
    [current], [previous] and [velocity] zero-filled (same lengths); the
    source list, the wall list, the obstacle mask and its dirty flag, the
    energy map and every parameter are those the guard received. *)
Theorem stabilityGuard_reset_frame (M : MathLib) (time : float)
  (s s1 : WaveSimulation) :
  step_until_guard M time s = Some s1 ->
  guard_trips s1 = true ->
  exists s',
    step M time s = Some s'
    /\ current s' = replicate (length (current s1)) 0%float
    /\ previous s' = replicate (length (previous s1)) 0%float
    /\ velocity s' = replicate (length (velocity s1)) 0%float
    /\ sources s' = sources s1
    /\ walls s' = walls s1
    /\ wallMask s' = wallMask s1
    /\ wallMaskDirty s' = wallMaskDirty s1
    /\ energyMap s' = energyMap s1
    /\ (energyTrailEnabled s', energyDecay s', sampleBuffer s')
       = (energyTrailEnabled s1, energyDecay s1, sampleBuffer s1)
    /\ (waveSpeed s', damping s', dt s', reflectiveBoundaries s')
       = (waveSpeed s1, damping s1, dt s1, reflectiveBoundaries s1)
    /\ (width s', height s', cellSize s', cols s', rows s')
       = (width s1, height s1, cellSize s1, cols s1, rows s1).
Proof.
  intros Hrun Htrip. exists (hard_reset s1). split.
  - unfold step. rewrite Hrun. simpl.
    by rewrite stabilityGuard_cases, Htrip.
  - repeat split.
Qed.

Lemma stabilityGuard_reset_frame_witness :
  let s := poke 4 nan sim_3x3 in
  let s1 := update_energy (N.iter 1 (substep 1) (step_prepare ref_math 0 s)) in
  exists s',
    step ref_math 0 s = Some s'
    /\ current s' = replicate (length (current s1)) 0%float
    /\ previous s' = replicate (length (previous s1)) 0%float
    /\ velocity s' = replicate (length (velocity s1)) 0%float
    /\ sources s' = sources s1
    /\ walls s' = walls s1
    /\ wallMask s' = wallMask s1
    /\ wallMaskDirty s' = wallMaskDirty s1
    /\ energyMap s' = energyMap s1
    /\ (energyTrailEnabled s', energyDecay s', sampleBuffer s')
       = (energyTrailEnabled s1, energyDecay s1, sampleBuffer s1)
    /\ (waveSpeed s', damping s', dt s', reflectiveBoundaries s')
       = (waveSpeed s1, damping s1, dt s1, reflectiveBoundaries s1)
    /\ (width s', height s', cellSize s', cols s', rows s')
       = (width s1, height s1, cellSize s1, cols s1, rows s1).
Proof.
  intros s s1.
  apply (stabilityGuard_reset_frame ref_math 0 s s1);
    vm_compute; reflexivity.
Defined.

(** C10.  [step] keeps the source list's length and order and, in every
    source, the fields [frequency], [amplitude], [phase], [active] and the
    orbit centre, radius and speed: only [x], [y], [vx], [vy] and
    [orbitAngle] can differ afterwards.  The Doppler-shifted frequency
    [frequency + (vx || 0) * 0.001] exists only inside the injected value. *)
Theorem step_keeps_source_parameters (M : MathLib) (time : float)
  (s s' : WaveSimulation) :
  step M time s = Some s' ->
  map source_fixed (sources s') = map source_fixed (sources s)
  /\ forall cur src idx,
       source_cell s src = Some idx ->
       inject M s time cur src
       = st32 cur idx
           (rd cur idx
            + WaveSource.amplitude src
              * Math_sin M
                  (time * (WaveSource.frequency src
                           + or_zero (WaveSource.vx src) * 0.001)
                   + WaveSource.phase src))%float.
Proof.
  intros Hstep. split.
  - apply step_inv in Hstep as (s1 & H1 & ->).
    apply step_until_guard_inv in H1 as (n & _ & ->).
    rewrite <- (step_prepare_sources_fixed M time s).
    destruct (iter_substep_fields n (dt s / xint_to_float (subSteps s))
                (step_prepare M time s)) as (c & p & ->).
    destruct (update_energy_shape
                (set_current c (set_previous p (step_prepare M time s))))
      as [em ->].
    rewrite stabilityGuard_cases. by destruct (guard_trips _).
  - intros cur src idx Hcell. unfold inject. by rewrite Hcell.
Qed.

Lemma step_keeps_source_parameters_witness :
  let s := addOrbitalSource ref_math 24 24 8 0.05 0.05 1 0
             (addSource 20 20 0.05 1 (construct 48 48 4)) in
  exists s',
    step ref_math 1 s = Some s'
    /\ map source_fixed (sources s') = map source_fixed (sources s).
Proof.
  intros s. eexists. split; [vm_compute; reflexivity|].
  exact (proj1 (step_keeps_source_parameters ref_math 1 s _ eq_refl)).
Defined.

Lemma x_max_one_ge c k : x_max (XInt 1) c = XInt k -> 1 <= k.
Proof.
  destruct c as [|[]|z]; simpl; intros [= <-]; lia.
Qed.



(* ===================================================================== *)
(** ** Lengths *)
(* ===================================================================== *)

Lemma Zlen_foldl_st32 {B} (f : list float -> B -> list float) (l : list B) c :
  (forall a b, Zlen (f a b) = Zlen a) -> Zlen (foldl f c l) = Zlen c.
Proof.
  intros Hf. apply (foldl_invariant (fun a => Zlen a = Zlen c)); [done|].
  intros a b _ Ha. by rewrite Hf.
Qed.

Lemma applyBoundaryConditions_Zlen s cur :
  Zlen (applyBoundaryConditions s cur) = Zlen cur.
Proof.
  unfold applyBoundaryConditions.
  destruct (reflectiveBoundaries s);
    rewrite !Zlen_foldl_st32; try done;
    intros; by rewrite !Zlen_st32.
Qed.

Lemma sweep_cell_Zlen s k cp idx :
  Zlen (sweep_cell s k cp idx).1 = Zlen cp.1.
Proof.
  destruct cp as [cur prev]. unfold sweep_cell.
  destruct (mask_at _ _); simpl; apply Zlen_st32.
Qed.

Lemma sweep_Zlen s k cp : Zlen (sweep s k cp).1 = Zlen cp.1.
Proof.
  unfold sweep.
  apply (foldl_invariant (fun a => Zlen a.1 = Zlen cp.1)); [done|].
  intros a y _ Ha.
  apply (foldl_invariant (fun a => Zlen a.1 = Zlen cp.1)); [done|].
  intros a' x _ Ha'. by rewrite sweep_cell_Zlen.
Qed.

Lemma substep_current d s :
  current (substep d s)
  = applyBoundaryConditions s
      (sweep s (waveSpeed s * waveSpeed s * (d * d))%float
         (current s, previous s)).1.
Proof. unfold substep. by destruct (sweep _ _ _). Qed.

Lemma substep_Zlen d s : Zlen (current (substep d s)) = Zlen (current s).
Proof.
  by rewrite substep_current, applyBoundaryConditions_Zlen, sweep_Zlen.
Qed.

Lemma emit_sources_Zlen M s time cur srcs :
  Zlen (emit_sources M s time cur srcs).1 = Zlen cur.
Proof.
  revert cur. induction srcs as [|src rest IH]; intros cur; [done|].
  simpl. destruct (negb (WaveSource.active src)).
  - specialize (IH cur). by destruct (emit_sources _ _ _ _ _).
  - specialize (IH (inject M s time cur src)).
    destruct (emit_sources _ _ _ _ _) as [c r]. simpl in *. rewrite IH.
    unfold inject. destruct (source_cell _ _); [apply Zlen_st32 | done].
Qed.

Lemma step_prepare_Zlen M time s :
  Zlen (current (step_prepare M time s)) = Zlen (current s).
Proof.
  unfold step_prepare.
  pose proof (emit_sources_Zlen M
                (set_sources (map (orbit_update M) (sources (rebuildWallMask M s)))
                   (rebuildWallMask M s)) time
                (current (rebuildWallMask M s))
                (map (orbit_update M) (sources (rebuildWallMask M s)))) as H.
  simpl in *. destruct (emit_sources _ _ _ _ _) as [cur srcs]. simpl in *.
  rewrite H. by destruct (rebuildWallMask_shape M s) as [m ->].
Qed.

Lemma step_prepare_config M time s :
  cols (step_prepare M time s) = cols s
  /\ rows (step_prepare M time s) = rows s
  /\ reflectiveBoundaries (step_prepare M time s) = reflectiveBoundaries s.
Proof.
  destruct (step_prepare_shape M time s) as (c & srcs & ->).
  by destruct (rebuildWallMask_shape M s) as [m ->].
Qed.

Lemma iter_substep_Zlen n d s :
  Zlen (current (N.iter n (substep d) s)) = Zlen (current s).
Proof.
  induction n as [|n IH] using N.peano_ind; [done|].
  by rewrite N.iter_succ, substep_Zlen.
Qed.

Lemma update_energy_current s : current (update_energy s) = current s.
Proof. by destruct (update_energy_shape s) as [em ->]. Qed.

(* ===================================================================== *)
(** ** Absorbing boundaries *)
(* ===================================================================== *)

Lemma fround_zero : fround 0 = 0%float.
Proof. reflexivity. Qed.

Lemma st32_zero_keep c i j : zero_at c j -> zero_at (st32 c i 0) j.
Proof.
  unfold zero_at, st32. intros Hj. destruct (decide (i = j)) as [->|Hne].
  - rewrite ta_get_set_eq; [done | by eapply ta_get_inv].
  - by rewrite ta_get_set_ne.
Qed.

Lemma st32_zero_new c i : 0 <= i < Zlen c -> zero_at (st32 c i 0) i.
Proof. intros Hi. unfold zero_at, st32. by rewrite ta_get_set_eq. Qed.

Section ZeroWrites.
Context {B : Type} (i1 i2 : B -> Z).
Local Abbreviation zero_pair := (zero_pair i1 i2).

Lemma zero_pair_Zlen c b : Zlen (zero_pair c b) = Zlen c.
Proof. unfold zero_pair. by rewrite !Zlen_st32. Qed.

Lemma zero_pair_keep l c j : zero_at c j -> zero_at (foldl zero_pair c l) j.
Proof.
  intros Hj. apply (foldl_invariant (fun a => zero_at a j)); [done|].
  intros a b _ Ha. by apply st32_zero_keep, st32_zero_keep.
Qed.

Lemma zero_pair_hit l c b :
  b ∈ l ->
  (0 <= i1 b < Zlen c -> zero_at (foldl zero_pair c l) (i1 b))
  /\ (0 <= i2 b < Zlen c -> zero_at (foldl zero_pair c l) (i2 b)).
Proof.
  revert c. induction l as [|a l IH]; intros c Hb;
    [by apply elem_of_nil in Hb|].
  apply elem_of_cons in Hb as [->|Hb]; simpl.
  - split; intros Hi; apply zero_pair_keep; unfold zero_pair.
    + by apply st32_zero_keep, st32_zero_new.
    + apply st32_zero_new. by rewrite Zlen_st32.
  - destruct (IH (zero_pair c a) Hb) as [H1 H2].
    rewrite zero_pair_Zlen in H1, H2. by split.
Qed.

End ZeroWrites.

Lemma absorbing_edges s cur x y :
  reflectiveBoundaries s = false ->
  Zlen cur = cols s * rows s ->
  0 <= x < cols s -> 0 <= y < rows s -> on_edge s x y ->
  zero_at (applyBoundaryConditions s cur) (getIndex s x y).
Proof.
  intros Hr Hlen Hx Hy Hedge. unfold applyBoundaryConditions. rewrite Hr.
  set (rowsf := fun x : Z => getIndex s x 0).
  set (rowsl := fun x : Z => getIndex s x (rows s - 1)).
  set (colsf := fun y : Z => getIndex s 0 y).
  set (colsl := fun y : Z => getIndex s (cols s - 1) y).
  change (zero_at
            (foldl (zero_pair colsf colsl)
               (foldl (zero_pair rowsf rowsl) cur (zrange 0 (cols s)))
               (zrange 0 (rows s)))
            (getIndex s x y)).
  assert (Hin : forall a b, 0 <= a < cols s -> 0 <= b < rows s ->
                  0 <= getIndex s a b < cols s * rows s).
  { intros a b Ha Hb. unfold getIndex. nia. }
  assert (Hl1 : Zlen (foldl (zero_pair rowsf rowsl) cur (zrange 0 (cols s)))
                = cols s * rows s).
  { rewrite Zlen_foldl_st32; [done|]. intros; apply zero_pair_Zlen. }
  destruct Hedge as [-> | [-> | [-> | ->]]].
  - apply (zero_pair_hit colsf colsl (zrange 0 (rows s)) _ y).
    + by apply elem_of_zrange.
    + rewrite Hl1. subst colsf. simpl. apply Hin; lia.
  - apply (zero_pair_hit colsf colsl (zrange 0 (rows s)) _ y).
    + by apply elem_of_zrange.
    + rewrite Hl1. subst colsl. simpl. apply Hin; lia.
  - apply zero_pair_keep.
    apply (zero_pair_hit rowsf rowsl (zrange 0 (cols s)) _ x).
    + by apply elem_of_zrange.
    + rewrite Hlen. subst rowsf. simpl. apply Hin; lia.
  - apply zero_pair_keep.
    apply (zero_pair_hit rowsf rowsl (zrange 0 (cols s)) _ x).
    + by apply elem_of_zrange.
    + rewrite Hlen. subst rowsl. simpl. apply Hin; lia.
Qed.

Lemma zero_at_fill0 c i : 0 <= i < Zlen c -> zero_at (fill0 c) i.
Proof.
  intros Hi. unfold zero_at, ta_get, fill0, Zlen in *.
  rewrite decide_True by lia. apply lookup_replicate_2. lia.
Qed.

Lemma grid_ok_new w h cs s : new_WaveSimulation w h cs = Some s -> grid_ok s.
Proof.
  unfold new_WaveSimulation, grid_ok, Zlen.
  destruct (Math_ceil (w / cs)) as [| |c]; try done.
  destruct (Math_ceil (h / cs)) as [| |r]; try done.
  destruct (0 <=? c * r) eqn:E; [|done]. intros [= <-]. simpl.
  rewrite length_replicate. lia.
Qed.

Lemma grid_ok_step M time s s' : grid_ok s -> step M time s = Some s' -> grid_ok s'.
Proof.
  unfold grid_ok. intros Hok Hstep.
  pose proof Hstep as (c & p & v & em & srcs & Hs)%step_shape.
  destruct (rebuildWallMask_shape M s) as [m Hm].
  assert (Hc : cols s' = cols s) by (rewrite Hs, Hm; reflexivity).
  assert (Hr : rows s' = rows s) by (rewrite Hs, Hm; reflexivity).
  rewrite Hc, Hr, <- Hok. clear Hs Hm Hc Hr.
  apply step_inv in Hstep as (s1 & H1 & ->).
  apply step_until_guard_inv in H1 as (n & _ & ->).
  rewrite stabilityGuard_cases.
  destruct (guard_trips _); simpl; unfold Zlen; rewrite ?fill0_length;
    fold (Zlen (current (update_energy
      (N.iter n (substep (dt s / xint_to_float (subSteps s)))
         (step_prepare M time s)))));
    by rewrite update_energy_current, iter_substep_Zlen, step_prepare_Zlen.
Qed.

(** When [waveSpeed * dt] is a number, a [step] that returns ends with a
    sub-step, then the energy pass and the guard. *)
Lemma step_last_substep M time s s' :
  subSteps s <> XNaN -> step M time s = Some s' ->
  exists s2 d,
    s' = stabilityGuard (update_energy (substep d s2))
    /\ cols s2 = cols s /\ rows s2 = rows s
    /\ reflectiveBoundaries s2 = reflectiveBoundaries s
    /\ Zlen (current s2) = Zlen (current s).
Proof.
  intros Hnum Hstep.
  apply step_inv in Hstep as (s1 & H1 & ->).
  apply step_until_guard_inv in H1 as (n & Hn & ->).
  set (d := (dt s / xint_to_float (subSteps s))%float) in *.
  assert (Hpos : n <> 0%N).
  { unfold loop_count in Hn. destruct (subSteps s) as [|[]|z] eqn:E; try done.
    - unfold subSteps in E. by destruct (Math_ceil _) as [|[]|].
    - pose proof (x_max_one_ge _ _ E). injection Hn as <-. lia. }
  destruct (N.succ_pred n Hpos). rewrite N.iter_succ.
  exists (N.iter (N.pred n) (substep d) (step_prepare M time s)), d.
  split; [reflexivity|].
  destruct (iter_substep_fields (N.pred n) d (step_prepare M time s))
    as (c & p & Hs2).
  rewrite iter_substep_Zlen, step_prepare_Zlen, Hs2. simpl.
  destruct (step_prepare_config M time s) as (-> & -> & ->). done.
Qed.

(** C7 (as amended).  With [reflectiveBoundaries = false], on a grid whose
    buffer has one slot per cell, after every [step] that returns and whose
    [waveSpeed * dt] is a number (so that at least one sub-step runs), every
    cell of row 0, row [rows-1], column 0 and column [cols-1] of [current]
    is 0, whatever the sources, walls and other parameters. *)
Theorem absorbing_edges_zero_after_step (M : MathLib) (time : float)
  (s s' : WaveSimulation) (x y : Z) :
  reflectiveBoundaries s = false ->
  grid_ok s ->
  subSteps s <> XNaN ->
  step M time s = Some s' ->
  0 <= x < cols s -> 0 <= y < rows s -> on_edge s x y ->
  ta_get (current s') (getIndex s x y) = Some 0%float.
Proof.
  intros Hr Hok Hnum Hstep Hx Hy Hedge.
  destruct (step_last_substep M time s s' Hnum Hstep)
    as (s2 & d & -> & Hc2 & Hr2 & Hrefl2 & Hlen2).
  assert (Hz : zero_at (current (update_energy (substep d s2))) (getIndex s x y)).
  { rewrite update_energy_current, substep_current.
    replace (getIndex s x y) with (getIndex s2 x y)
      by (unfold getIndex; by rewrite Hc2).
    apply absorbing_edges; rewrite ?sweep_Zlen, ?Hc2, ?Hr2; try done.
    - congruence.
    - simpl. by rewrite Hlen2.
    - unfold on_edge in *. by rewrite Hc2, Hr2. }
  rewrite stabilityGuard_cases. destruct (guard_trips _); [|exact Hz].
  simpl. apply zero_at_fill0. by eapply ta_get_inv.
Qed.

Lemma absorbing_edges_zero_after_step_witness :
  exists s',
    step ref_math 10 sim_corner_source = Some s'
    /\ ta_get (current s') (getIndex sim_corner_source 0 0)
       = Some 0%float.
Proof.
  eexists. split; [vm_compute; reflexivity|].
  apply (absorbing_edges_zero_after_step ref_math 10
           sim_corner_source _ 0 0);
    try (vm_compute; reflexivity); try (vm_compute; discriminate).
  - split; vm_compute; [discriminate | reflexivity].
  - split; vm_compute; [discriminate | reflexivity].
  - by left.
Defined.

(** C7, the claim as stated fails: a source on the corner cell of a 3x3 grid,
    absorbing boundaries, [waveSpeed = NaN].  No sub-step runs, and the
    injected value stays on the edge. *)
Lemma absorbing_edges_counterexample :
  reflectiveBoundaries sim_nan_speed = false
  /\ exists s' v,
       step ref_math 10 sim_nan_speed = Some s'
       /\ ta_get (current s') (getIndex sim_nan_speed 0 0) = Some v
       /\ is_zero v = false.
Proof.
  split; [reflexivity|].
  eexists _, _. split; [vm_compute; reflexivity|].
  split; vm_compute; reflexivity.
Qed.

(* ===================================================================== *)
(** ** Floating-point facts *)
(* ===================================================================== *)

Lemma is_nan_Prim2SF v : is_nan v = true <-> Prim2SF v = S754_nan.
Proof.
  unfold is_nan. rewrite FloatAxioms.eqb_spec. split.
  - destruct (Prim2SF v) as [s|s| |s m e]; try done.
    + by destruct s.
    + unfold SFeqb. simpl.
      rewrite Z.compare_refl, Pos.compare_cont_refl. by destruct s.
  - by intros ->.
Qed.

Lemma SFcompare_antisym x y :
  SFcompare y x = option_map CompOpp (SFcompare x y).
Proof.
  destruct x as [s|s| |s m e], y as [s'|s'| |s' m' e']; simpl; try done;
    try (by destruct s); try (by destruct s'); try (by destruct s, s').
  change (Pos.compare_cont Eq m' m) with (Pos.compare m' m).
  change (Pos.compare_cont Eq m m') with (Pos.compare m m').
  destruct s, s'; try done; f_equal;
    rewrite (Z.compare_antisym e e'), (Pos.compare_antisym m m');
    by destruct (e ?= e'), (Pos.compare m m').
Qed.

Lemma ltb_false_leb a b :
  is_nan a = false -> is_nan b = false -> (a <? b)%float = false ->
  (b <=? a)%float = true.
Proof.
  intros Ha Hb. rewrite FloatAxioms.ltb_spec, FloatAxioms.leb_spec. unfold SFltb, SFleb.
  rewrite (SFcompare_antisym (Prim2SF a) (Prim2SF b)).
  destruct (SFcompare (Prim2SF a) (Prim2SF b)) as [[]|] eqn:E; try done.
  exfalso.
  assert (Prim2SF a = S754_nan \/ Prim2SF b = S754_nan) as [H|H].
  { destruct (Prim2SF a) as [s|s| |s m e], (Prim2SF b) as [s'|s'| |s' m' e'];
      simpl in E; auto; try done; by destruct s. }
  - apply is_nan_Prim2SF in H. congruence.
  - apply is_nan_Prim2SF in H. congruence.
Qed.

Lemma clamp50_ok v : amp_ok (clamp50 v) = true.
Proof.
  unfold clamp50.
  destruct (50 <? v)%float eqn:E1; [reflexivity|].
  destruct (v <? -50)%float eqn:E2; [reflexivity|].
  unfold amp_ok. destruct (is_nan v) eqn:En; [done|]. simpl.
  rewrite (ltb_false_leb v (-50)), (ltb_false_leb 50 v); done.
Qed.

(** *** Rounding to binary32 *)

Lemma fround_agrees_on_samples :
  forallb (fun v => Leibniz.eqb (fround v) (fround_ref v)) fround_samples
  = true.
Proof. vm_compute. reflexivity. Qed.

Lemma fround_nan : fround nan = nan.
Proof. reflexivity. Qed.

Lemma digits2_pos_size m : digits2_pos m = Pos.size m.
Proof. induction m as [m IH|m IH|]; simpl; by rewrite ?IH. Qed.

Lemma digits2_pos_log2 m : Zpos (digits2_pos m) = Z.log2 (Zpos m) + 1.
Proof.
  rewrite digits2_pos_size. destruct m as [m|m|]; simpl; try done;
    rewrite Pos2Z.inj_succ; lia.
Qed.

Lemma rne_cases m k :
  0 < k ->
  (rne m k = m / 2 ^ k \/ rne m k = m / 2 ^ k + 1)
  /\ (m mod 2 ^ k = 0 -> rne m k = m / 2 ^ k).
Proof.
  intros Hk.
  unfold rne. assert (0 < 2 ^ (k - 1)) by (apply Z.pow_pos_nonneg; lia).
  split.
  - destruct (_ <? _); [by left|]. destruct (_ <? _); [by right|].
    destruct (Z.even _); [by left | by right].
  - intros ->. destruct (0 <? 2 ^ (k - 1)) eqn:E; [done | lia].
Qed.

Lemma rne_upper m k N : 0 < k -> m <= N * 2 ^ k -> rne m k <= N.
Proof.
  intros Hk Hle. assert (Hp : 0 < 2 ^ k) by (apply Z.pow_pos_nonneg; lia).
  destruct (rne_cases m k Hk) as [Hc Hex].
  pose proof (Z.div_mod m (2 ^ k) ltac:(lia)) as Hdm.
  pose proof (Z.mod_pos_bound m (2 ^ k) Hp) as Hr.
  assert (Hq : m / 2 ^ k <= N) by (apply Z.div_le_upper_bound; lia).
  destruct (Z.eq_dec (m / 2 ^ k) N) as [Heq|Hne]; [|lia].
  rewrite Hex; [lia|]. rewrite Heq in Hdm. nia.
Qed.

Lemma rne_lower m k N : 0 < k -> N * 2 ^ k <= m -> N <= rne m k.
Proof.
  intros Hk Hle. assert (Hp : 0 < 2 ^ k) by (apply Z.pow_pos_nonneg; lia).
  destruct (rne_cases m k Hk) as [Hc _].
  assert (Hq : N <= m / 2 ^ k) by (apply Z.div_le_lower_bound; lia).
  lia.
Qed.

Lemma rne_zero m k : 0 < k -> 0 <= m <= 2 ^ (k - 1) -> rne m k = 0.
Proof.
  intros Hk [Hm Hle]. assert (Hh : 0 < 2 ^ (k - 1)) by (apply Z.pow_pos_nonneg; lia).
  assert (Hp : 2 ^ k = 2 * 2 ^ (k - 1)).
  { rewrite <- Z.pow_succ_r by lia. f_equal. lia. }
  unfold rne. rewrite Z.div_small, Z.mod_small by lia.
  destruct (m <? 2 ^ (k - 1)) eqn:E1; [done|].
  destruct (2 ^ (k - 1) <? m) eqn:E2; [lia | done].
Qed.


(** After rounding away [k] bits, a 53-bit mantissa is 0 or again between
    [2^52] and [2^53]. *)
Lemma rounded_mantissa m k :
  0 < k -> 2 ^ 52 <= m < 2 ^ 53 ->
  rne m k * 2 ^ k = 0 \/ 2 ^ 52 <= rne m k * 2 ^ k <= 2 ^ 53.
Proof.
  intros Hk Hm. assert (Hp : 0 < 2 ^ k) by (apply Z.pow_pos_nonneg; lia).
  assert (P52 : 2 ^ 52 = 4503599627370496) by reflexivity.
  assert (P53 : 2 ^ 53 = 9007199254740992) by reflexivity.
  destruct (Z_le_gt_dec k 52) as [Hs|Hb].
  - right.
    assert (E1 : 2 ^ (52 - k) * 2 ^ k = 2 ^ 52)
      by (rewrite <- Z.pow_add_r by lia; f_equal; lia).
    assert (E2 : 2 ^ (53 - k) * 2 ^ k = 2 ^ 53)
      by (rewrite <- Z.pow_add_r by lia; f_equal; lia).
    pose proof (rne_lower m k (2 ^ (52 - k)) Hk ltac:(lia)).
    pose proof (rne_upper m k (2 ^ (53 - k)) Hk ltac:(lia)).
    nia.
  - destruct (Z.eq_dec k 53) as [->|Hne].
    + pose proof (rne_upper m 53 1 Hk ltac:(lia)).
      pose proof (rne_lower m 53 0 Hk ltac:(lia)).
      assert (rne m 53 = 0 \/ rne m 53 = 1) as [->| ->] by lia; [by left|].
      right. lia.
    + left. rewrite rne_zero; [lia | lia |].
      assert (2 ^ 53 <= 2 ^ (k - 1)) by (apply Z.pow_le_mono_r; lia). lia.
Qed.

Lemma round32_le50 s m e :
  bounded prec emax m e = true -> mag_le50 m e = true ->
  round32 (S754_finite s m e) = S754_zero s
  \/ exists p e',
       round32 (S754_finite s m e) = S754_finite s p e'
       /\ bounded prec emax p e' = true /\ mag_le50 p e' = true.
Proof.
  unfold bounded, canonical_mantissa, fexp, SpecFloat.emin, mag_le50.
  rewrite !digits2_pos_log2.
  change prec with 53. change emax with 1024.
  intros [Hcan Hemax]%andb_true_iff Hmag.
  apply Z.eqb_eq in Hcan. apply Z.leb_le in Hemax.
  pose proof (Z.log2_spec (Zpos m) ltac:(done)) as [Hlo Hhi].
  pose proof (Z.log2_nonneg (Zpos m)) as Hl0.
  set (l := Z.log2 (Zpos m)) in *.
  assert (He : e <= -47).
  { apply orb_true_iff in Hmag as [H|[H _]%andb_true_iff]; lia. }
  unfold round32. fold l.
  destruct (Z.eq_dec e (-1074)) as [->|Hne].
  - (* too small for binary32: rounds to zero *)
    left. assert (l <= 52) by lia.
    replace (Z.max (l + 1 + -1074 - 24) (-149) - -1074) with 925 by lia.
    simpl (925 <=? 0).  cbv iota.
    rewrite rne_zero; [reflexivity | lia |].
    assert (2 ^ Z.succ l <= 2 ^ 924) by (apply Z.pow_le_mono_r; lia).
    change (925 - 1) with 924. lia.
  - assert (Hl : l = 52) by lia. assert (Hge : -1074 <= e) by lia.
    rewrite Hl in *. clear Hcan.
    set (k := Z.max (52 + 1 + e - 24) (-149) - e).
    assert (Hk : 29 <= k) by lia.
    destruct (k <=? 0) eqn:Ek; [lia|].
    pose proof (rounded_mantissa (Zpos m) k ltac:(lia) ltac:(split; assumption))
      as Hrm.
    assert (Htop : e = -47 -> rne (Zpos m) k * 2 ^ k <= 7036874417766400).
    { intros ->. assert (k = 29) as -> by lia.
      apply orb_true_iff in Hmag as [H|[_ H]%andb_true_iff]; [lia|].
      apply Z.leb_le in H.
      pose proof (rne_upper (Zpos m) 29 13107200 ltac:(lia) ltac:(lia)).
      lia. }
    set (m' := rne (Zpos m) k * 2 ^ k) in *.
    destruct (m' =? 2 ^ 53) eqn:Ecarry.
    + apply Z.eqb_eq in Ecarry. right.
      change (2 ^ 52) with (Zpos 4503599627370496).
      destruct (e + 1 <=? 75) eqn:E75; [|lia].
      exists 4503599627370496%positive, (e + 1). split; [done|].
      rewrite !digits2_pos_log2.
      change (Z.log2 (Zpos 4503599627370496)) with 52.
      split; [apply andb_true_iff; split; [apply Z.eqb_eq | apply Z.leb_le]; lia|].
      destruct (Z.eq_dec e (-47)) as [E|E]; [specialize (Htop E); lia|].
      apply orb_true_iff.
      destruct (Z.eq_dec e (-48)) as [->|E']; [by right|].
      left. apply Z.ltb_lt. lia.
    + apply Z.eqb_neq in Ecarry.
      destruct Hrm as [Hz|Hr]; [left; by rewrite Hz|].
      right. destruct m' as [|p|p] eqn:Em'; try lia.
      destruct (e <=? 75) eqn:E75; [|lia].
      exists p, e. split; [done|].
      rewrite !digits2_pos_log2.
      assert (Z.log2 (Zpos p) = 52) as ->
        by (apply Z.log2_unique; [lia | split; [lia|]; change (Z.succ 52) with 53; lia]).
      split; [apply andb_true_iff; split; [apply Z.eqb_eq | apply Z.leb_le]; lia|].
      apply orb_true_iff.
      destruct (Z.eq_dec e (-47)) as [E|E];
        [specialize (Htop E) | left; apply Z.ltb_lt; lia].
      right. apply andb_true_iff. split; [apply Z.eqb_eq | apply Z.leb_le]; lia.
Qed.

Lemma Prim2SF_50 : Prim2SF 50 = S754_finite false 7036874417766400 (-47).
Proof. vm_compute. reflexivity. Qed.

Lemma Prim2SF_m50 : Prim2SF (-50) = S754_finite true 7036874417766400 (-47).
Proof. vm_compute. reflexivity. Qed.

(** Between [-c * 2^b] and [c * 2^b], for binary64 mantissas. *)
Lemma SFleb_between s m e c b :
  SFleb (S754_finite true c b) (S754_finite s m e)
  && SFleb (S754_finite s m e) (S754_finite false c b)
  = (e <? b) || ((e =? b) && (Zpos m <=? Zpos c)).
Proof.
  pose proof (Pos.compare_antisym m c) as Hanti.
  unfold Pos.compare in Hanti.
  unfold SFleb, SFcompare, Z.leb.
  change (Zpos m ?= Zpos c) with (Pos.compare_cont Eq m c).
  rewrite Hanti, (Z.compare_antisym e b).
  destruct (Z.compare_spec e b) as [->|Hlt|Hgt].
  - rewrite Z.ltb_irrefl, Z.eqb_refl.
    destruct s, (Pos.compare_cont Eq m c); reflexivity.
  - apply Z.ltb_lt in Hlt as ->.
    destruct s, (Pos.compare_cont Eq m c); reflexivity.
  - assert ((e <? b) = false) as -> by lia.
    assert ((e =? b) = false) as -> by lia.
    destruct s, (Pos.compare_cont Eq m c); reflexivity.
Qed.

Lemma SF_range_finite s m e :
  SFleb (Prim2SF (-50)) (S754_finite s m e)
  && SFleb (S754_finite s m e) (Prim2SF 50)
  = mag_le50 m e.
Proof. rewrite Prim2SF_50, Prim2SF_m50. apply SFleb_between. Qed.

Lemma fround_ok v : amp_ok v = true -> amp_ok (fround v) = true.
Proof.
  unfold fround. intros H.
  destruct (Prim2SF v) as [s|s| |s m e] eqn:E;
    try (simpl round32; by rewrite <- E, SF2Prim_Prim2SF).
  pose proof (Prim2SF_valid v) as Hv. rewrite E in Hv. simpl in Hv.
  assert (Hn : is_nan v = false).
  { destruct (is_nan v) eqn:En; [|done].
    apply is_nan_Prim2SF in En. congruence. }
  unfold amp_ok in H. rewrite Hn in H. simpl in H.
  rewrite !FloatAxioms.leb_spec, E, SF_range_finite in H.
  destruct (round32_le50 s m e Hv H) as [Hz | (p & e' & Hr & Hb & Hm)].
  - rewrite Hz. destruct s; vm_compute; reflexivity.
  - rewrite Hr. unfold amp_ok.
    rewrite !FloatAxioms.leb_spec, Prim2SF_SF2Prim by exact Hb.
    rewrite SF_range_finite, Hm. apply orb_true_r.
Qed.

(* ===================================================================== *)
(** ** The clamp *)
(* ===================================================================== *)

Lemma foldl_establish {A B} (Q : A -> Prop) (f : A -> B -> A) (l : list B) a b :
  b ∈ l ->
  (forall a', Q (f a' b)) ->
  (forall a' b', Q a' -> Q (f a' b')) ->
  Q (foldl f a l).
Proof.
  intros Hb Hnew Hkeep. revert a.
  induction l as [|b0 l IH]; intros a; [by apply elem_of_nil in Hb|].
  apply elem_of_cons in Hb as [->|Hb]; simpl.
  - apply foldl_invariant; [apply Hnew | intros; by apply Hkeep].
  - by apply IH.
Qed.

Lemma ta_get_st32 c i j v w :
  ta_get (st32 c i v) j = Some w ->
  (i = j /\ w = fround v) \/ (i <> j /\ ta_get c j = Some w).
Proof.
  intros Hw. destruct (decide (i = j)) as [->|Hne].
  - left. split; [done|].
    pose proof (ta_get_inv _ _ _ Hw) as Hr. rewrite Zlen_st32 in Hr.
    unfold st32 in Hw. rewrite ta_get_set_eq in Hw by done. by injection Hw.
  - right. split; [done|]. unfold st32 in Hw.
    by rewrite ta_get_set_ne in Hw.
Qed.

Lemma cell_ok_st32_keep c i j v :
  amp_ok (fround v) = true -> cell_ok c j -> cell_ok (st32 c i v) j.
Proof.
  intros Hv Hj w [[_ ->]|[_ Hw]]%ta_get_st32; [done | by apply Hj].
Qed.

Lemma cell_ok_st32_other c i j v :
  i <> j -> cell_ok c j -> cell_ok (st32 c i v) j.
Proof.
  intros Hne Hj w [[? _]|[_ Hw]]%ta_get_st32; [done | by apply Hj].
Qed.

Lemma cell_ok_st32_new c i v :
  amp_ok (fround v) = true -> cell_ok (st32 c i v) i.
Proof.
  intros Hv w [[_ ->]|[? _]]%ta_get_st32; done.
Qed.

Lemma cell_ok_zero c i : zero_at c i -> cell_ok c i.
Proof. unfold zero_at, cell_ok. intros -> w [= <-]. reflexivity. Qed.

Lemma amp_ok_rd c j : cell_ok c j -> amp_ok (rd c j) = true.
Proof.
  unfold cell_ok, rd. intros H. destruct (ta_get c j) as [w|]; simpl.
  - by apply H.
  - reflexivity.
Qed.

Lemma sweep_cell_keep s k cp idx j :
  cell_ok cp.1 j -> cell_ok (sweep_cell s k cp idx).1 j.
Proof.
  destruct cp as [cur prev]. unfold sweep_cell. simpl.
  destruct (mask_at _ _); simpl; apply cell_ok_st32_keep;
    [reflexivity | apply fround_ok, clamp50_ok].
Qed.

Lemma sweep_cell_new s k cp idx : cell_ok (sweep_cell s k cp idx).1 idx.
Proof.
  destruct cp as [cur prev]. unfold sweep_cell.
  destruct (mask_at _ _); simpl; apply cell_ok_st32_new;
    [reflexivity | apply fround_ok, clamp50_ok].
Qed.

Lemma sweep_keep s k cp j : cell_ok cp.1 j -> cell_ok (sweep s k cp).1 j.
Proof.
  intros Hj. unfold sweep.
  apply (foldl_invariant (fun a => cell_ok a.1 j)); [done|].
  intros a y _ Ha.
  apply (foldl_invariant (fun a => cell_ok a.1 j)); [done|].
  intros a' x _ Ha'. by apply sweep_cell_keep.
Qed.

(** After a sweep every interior cell holds a clamped value. *)
Lemma sweep_interior s k cp x y :
  1 <= x < cols s - 1 -> 1 <= y < rows s - 1 ->
  cell_ok (sweep s k cp).1 (y * cols s + x).
Proof.
  intros Hx Hy. unfold sweep.
  apply (foldl_establish (fun a => cell_ok a.1 (y * cols s + x)) _ _ _ y).
  - by apply elem_of_zrange.
  - intros a.
    apply (foldl_establish (fun a => cell_ok a.1 (y * cols s + x)) _ _ _ x).
    + by apply elem_of_zrange.
    + intros a'. apply sweep_cell_new.
    + intros a' x' Ha'. by apply sweep_cell_keep.
  - intros a y' Ha.
    apply (foldl_invariant (fun a => cell_ok a.1 (y * cols s + x))); [done|].
    intros a' x' _ Ha'. by apply sweep_cell_keep.
Qed.

Lemma absorbing_keep s cur j :
  reflectiveBoundaries s = false ->
  cell_ok cur j -> cell_ok (applyBoundaryConditions s cur) j.
Proof.
  intros Hr Hj. unfold applyBoundaryConditions. rewrite Hr.
  apply (foldl_invariant (fun a => cell_ok a j)).
  - apply (foldl_invariant (fun a => cell_ok a j)); [done|].
    intros a x _ Ha. by apply cell_ok_st32_keep, cell_ok_st32_keep.
  - intros a y _ Ha. by apply cell_ok_st32_keep, cell_ok_st32_keep.
Qed.

(** Every index of the buffer is a cell [(x, y)] of the grid. *)
Lemma index_cell s i :
  0 <= cols s -> 0 <= i < cols s * rows s ->
  exists x y, 0 <= x < cols s /\ 0 <= y < rows s /\ i = getIndex s x y.
Proof.
  intros Hc0 Hi.
  assert (Hc : 0 < cols s).
  { destruct (Z.eq_dec (cols s) 0) as [E|E]; [rewrite E in Hi|]; lia. }
  exists (i mod cols s), (i / cols s).
  pose proof (Z.mod_pos_bound i (cols s) Hc).
  pose proof (Z.div_mod i (cols s) ltac:(lia)) as Hdm.
  assert (0 <= i / cols s) by (apply Z.div_pos; lia).
  assert (i / cols s < rows s) by (apply Z.div_lt_upper_bound; lia).
  unfold getIndex. repeat split; try lia.
Qed.

Lemma absorbing_all_ok s k cp i :
  reflectiveBoundaries s = false ->
  0 <= cols s -> Zlen cp.1 = cols s * rows s ->
  cell_ok (applyBoundaryConditions s (sweep s k cp).1) i.
Proof.
  intros Hr Hc0 Hlen.
  destruct (decide (0 <= i < cols s * rows s)) as [Hi|Hi].
  - destruct (index_cell s i Hc0 Hi) as (x & y & Hx & Hy & ->).
    destruct (decide (on_edge s x y)) as [He|He].
    + apply cell_ok_zero, absorbing_edges; try done. by rewrite sweep_Zlen.
    + apply absorbing_keep; [done|]. unfold getIndex.
      apply sweep_interior; unfold on_edge in He; lia.
  - intros w Hw. apply ta_get_inv in Hw.
    rewrite applyBoundaryConditions_Zlen, sweep_Zlen in Hw. lia.
Qed.

(** *** Reflective boundaries *)

Lemma getIndex_inj s x y x' y' :
  0 <= x < cols s -> 0 <= x' < cols s ->
  getIndex s x y = getIndex s x' y' -> x = x' /\ y = y'.
Proof.
  unfold getIndex. intros Hx Hx' Heq.
  assert (y = y') by nia. subst. lia.
Qed.

(** Storing a copy of a good cell. *)
Lemma cell_ok_copy c j :
  cell_ok c j -> amp_ok (fround (rd c j)) = true.
Proof. intros Hj. by apply fround_ok, amp_ok_rd. Qed.

Section Reflective.
Variables (s : WaveSimulation) (c0 : list float).
Hypothesis Hcols : 3 <= cols s.
Hypothesis Hrows : 3 <= rows s.
Hypothesis Hint : forall x y,
  1 <= x < cols s - 1 -> 1 <= y < rows s - 1 -> cell_ok c0 (getIndex s x y).

Local Abbreviation rows_pass := (reflect_rows s).
Local Abbreviation cols_pass := (reflect_cols s).

Lemma rows_pass_ok l :
  (forall x, x ∈ l -> 0 <= x < cols s) ->
  let c1 := foldl rows_pass c0 l in
  (forall x y, 1 <= x < cols s - 1 -> 1 <= y < rows s - 1 ->
     cell_ok c1 (getIndex s x y))
  /\ (forall x, x ∈ l -> 1 <= x < cols s - 1 ->
        cell_ok c1 (getIndex s x 0) /\ cell_ok c1 (getIndex s x (rows s - 1))).
Proof.
  intros Hl.
  apply (foldl_visited
           (fun done_ c =>
              (forall x y, 1 <= x < cols s - 1 -> 1 <= y < rows s - 1 ->
                 cell_ok c (getIndex s x y))
              /\ (forall x, x ∈ done_ -> 1 <= x < cols s - 1 ->
                    cell_ok c (getIndex s x 0)
                    /\ cell_ok c (getIndex s x (rows s - 1))))).
  - split; [exact Hint|]. intros x Hx. by apply elem_of_nil in Hx.
  - intros done_ b c Hb [Hin Hvis]. specialize (Hl b Hb).
    assert (Hne : forall x y x' y',
              0 <= x < cols s -> 0 <= x' < cols s -> (x, y) <> (x', y') ->
              getIndex s x y <> getIndex s x' y').
    { intros x y x' y' Hx Hx' Hd Heq.
      apply getIndex_inj in Heq as [-> ->]; done. }
    unfold reflect_rows. split.
    + intros x y Hx Hy.
      apply cell_ok_st32_other; [apply Hne; try lia; pair_ne|].
      apply cell_ok_st32_other; [apply Hne; try lia; pair_ne|].
      by apply Hin.
    + intros x Hx Hxi. destruct (decide (x = b)) as [->|Hxb].
      * assert (H1 : cell_ok (st32 c (getIndex s b 0) (rd c (getIndex s b 1)))
                       (getIndex s b 0)).
        { apply cell_ok_st32_new, cell_ok_copy, Hin; lia. }
        split.
        -- apply cell_ok_st32_other; [|exact H1].
           apply Hne; try lia. pair_ne.
        -- apply cell_ok_st32_new, cell_ok_copy.
           apply cell_ok_st32_other; [|apply Hin; lia].
           apply Hne; try lia. pair_ne.
      * apply elem_of_app in Hx as [Hx|Hx%list_elem_of_singleton]; [|done].
        destruct (Hvis x Hx Hxi) as [Ha Hb'].
        split; (apply cell_ok_st32_other;
                  [apply Hne; try lia; pair_ne|];
                apply cell_ok_st32_other;
                  [apply Hne; try lia; pair_ne|]); done.
Qed.

Lemma cols_pass_ok c1 l :
  (forall x y, 1 <= x < cols s - 1 -> 0 <= y < rows s ->
     cell_ok c1 (getIndex s x y)) ->
  (forall y, y ∈ l -> 0 <= y < rows s) ->
  let c2 := foldl cols_pass c1 l in
  (forall x y, 1 <= x < cols s - 1 -> 0 <= y < rows s ->
     cell_ok c2 (getIndex s x y))
  /\ (forall y, y ∈ l ->
        cell_ok c2 (getIndex s 0 y) /\ cell_ok c2 (getIndex s (cols s - 1) y)).
Proof.
  intros Hmid Hl.
  apply (foldl_visited
           (fun done_ c =>
              (forall x y, 1 <= x < cols s - 1 -> 0 <= y < rows s ->
                 cell_ok c (getIndex s x y))
              /\ (forall y, y ∈ done_ ->
                    cell_ok c (getIndex s 0 y)
                    /\ cell_ok c (getIndex s (cols s - 1) y)))).
  - split; [exact Hmid|]. intros y Hy. by apply elem_of_nil in Hy.
  - intros done_ b c Hb [Hm Hvis]. specialize (Hl b Hb).
    assert (Ha1 : amp_ok (fround (rd c (getIndex s 1 b))) = true)
      by (apply cell_ok_copy, Hm; lia).
    set (cA := st32 c (getIndex s 0 b) (rd c (getIndex s 1 b))).
    assert (Ha2 : amp_ok (fround (rd cA (getIndex s (cols s - 2) b))) = true).
    { apply cell_ok_copy. subst cA.
      apply cell_ok_st32_keep; [done|]. apply Hm; lia. }
    unfold reflect_cols. fold cA. split.
    + intros x y Hx Hy. subst cA.
      by apply cell_ok_st32_keep, cell_ok_st32_keep, Hm.
    + intros y [Hy|Hy%list_elem_of_singleton]%elem_of_app.
      * destruct (Hvis y Hy). subst cA.
        split; by apply cell_ok_st32_keep, cell_ok_st32_keep.
      * subst y. split.
        -- apply cell_ok_st32_keep; [done|]. subst cA.
           by apply cell_ok_st32_new.
        -- by apply cell_ok_st32_new.
Qed.

Lemma reflective_all_ok i :
  reflectiveBoundaries s = true ->
  Zlen c0 = cols s * rows s ->
  cell_ok (applyBoundaryConditions s c0) i.
Proof.
  intros Hr Hlen. unfold applyBoundaryConditions. rewrite Hr.
  change (cell_ok (foldl cols_pass (foldl rows_pass c0 (zrange 0 (cols s)))
                     (zrange 0 (rows s))) i).
  destruct (rows_pass_ok (zrange 0 (cols s))) as [Hin1 Hvis1].
  { intros x Hx. by apply elem_of_zrange in Hx. }
  destruct (cols_pass_ok (foldl rows_pass c0 (zrange 0 (cols s)))
              (zrange 0 (rows s))) as [Hmid Hvis2].
  { intros x y Hx Hy.
    destruct (decide (y = 0)) as [->|?];
      [apply Hvis1; [apply elem_of_zrange|]; lia|].
    destruct (decide (y = rows s - 1)) as [->|?];
      [apply Hvis1; [apply elem_of_zrange|]; lia|].
    apply Hin1; lia. }
  { intros y Hy. by apply elem_of_zrange in Hy. }
  destruct (decide (0 <= i < cols s * rows s)) as [Hi|Hi].
  - destruct (index_cell s i ltac:(lia) Hi) as (x & y & Hx & Hy & ->).
    destruct (decide (x = 0)) as [->|?];
      [apply Hvis2; by apply elem_of_zrange|].
    destruct (decide (x = cols s - 1)) as [->|?];
      [apply Hvis2; by apply elem_of_zrange|].
    apply Hmid; lia.
  - intros w Hw. apply ta_get_inv in Hw.
    assert (Hz : Zlen (foldl cols_pass (foldl rows_pass c0 (zrange 0 (cols s)))
                         (zrange 0 (rows s))) = Zlen c0).
    { rewrite !Zlen_foldl_st32; [done|..];
        intros; unfold reflect_rows, reflect_cols; by rewrite !Zlen_st32. }
    lia.
Qed.

End Reflective.

(** C4 (as amended).  On a grid with one slot per cell, after every [step]
    that returns and whose [waveSpeed * dt] is a number (at least one
    sub-step runs), every cell of [current] is NaN or lies in [-50, 50],
    provided the boundaries are absorbing or the grid has at least 3 columns
    and 3 rows. *)
Theorem amplitude_clamped_after_step (M : MathLib) (time : float)
  (s s' : WaveSimulation) (i : Z) (v : float) :
  grid_ok s -> 0 <= cols s ->
  reflectiveBoundaries s = false \/ (3 <= cols s /\ 3 <= rows s) ->
  subSteps s <> XNaN ->
  step M time s = Some s' ->
  ta_get (current s') i = Some v ->
  is_nan v = true \/ ((-50 <=? v)%float = true /\ (v <=? 50)%float = true).
Proof.
  intros Hok Hc0 Hmode Hnum Hstep Hget.
  assert (Hamp : amp_ok v = true).
  { destruct (step_last_substep M time s s' Hnum Hstep)
      as (s2 & d & -> & Hc & Hr & Hrefl & Hlen).
    rewrite stabilityGuard_cases in Hget.
    destruct (guard_trips _).
    - simpl in Hget. by apply ta_get_fill0 in Hget as ->.
    - rewrite update_energy_current, substep_current in Hget.
      match type of Hget with
      | ta_get ?c _ = _ => assert (Hcell : cell_ok c i)
      end; [|exact (Hcell v Hget)].
      assert (Hlen2 : Zlen (current s2) = cols s2 * rows s2)
        by (rewrite Hlen, Hc, Hr; exact Hok).
      destruct (reflectiveBoundaries s2) eqn:Eb.
      + destruct Hmode as [Hf|[H3c H3r]]; [congruence|].
        apply reflective_all_ok; rewrite ?sweep_Zlen, ?Hc, ?Hr; try done.
        * intros x y Hx Hy. unfold getIndex.
          apply sweep_interior; by rewrite ?Hc, ?Hr.
        * by rewrite <- Hc, <- Hr.
      + apply absorbing_all_ok; rewrite ?Hc; try done.
        by rewrite <- Hc. }
  unfold amp_ok in Hamp.
  apply orb_true_iff in Hamp as [?|[? ?]%andb_true_iff]; auto.
Qed.

Lemma amplitude_clamped_after_step_witness :
  exists s' v,
    step ref_math 10 sim_loud_3x3 = Some s'
    /\ ta_get (current s') 4 = Some v
    /\ (is_nan v = true
        \/ ((-50 <=? v)%float = true /\ (v <=? 50)%float = true)).
Proof.
  eexists _, _. split; [vm_compute; reflexivity|].
  split; [vm_compute; reflexivity|].
  eapply (amplitude_clamped_after_step ref_math 10 sim_loud_3x3 _ 4).
  - vm_compute. reflexivity.
  - vm_compute. discriminate.
  - left. reflexivity.
  - vm_compute. discriminate.
  - vm_compute. reflexivity.
  - vm_compute. reflexivity.
Defined.

(** C4, the claim as stated fails: a 2x2 grid has no interior cell, so with
    reflective boundaries nothing is ever clamped; one source of amplitude
    100 puts about 84.1 into every cell in one step. *)
Lemma amplitude_bound_counterexample :
  exists s' v,
    step ref_math 10 sim_loud_2x2 = Some s'
    /\ ta_get (current s') 3 = Some v
    /\ is_nan v = false
    /\ (v <=? 50)%float = false.
Proof.
  eexists _, _. split; [vm_compute; reflexivity|].
  repeat split; vm_compute; reflexivity.
Qed.

(* ===================================================================== *)
(** ** The stability guard's sample *)
(* ===================================================================== *)








(** The same through the public interface alone, and also against C4: an
    impulse of radius 0 has [sigma = 0], so the Gaussian weight is
    [exp(-0 / 0) = exp(NaN) = NaN]. *)
Lemma impulse_radius_zero_injects_nan :
  exists s0 s' w,
    applyImpulse ref_math 6 58 0 3 sim_3x16 = Some s0
    /\ step ref_math 0 s0 = Some s'
    /\ ta_get (current s') 43 = Some w
    /\ is_nan w = true.
Proof.
  eexists _, _, _. split; [vm_compute; reflexivity|].
  split; [vm_compute; reflexivity|].
  split; vm_compute; reflexivity.
Qed.

(* ===================================================================== *)
(** ** Line sampling *)
(* ===================================================================== *)

Section StoreLoop.
Variable f : Z -> float.
Local Abbreviation store := (fun (b : list float) (j : Z) => st32 b j (f j)).

Lemma store_loop_Zlen l buf : Zlen (foldl store buf l) = Zlen buf.
Proof. apply Zlen_foldl_st32. intros. apply Zlen_st32. Qed.



End StoreLoop.






(** With two samples and both endpoints in the field: [49 * (1 / 49)] is
    just below 1 and [98 * (1 / 49)] just below 2, so the probe from
    (49, 49) to (98, 98) reads the cells (0, 0) and (1, 1), while [getValue]
    divides and reads (1, 1) and (2, 2). *)
Lemma sampleLine_reciprocal_rounding :
  (sampleLine 49 49 98 98 2 sim_bump_49).2 = [0; 3]%float
  /\ getValue 49 49 sim_bump_49 = Some 3%float
  /\ getValue 98 98 sim_bump_49 = Some 0%float.
Proof. repeat split; vm_compute; reflexivity. Qed.

(** [| 0] truncates towards zero: the point (-2, 6) lies left of the grid,
    [getValue] gives 0 there, and the probe reads column 0. *)
Lemma sampleLine_truncates_towards_zero :
  exists v,
    (sampleLine (-2) 6 6 6 2 sim_reflected_3x3).2 = [v; v]
    /\ is_zero v = false
    /\ getValue (-2) 6 sim_reflected_3x3 = Some 0%float.
Proof.
  eexists. split; [vm_compute; reflexivity|].
  split; vm_compute; reflexivity.
Qed.

(* ===================================================================== *)
(** ** Moving sources *)
(* ===================================================================== *)

Lemma advance_dt s1 s2 src : dt s1 = dt s2 -> advance s1 src = advance s2 src.
Proof. unfold advance. by intros ->. Qed.

Lemma emit_sources_snd M s time cur srcs :
  (emit_sources M s time cur srcs).2
  = map (fun src => if WaveSource.active src then advance s src else src) srcs.
Proof.
  revert cur. induction srcs as [|src rest IH]; intros cur; [done|].
  simpl. destruct (WaveSource.active src); simpl.
  - specialize (IH (inject M s time cur src)).
    destruct (emit_sources _ _ _ _ _) as [c r]. simpl in *. by rewrite IH.
  - specialize (IH cur).
    destruct (emit_sources _ _ _ _ _) as [c r]. simpl in *. by rewrite IH.
Qed.

Lemma step_sources M time s s' :
  step M time s = Some s' -> sources s' = map (move_source M s) (sources s).
Proof.
  intros (s1 & H1 & ->)%step_inv.
  apply step_until_guard_inv in H1 as (n & _ & ->).
  assert (Hg : forall t, sources (stabilityGuard t) = sources t).
  { intros t. rewrite stabilityGuard_cases. by destruct (guard_trips t). }
  rewrite Hg.
  destruct (update_energy_shape
              (N.iter n (substep (dt s / xint_to_float (subSteps s)))
                 (step_prepare M time s))) as [em ->].
  destruct (iter_substep_fields n (dt s / xint_to_float (subSteps s))
              (step_prepare M time s)) as (c & p & ->).
  simpl. unfold step_prepare.
  pose proof (emit_sources_snd M
                (set_sources (map (orbit_update M) (sources (rebuildWallMask M s)))
                   (rebuildWallMask M s)) time
                (current (rebuildWallMask M s))
                (map (orbit_update M) (sources (rebuildWallMask M s)))) as H.
  simpl in *. destruct (emit_sources _ _ _ _ _) as [cur srcs]. simpl in *.
  rewrite H. rewrite <- list_fmap_compose.
  destruct (rebuildWallMask_shape M s) as [m Hm]. rewrite Hm. simpl.
  apply list_fmap_ext. intros _ src _. unfold move_source. simpl.
  destruct (WaveSource.active (orbit_update M src)); [|done].
  by apply advance_dt.
Qed.

(** C5.  Every source is moved by [move_source].  For an orbital source the
    first loop puts it at [newX = centre + radius * cos(angle)] and sets
    [vx = 0.1 * (newX - x)].  When the orbit centre's x is truthy the second
    loop leaves that position alone; when it is 0 (falsy), the second loop
    takes the source for a non-orbital one and adds [vx * dt] once more. *)
Theorem orbit_centre_zero_advances_twice (M : MathLib) (time : float)
  (s s' : WaveSimulation) :
  step M time s = Some s' ->
  sources s' = map (move_source M s) (sources s)
  /\ forall src c r sp,
       WaveSource.orbitCenterX src = Some c ->
       WaveSource.orbitRadius src = Some r ->
       WaveSource.orbitSpeed src = Some sp ->
       WaveSource.active src = true ->
       let angle := (default 0%float (WaveSource.orbitAngle src) + sp)%float in
       let newX := (c + r * Math_cos M angle)%float in
       let vx := ((newX - WaveSource.x src) * 0.1)%float in
       (js_truthy c = true -> WaveSource.x (move_source M s src) = newX)
       /\ (js_truthy c = false -> js_truthy vx = true ->
           WaveSource.x (move_source M s src) = (newX + vx * dt s)%float).
Proof.
  intros Hstep. split; [by eapply step_sources|].
  intros src c r sp Hc Hr Hsp Hact angle newX vx.
  unfold move_source, orbit_update. rewrite Hc, Hr, Hsp. simpl.
  rewrite Hact. unfold advance. simpl.
  fold angle. fold newX. fold vx.
  split.
  - intros ->. reflexivity.
  - intros -> ->. reflexivity.
Qed.

Lemma orbit_centre_zero_advances_twice_witness :
  let newX := (0 + 5 * Math_cos ref_math (0 + 0.05))%float in
  let vx := ((newX - 5) * 0.1)%float in
  exists s' src',
    step ref_math 0 sim_orbit_left_edge = Some s'
    /\ sources s' = [src']
    /\ WaveSource.x src' = (newX + vx * dt sim_orbit_left_edge)%float
    /\ (WaveSource.x src' =? newX)%float = false.
Proof.
  intros newX vx.
  destruct (step ref_math 0 sim_orbit_left_edge) as [s'|] eqn:Hstep;
    [|vm_compute in Hstep; discriminate].
  destruct (orbit_centre_zero_advances_twice ref_math 0 sim_orbit_left_edge
              s' Hstep) as [Hsrc Hx].
  set (src := WaveSource.mk 5 10 0.05 1 0 true None None (Some 0%float)
                (Some 10%float) (Some 5%float) (Some 0.05%float)
                (Some 0%float)).
  exists s', (move_source ref_math sim_orbit_left_edge src).
  split; [reflexivity|]. split; [rewrite Hsrc; vm_compute; reflexivity|].
  split.
  - destruct (Hx src 0%float 5%float 0.05%float eq_refl eq_refl eq_refl
                eq_refl) as [_ Hbug].
    apply Hbug; vm_compute; reflexivity.
  - vm_compute. reflexivity.
Defined.

(* ===================================================================== *)
(** ** Grids without cells *)
(* ===================================================================== *)

Lemma scan_until_hit cur l : (scan_until cur l).2 = existsb (corrupt cur) l.
Proof.
  induction l as [|i l IH]; [done|]. simpl.
  destruct (corrupt cur i); [done|].
  by destruct (scan_until cur l).
Qed.


Lemma sweep_cell_Zlen2 s k cp idx :
  Zlen (sweep_cell s k cp idx).2 = Zlen cp.2.
Proof.
  destruct cp as [cur prev]. unfold sweep_cell.
  destruct (mask_at _ _); simpl; apply Zlen_st32.
Qed.

Lemma sweep_Zlen2 s k cp : Zlen (sweep s k cp).2 = Zlen cp.2.
Proof.
  unfold sweep.
  apply (foldl_invariant (fun a => Zlen a.2 = Zlen cp.2)); [done|].
  intros a y _ Ha.
  apply (foldl_invariant (fun a => Zlen a.2 = Zlen cp.2)); [done|].
  intros a' x _ Ha'. by rewrite sweep_cell_Zlen2.
Qed.

Lemma substep_previous_Zlen d s :
  Zlen (previous (substep d s)) = Zlen (previous s).
Proof.
  unfold substep.
  pose proof (sweep_Zlen2 s (waveSpeed s * waveSpeed s * (d * d))%float
                (current s, previous s)) as H.
  by destruct (sweep _ _ _).
Qed.

Lemma iter_substep_previous_Zlen n d s :
  Zlen (previous (N.iter n (substep d) s)) = Zlen (previous s).
Proof.
  induction n as [|n IH] using N.peano_ind; [done|].
  by rewrite N.iter_succ, substep_previous_Zlen.
Qed.

Lemma step_prepare_previous M time s :
  previous (step_prepare M time s) = previous s.
Proof.
  destruct (step_prepare_shape M time s) as (c & srcs & ->).
  by destruct (rebuildWallMask_shape M s) as [m ->].
Qed.



Lemma impulse_cell_Zlen M s cx cy r amp sigma2 c dy dx :
  Zlen (impulse_cell M s cx cy r amp sigma2 c dy dx) = Zlen c.
Proof.
  unfold impulse_cell.
  destruct (_ || _); [done|]. destruct (_ <? _)%float; [done|].
  destruct (x_add cx dx), (x_add cy dy); try done. apply Zlen_st32.
Qed.

Lemma applyImpulse_field M px py radius amp s s' :
  applyImpulse M px py radius amp s = Some s' ->
  Zlen (current s') = Zlen (current s) /\ previous s' = previous s.
Proof.
  unfold applyImpulse.
  destruct (Math_ceil (radius / cellSize s)) as [|[]|r]; try done;
    try (by intros [= <-]).
  intros [= <-]. simpl. split; [|done].
  apply (foldl_invariant (fun a => Zlen a = Zlen (current s))); [done|].
  intros a dy _ Ha.
  apply (foldl_invariant (fun a => Zlen a = Zlen (current s))); [done|].
  intros a' dx _ Ha'. by rewrite impulse_cell_Zlen.
Qed.






(* ===================================================================== *)
(** * Further properties of the engine *)
(* ===================================================================== *)

(** ** The cell index *)

(** X1.  [getIndex] numbers the cells row by row: on a grid whose [cols] is
    not negative, a cell inside the grid gets an index below [cols * rows],
    two cells of the grid never share an index, and every index below
    [cols * rows] is the index of a cell.  The index is not checked against
    the row: the column [cols] of row [y] is the first cell of row
    [y + 1]. *)
Theorem getIndex_row_major (s : WaveSimulation) :
  0 <= cols s ->
  (forall x y, 0 <= x < cols s -> 0 <= y < rows s ->
     0 <= getIndex s x y < cols s * rows s)
  /\ (forall x y x' y', 0 <= x < cols s -> 0 <= x' < cols s ->
        getIndex s x y = getIndex s x' y' -> x = x' /\ y = y')
  /\ (forall i, 0 <= i < cols s * rows s ->
        exists x y, 0 <= x < cols s /\ 0 <= y < rows s /\ i = getIndex s x y)
  /\ (forall y, getIndex s (cols s) y = getIndex s 0 (y + 1)).
Proof.
  intros Hc. split; [|split; [|split]].
  - intros x y Hx Hy. unfold getIndex. nia.
  - intros x y x' y' Hx Hx'. by apply getIndex_inj.
  - intros i Hi. by apply index_cell.
  - intros y. unfold getIndex. lia.
Qed.

Lemma getIndex_row_major_witness :
  0 <= getIndex sim_3x3 1 2 < 9
  /\ getIndex sim_3x3 3 0 = getIndex sim_3x3 0 1.
Proof.
  destruct (getIndex_row_major sim_3x3 ltac:(vm_compute; discriminate))
    as (Hin & _ & _ & Hwrap).
  split.
  - apply (Hin 1 2); split; vm_compute; (discriminate || reflexivity).
  - apply (Hwrap 0).
Defined.

(** ** Buffer shapes *)

Lemma Zlen_fill0 a : Zlen (fill0 a) = Zlen a.
Proof. unfold Zlen. by rewrite fill0_length. Qed.

Lemma Zlen_fill0_u8 a : Zlen (fill0_u8 a) = Zlen a.
Proof. unfold Zlen, fill0_u8. by rewrite length_replicate. Qed.

Lemma Zlen_ta_set {A} (a : list A) i v : Zlen (ta_set a i v) = Zlen a.
Proof. unfold Zlen. by rewrite ta_set_length. Qed.

Lemma scan_walls_Zlen M s m : Zlen (scan_walls M s m) = Zlen m.
Proof.
  unfold scan_walls.
  apply (foldl_invariant (fun a => Zlen a = Zlen m)); [done|].
  intros a y _ Ha.
  apply (foldl_invariant (fun a => Zlen a = Zlen m)); [done|].
  intros a' x _ Ha'. destruct (isInsideWall M s x y); [|done].
  by rewrite Zlen_ta_set.
Qed.

Lemma dims_rebuildWallMask M s : dims (rebuildWallMask M s) = dims s.
Proof.
  unfold rebuildWallMask. destruct (negb (wallMaskDirty s)); [done|].
  destruct (walls s); unfold dims; simpl;
    by rewrite ?scan_walls_Zlen, Zlen_fill0_u8.
Qed.

Lemma dims_step_prepare M time s : dims (step_prepare M time s) = dims s.
Proof.
  rewrite <- (dims_rebuildWallMask M s).
  pose proof (step_prepare_Zlen M time s) as Hc.
  destruct (step_prepare_shape M time s) as (c & srcs & Hs).
  rewrite Hs in Hc |- *. unfold dims. simpl in *. rewrite Hc.
  by destruct (rebuildWallMask_shape M s) as [m ->].
Qed.

Lemma dims_substep d s : dims (substep d s) = dims s.
Proof.
  pose proof (substep_Zlen d s) as Hc.
  pose proof (substep_previous_Zlen d s) as Hp.
  destruct (substep_fields d s) as (c & p & Hs).
  rewrite Hs in Hc, Hp |- *. unfold dims. simpl in *. by rewrite Hc, Hp.
Qed.

Lemma dims_iter_substep n d s : dims (N.iter n (substep d) s) = dims s.
Proof.
  induction n as [|n IH] using N.peano_ind; [done|].
  by rewrite N.iter_succ, dims_substep.
Qed.

Lemma dims_update_energy s : dims (update_energy s) = dims s.
Proof.
  unfold update_energy. destruct (energyTrailEnabled s); [|done].
  unfold dims. simpl. rewrite Zlen_foldl_st32; [done|].
  intros. apply Zlen_st32.
Qed.

Lemma dims_stabilityGuard s : dims (stabilityGuard s) = dims s.
Proof.
  rewrite stabilityGuard_cases. destruct (guard_trips s); [|done].
  unfold dims. simpl. by rewrite !Zlen_fill0.
Qed.

Lemma dims_step M time s s' : step M time s = Some s' -> dims s' = dims s.
Proof.
  intros (s1 & H1 & ->)%step_inv.
  apply step_until_guard_inv in H1 as (n & _ & ->).
  by rewrite dims_stabilityGuard, dims_update_energy, dims_iter_substep,
    dims_step_prepare.
Qed.

Lemma dims_applyImpulse M px py radius amp s s' :
  applyImpulse M px py radius amp s = Some s' -> dims s' = dims s.
Proof.
  intros H. pose proof (applyImpulse_field M _ _ _ _ _ _ H) as [Hc _].
  unfold applyImpulse in H.
  destruct (Math_ceil _) as [|[]|r]; try done; try (by injection H as <-).
  injection H as <-. unfold dims in *. simpl in *. by rewrite Hc.
Qed.

(** X2.  The constructor allocates the five buffers ([current],
    [previous], [velocity], [energyMap], [wallMask]) with [cols * rows]
    slots each, and no public method changes [cols], [rows] or the length
    of one of them: [addSource], [addOrbitalSource], [addWall], [clear],
    [step], [applyImpulse] and [sampleLine] all keep them. *)
Theorem buffer_shapes_invariant (M : MathLib) (s : WaveSimulation) :
  (forall w h cs s0,
     new_WaveSimulation w h cs = Some s0 ->
     0 <= cols s0 * rows s0
     /\ dims s0 = (cols s0, rows s0, replicate 5 (cols s0 * rows s0)))
  /\ (forall px py freq amp, dims (addSource px py freq amp s) = dims s)
  /\ (forall cx cy r sp freq amp a0,
        dims (addOrbitalSource M cx cy r sp freq amp a0 s) = dims s)
  /\ (forall px1 py1 px2 py2 slits,
        dims (addWall px1 py1 px2 py2 slits s) = dims s)
  /\ dims (clear s) = dims s
  /\ (forall time s', step M time s = Some s' -> dims s' = dims s)
  /\ (forall px py radius amp s',
        applyImpulse M px py radius amp s = Some s' -> dims s' = dims s)
  /\ (forall px1 py1 px2 py2 n,
        dims (sampleLine px1 py1 px2 py2 n s).1 = dims s).
Proof.
  split; [|split; [|split; [|split; [|split; [|split; [|split]]]]]].
  - intros w h cs s0. unfold new_WaveSimulation.
    destruct (Math_ceil (w / cs)) as [| |c]; try done.
    destruct (Math_ceil (h / cs)) as [| |r]; try done.
    destruct (0 <=? c * r) eqn:E; [|done]. intros [= <-].
    unfold dims, Zlen. simpl. rewrite !length_replicate.
    split; [lia|]. by rewrite Z2Nat.id by lia.
  - done.
  - done.
  - done.
  - unfold dims, clear. simpl. by rewrite !Zlen_fill0, Zlen_fill0_u8.
  - intros time s'. apply dims_step.
  - intros px py radius amp s'. apply dims_applyImpulse.
  - done.
Qed.

Lemma buffer_shapes_invariant_witness :
  exists s',
    step ref_math 0 sim_corner_source = Some s'
    /\ dims s' = (3, 3, [9; 9; 9; 9; 9]).
Proof.
  destruct (step ref_math 0 sim_corner_source) as [s'|] eqn:Hs;
    [|vm_compute in Hs; discriminate].
  exists s'. split; [reflexivity|].
  destruct (buffer_shapes_invariant ref_math sim_corner_source)
    as (_ & _ & _ & _ & _ & Hstep & _).
  rewrite (Hstep 0%float s' Hs). vm_compute. reflexivity.
Defined.

(** ** What a step leaves alone *)

Lemma rebuildWallMask_clean M s : wallMaskDirty (rebuildWallMask M s) = false.
Proof.
  unfold rebuildWallMask. destruct (wallMaskDirty s) eqn:E; simpl; [|done].
  by destruct (walls s).
Qed.

Lemma rebuildWallMask_skip M s :
  wallMaskDirty s = false -> rebuildWallMask M s = s.
Proof. unfold rebuildWallMask. by intros ->. Qed.

Lemma step_until_guard_shape M time s s1 :
  step_until_guard M time s = Some s1 ->
  exists c p em srcs,
    s1 = set_energyMap em (set_sources srcs
           (set_current c (set_previous p (rebuildWallMask M s))))
    /\ (energyTrailEnabled s = false -> em = energyMap s).
Proof.
  intros (n & _ & ->)%step_until_guard_inv.
  destruct (step_prepare_shape M time s) as (cur & srcs & Hp).
  destruct (iter_substep_fields n (dt s / xint_to_float (subSteps s))
              (step_prepare M time s)) as (c & p & Hi).
  rewrite Hi, Hp.
  destruct (rebuildWallMask_shape M s) as [m Hm].
  unfold update_energy. simpl.
  replace (energyTrailEnabled (rebuildWallMask M s))
    with (energyTrailEnabled s) by (by rewrite Hm).
  destruct (energyTrailEnabled s) eqn:E.
  - eexists c, p, _, srcs. split; [reflexivity | done].
  - exists c, p, (energyMap s), srcs. split; [|done].
    rewrite Hm. reflexivity.
Qed.

(** X3.  What [step] leaves alone.  It changes neither the configuration
    (sizes, speed, damping, time step, boundary mode, trail settings) nor
    the walls nor the probe buffer; the mask is clean afterwards, and it is
    the same array contents when it was clean before; the energy map is
    untouched when the trail is disabled; and [velocity], which the update
    never writes, is either what it was or zero-filled by the guard. *)
Theorem step_frame (M : MathLib) (time : float) (s s' : WaveSimulation) :
  step M time s = Some s' ->
  config s' = config s
  /\ walls s' = walls s
  /\ sampleBuffer s' = sampleBuffer s
  /\ wallMaskDirty s' = false
  /\ (wallMaskDirty s = false -> wallMask s' = wallMask s)
  /\ (energyTrailEnabled s = false -> energyMap s' = energyMap s)
  /\ (velocity s' = velocity s \/ velocity s' = fill0 (velocity s)).
Proof.
  intros (s1 & H1 & ->)%step_inv.
  apply step_until_guard_shape in H1 as (c & p & em & srcs & -> & Hem).
  pose proof (rebuildWallMask_clean M s) as Hclean.
  assert (Hmask : wallMaskDirty s = false ->
                  wallMask (rebuildWallMask M s) = wallMask s).
  { intros Hd. by rewrite rebuildWallMask_skip. }
  destruct (rebuildWallMask_shape M s) as [m Hm].
  set (t := rebuildWallMask M s) in *.
  assert (Hcfg : config t = config s) by (by rewrite Hm).
  assert (Hw : walls t = walls s) by (by rewrite Hm).
  assert (Hsb : sampleBuffer t = sampleBuffer s) by (by rewrite Hm).
  assert (Hv : velocity t = velocity s) by (by rewrite Hm).
  clearbody t. clear Hm.
  rewrite stabilityGuard_cases.
  destruct (guard_trips _); simpl; rewrite ?Hv;
    (split; [exact Hcfg|]); repeat split; auto.
Qed.

Lemma step_frame_witness :
  exists s',
    step ref_math 0 sim_loud_3x3 = Some s'
    /\ config s' = config sim_loud_3x3 /\ wallMaskDirty s' = false.
Proof.
  destruct (step ref_math 0 sim_loud_3x3) as [s'|] eqn:Hs;
    [|vm_compute in Hs; discriminate].
  exists s'. split; [reflexivity|].
  destruct (step_frame ref_math 0 sim_loud_3x3 s' Hs) as (Hc & _ & _ & Hd & _).
  by split.
Defined.

(** ** The obstacle mask *)

(** A loop that reaches an item [b] establishes what the body establishes
    there, under an invariant [I] of the loop, if later iterations keep it. *)
Lemma foldl_reach {A B} (I Q : A -> Prop) (f : A -> B -> A) (l : list B) a b :
  b ∈ l -> I a ->
  (forall a' b', b' ∈ l -> I a' -> I (f a' b')) ->
  (forall a', I a' -> Q (f a' b)) ->
  (forall a' b', b' ∈ l -> I a' -> Q a' -> Q (f a' b')) ->
  Q (foldl f a l).
Proof.
  intros Hb HI Hinv Hnew Hkeep.
  cut (I (foldl f a l) /\ (b ∈ l -> Q (foldl f a l))); [intros [_ H]; auto|].
  apply (foldl_visited (fun done_ a' => I a' /\ (b ∈ done_ -> Q a'))).
  - split; [done|]. intros H. by apply elem_of_nil in H.
  - intros done_ b' a' Hb' [Ha' Hq]. split; [by apply Hinv|].
    intros [H|H%list_elem_of_singleton]%elem_of_app.
    + apply Hkeep; auto.
    + subst b'. by apply Hnew.
Qed.

Section Scan.
Variables (M : MathLib) (s : WaveSimulation) (x0 y0 : Z).
Hypothesis Hx0 : 0 <= x0 < cols s.
Hypothesis Hy0 : 0 <= y0 < rows s.

Local Abbreviation idx0 := (y0 * cols s + x0).
Local Abbreviation body :=
  (fun y (m : list Z) x =>
     if isInsideWall M s x y then ta_set m (y * cols s + x) 1 else m).

Lemma scan_body_keep1 m x y :
  ta_get m idx0 = Some 1 -> ta_get (body y m x) idx0 = Some 1.
Proof.
  intros H. simpl. destruct (isInsideWall M s x y); [|done].
  destruct (decide (y * cols s + x = idx0)) as [->|Hne].
  - apply ta_get_set_eq. by eapply ta_get_inv.
  - by rewrite ta_get_set_ne.
Qed.

Lemma scan_body_other m x y v :
  0 <= x < cols s -> (x, y) <> (x0, y0) ->
  ta_get m idx0 = Some v -> ta_get (body y m x) idx0 = Some v.
Proof.
  intros Hx Hne H. simpl. destruct (isInsideWall M s x y); [|done].
  rewrite ta_get_set_ne; [done|]. intros Heq.
  apply (getIndex_inj s x y x0 y0) in Heq as [-> ->]; done.
Qed.

Lemma scan_walls_inside m :
  0 <= idx0 < Zlen m -> isInsideWall M s x0 y0 = true ->
  ta_get (scan_walls M s m) idx0 = Some 1.
Proof.
  intros Hidx Hin. unfold scan_walls.
  apply (foldl_reach (fun a => 0 <= idx0 < Zlen a)
           (fun a => ta_get a idx0 = Some 1) _ _ _ y0).
  - by apply elem_of_zrange.
  - done.
  - intros a y _ Ha.
    apply (foldl_invariant (fun a' => 0 <= idx0 < Zlen a')); [done|].
    intros a' x _ Ha'. destruct (isInsideWall M s x y); [|done].
    by rewrite Zlen_ta_set.
  - intros a Ha.
    apply (foldl_reach (fun a => 0 <= idx0 < Zlen a)
             (fun a => ta_get a idx0 = Some 1) _ _ _ x0).
    + by apply elem_of_zrange.
    + done.
    + intros a' x _ Ha'. destruct (isInsideWall M s x y0); [|done].
      by rewrite Zlen_ta_set.
    + intros a' Ha'. rewrite Hin. by apply ta_get_set_eq.
    + intros a' x _ _ Hq. by apply scan_body_keep1.
  - intros a y _ _ Hq.
    apply (foldl_invariant (fun a' => ta_get a' idx0 = Some 1)); [done|].
    intros a' x _ Hq'. by apply scan_body_keep1.
Qed.

Lemma scan_walls_outside m v :
  ta_get m idx0 = Some v -> isInsideWall M s x0 y0 = false ->
  ta_get (scan_walls M s m) idx0 = Some v.
Proof.
  intros Hv Hout. unfold scan_walls.
  apply (foldl_invariant (fun a => ta_get a idx0 = Some v)); [done|].
  intros a y _ Ha.
  apply (foldl_invariant (fun a' => ta_get a' idx0 = Some v)); [done|].
  intros a' x Hx%elem_of_zrange Ha'.
  destruct (decide ((x, y) = (x0, y0))) as [[= -> ->]|Hne].
  - by rewrite Hout.
  - by apply scan_body_other.
Qed.

End Scan.

Lemma step_wallMask M time s s' :
  step M time s = Some s' -> wallMask s' = wallMask (rebuildWallMask M s).
Proof.
  intros (c & p & v & em & srcs & ->)%step_shape. reflexivity.
Qed.

(** X4.  [rebuildWallMask] on a dirty mask of [cols * rows] slots stores,
    for every cell of the grid, 1 when [isInsideWall] holds for the cell
    and 0 otherwise; on a clean mask it does nothing.  It leaves the mask
    clean, so a second call changes nothing, and the mask after a [step]
    is the rebuilt one. *)
Theorem rebuildWallMask_marks_walls (M : MathLib) (s : WaveSimulation)
  (x y : Z) :
  Zlen (wallMask s) = cols s * rows s ->
  0 <= x < cols s -> 0 <= y < rows s ->
  let s1 := rebuildWallMask M s in
  (wallMaskDirty s = true ->
   ta_get (wallMask s1) (getIndex s x y)
   = Some (if isInsideWall M s x y then 1 else 0))
  /\ (wallMaskDirty s = false -> s1 = s)
  /\ wallMaskDirty s1 = false
  /\ rebuildWallMask M s1 = s1
  /\ (forall time s', step M time s = Some s' -> wallMask s' = wallMask s1).
Proof.
  intros Hlen Hx Hy s1. subst s1.
  assert (Hidx : 0 <= y * cols s + x < cols s * rows s) by nia.
  assert (Hclean : wallMaskDirty (rebuildWallMask M s) = false).
  { unfold rebuildWallMask. destruct (wallMaskDirty s) eqn:E; simpl; [|done].
    by destruct (walls s). }
  split; [|split; [|split; [|split]]].
  - intros Hd. rewrite (rebuildWallMask_dirty M s Hd). unfold getIndex.
    assert (Hz : ta_get (fill0_u8 (wallMask s)) (y * cols s + x) = Some 0).
    { unfold ta_get, fill0_u8. rewrite decide_True by lia.
      apply lookup_replicate_2. unfold Zlen in Hlen. lia. }
    cbn [wallMask set_wallMask].
    destruct (walls s) as [|w ws] eqn:Ew.
    + unfold isInsideWall. by rewrite Ew.
    + destruct (isInsideWall M s x y) eqn:Hin.
      * apply scan_walls_inside; try done.
        unfold Zlen, fill0_u8. rewrite length_replicate.
        unfold Zlen in Hlen. lia.
      * by apply scan_walls_outside.
  - unfold rebuildWallMask. by intros ->.
  - exact Hclean.
  - unfold rebuildWallMask at 1. by rewrite Hclean.
  - intros time s'. apply step_wallMask.
Qed.

Lemma rebuildWallMask_marks_walls_witness :
  let s := addWall 4 0 4 12 None sim_3x3 in
  ta_get (wallMask (rebuildWallMask ref_math s)) (getIndex s 1 1) = Some 1
  /\ ta_get (wallMask (rebuildWallMask ref_math s)) (getIndex s 2 1) = Some 0.
Proof.
  intros s.
  assert (Hlen : Zlen (wallMask s) = cols s * rows s) by reflexivity.
  split.
  - destruct (rebuildWallMask_marks_walls ref_math s 1 1 Hlen) as [H _];
      [split; vm_compute; (discriminate || reflexivity)..|].
    apply (H eq_refl).
  - destruct (rebuildWallMask_marks_walls ref_math s 2 1 Hlen) as [H _];
      [split; vm_compute; (discriminate || reflexivity)..|].
    apply (H eq_refl).
Defined.

(** ** The order of the walls *)

Lemma isInsideWall_in_app M ws ws' fx fy :
  isInsideWall_in M (ws ++ ws') fx fy
  = if existsb (isPointOnWall M fx fy) ws then isInsideWall_in M ws fx fy
    else isInsideWall_in M ws' fx fy.
Proof.
  induction ws as [|w ws IH]; [done|]. simpl.
  by destruct (isPointOnWall M fx fy w).
Qed.

Lemma isInsideWall_in_hit M ws fx fy :
  isInsideWall_in M ws fx fy = true ->
  existsb (isPointOnWall M fx fy) ws = true.
Proof.
  induction ws as [|w ws IH]; [done|]. simpl.
  by destruct (isPointOnWall M fx fy w).
Qed.

(** X5.  [isInsideWall] answers with the first wall, in insertion order,
    whose segment is within 1.5 cells of the point.  So a wall added with
    [addWall] does not change the answer at a point where an older wall is
    that near (its slits cannot open an older wall, and it cannot close an
    older wall's slit); where no older wall is near, the new wall alone
    decides; and a blocked point stays blocked. *)
Theorem first_wall_decides (M : MathLib) (s : WaveSimulation)
  (px1 py1 px2 py2 : float) (slits : option (list (float * float)))
  (x y : Z) :
  let s' := addWall px1 py1 px2 py2 slits s in
  let near := existsb (isPointOnWall M (Z_to_float x) (Z_to_float y)) in
  (near (walls s) = true -> isInsideWall M s' x y = isInsideWall M s x y)
  /\ (near (walls s) = false ->
      isInsideWall M s' x y
      = isInsideWall_in M
          [Wall.mk (px1 / cellSize s) (py1 / cellSize s)
             (px2 / cellSize s) (py2 / cellSize s) slits]
          (Z_to_float x) (Z_to_float y))
  /\ (isInsideWall M s x y = true -> isInsideWall M s' x y = true).
Proof.
  intros s' near. subst s' near. unfold isInsideWall, addWall. simpl.
  rewrite isInsideWall_in_app.
  split; [|split].
  - by intros ->.
  - by intros ->.
  - intros H. by rewrite (isInsideWall_in_hit _ _ _ _ H).
Qed.

Lemma first_wall_decides_witness :
  let s := addWall 4 0 4 12 (Some [(0.3, 0.4)%float]) sim_3x3 in
  isInsideWall ref_math s 1 1 = false
  /\ isInsideWall ref_math (addWall 0 4 12 4 None s) 1 1 = false
  /\ isInsideWall ref_math (addWall 0 4 12 4 None sim_3x3) 1 1 = true.
Proof.
  intros s.
  destruct (first_wall_decides ref_math s 0 4 12 4 None 1 1) as [Hnear _].
  split; [vm_compute; reflexivity|]. split; [|vm_compute; reflexivity].
  rewrite Hnear; vm_compute; reflexivity.
Defined.

(** ** Walls block the wave *)

Lemma st32_other c i j v : i <> j -> ta_get (st32 c i v) j = ta_get c j.
Proof. intros Hne. unfold st32. by rewrite ta_get_set_ne. Qed.

Lemma getIndex_ne s x y x' y' :
  0 <= x < cols s -> 0 <= x' < cols s -> (x, y) <> (x', y') ->
  getIndex s x y <> getIndex s x' y'.
Proof.
  intros Hx Hx' Hd Heq. apply getIndex_inj in Heq as [-> ->]; done.
Qed.

(** The boundary pass writes edge cells only. *)
Lemma applyBoundaryConditions_interior s cur x y :
  1 <= x < cols s - 1 -> 1 <= y < rows s - 1 ->
  ta_get (applyBoundaryConditions s cur) (getIndex s x y)
  = ta_get cur (getIndex s x y).
Proof.
  intros Hx Hy. unfold applyBoundaryConditions.
  destruct (reflectiveBoundaries s).
  - apply (foldl_invariant
             (fun c => ta_get c (getIndex s x y) = ta_get cur (getIndex s x y))).
    + apply (foldl_invariant
               (fun c => ta_get c (getIndex s x y) = ta_get cur (getIndex s x y)));
        [done|].
      intros c b Hb%elem_of_zrange Hc.
      rewrite !st32_other; [done|..]; apply getIndex_ne; try lia; pair_ne.
    + intros c b Hb%elem_of_zrange Hc.
      rewrite !st32_other; [done|..]; apply getIndex_ne; try lia; pair_ne.
  - apply (foldl_invariant
             (fun c => ta_get c (getIndex s x y) = ta_get cur (getIndex s x y))).
    + apply (foldl_invariant
               (fun c => ta_get c (getIndex s x y) = ta_get cur (getIndex s x y)));
        [done|].
      intros c b Hb%elem_of_zrange Hc.
      rewrite !st32_other; [done|..]; apply getIndex_ne; try lia; pair_ne.
    + intros c b Hb%elem_of_zrange Hc.
      rewrite !st32_other; [done|..]; apply getIndex_ne; try lia; pair_ne.
Qed.

Lemma sweep_cell_masked_keep s k cp idx j :
  mask_at (wallMask s) j = true ->
  zero_at cp.1 j /\ zero_at cp.2 j ->
  zero_at (sweep_cell s k cp idx).1 j /\ zero_at (sweep_cell s k cp idx).2 j.
Proof.
  destruct cp as [cur prev]. simpl. intros Hm [Hc Hp]. unfold sweep_cell.
  destruct (decide (idx = j)) as [->|Hne].
  - rewrite Hm. simpl. split; by apply st32_zero_keep.
  - destruct (mask_at (wallMask s) idx); simpl; unfold zero_at;
      by rewrite !st32_other.
Qed.

Lemma sweep_masked s k cp x y :
  1 <= x < cols s - 1 -> 1 <= y < rows s - 1 ->
  mask_at (wallMask s) (y * cols s + x) = true ->
  0 <= y * cols s + x < Zlen cp.1 -> 0 <= y * cols s + x < Zlen cp.2 ->
  zero_at (sweep s k cp).1 (y * cols s + x)
  /\ zero_at (sweep s k cp).2 (y * cols s + x).
Proof.
  intros Hx Hy Hm H1 H2. unfold sweep.
  set (j := y * cols s + x) in *.
  set (I := fun a : list float * list float =>
              0 <= j < Zlen a.1 /\ 0 <= j < Zlen a.2).
  set (Q := fun a : list float * list float => zero_at a.1 j /\ zero_at a.2 j).
  assert (HI : forall a idx, I a -> I (sweep_cell s k a idx)).
  { intros a idx [Ha1 Ha2]. split; by rewrite ?sweep_cell_Zlen, ?sweep_cell_Zlen2. }
  apply (foldl_reach I Q _ _ _ y).
  - by apply elem_of_zrange.
  - done.
  - intros a y' _ Ha. apply (foldl_invariant I); [done|].
    intros a' x' _ Ha'. by apply HI.
  - intros a Ha.
    apply (foldl_reach I Q _ _ _ x).
    + by apply elem_of_zrange.
    + done.
    + intros a' x' _ Ha'. by apply HI.
    + intros [cur prev] [Ha1 Ha2]. unfold sweep_cell. fold j. rewrite Hm.
      split; by apply st32_zero_new.
    + intros a' x' _ _ Hq. by apply sweep_cell_masked_keep.
  - intros a y' _ _ Hq. apply (foldl_invariant Q); [done|].
    intros a' x' _ Hq'. by apply sweep_cell_masked_keep.
Qed.

(** When [waveSpeed * dt] is a number, a [step] that returns ends with a
    sub-step on an object that differs from the prepared one in [current]
    and [previous] only. *)
Lemma step_ends_with_substep M time s s' :
  subSteps s <> XNaN -> step M time s = Some s' ->
  exists s2 d,
    s' = stabilityGuard (update_energy (substep d s2))
    /\ fields_only (step_prepare M time s) s2
    /\ Zlen (current s2) = Zlen (current s)
    /\ Zlen (previous s2) = Zlen (previous s).
Proof.
  intros Hnum Hstep.
  apply step_inv in Hstep as (s1 & H1 & ->).
  apply step_until_guard_inv in H1 as (n & Hn & ->).
  set (d := (dt s / xint_to_float (subSteps s))%float) in *.
  assert (Hpos : n <> 0%N).
  { unfold loop_count in Hn. destruct (subSteps s) as [|[]|z] eqn:E; try done.
    - unfold subSteps in E. by destruct (Math_ceil _) as [|[]|].
    - pose proof (x_max_one_ge _ _ E). injection Hn as <-. lia. }
  destruct (N.succ_pred n Hpos). rewrite N.iter_succ.
  exists (N.iter (N.pred n) (substep d) (step_prepare M time s)), d.
  split; [reflexivity|]. split; [apply iter_substep_fields|].
  by rewrite iter_substep_Zlen, step_prepare_Zlen,
    iter_substep_previous_Zlen, step_prepare_previous.
Qed.

Lemma substep_previous d s :
  previous (substep d s)
  = (sweep s (waveSpeed s * waveSpeed s * (d * d))%float
       (current s, previous s)).2.
Proof. unfold substep. by destruct (sweep _ _ _). Qed.

(** X6.  After a [step] whose sub-step count is not NaN (so that a
    sub-step runs), every interior cell that the obstacle mask marks holds
    0 in [current] and in [previous]: waves do not enter a wall cell. *)
Theorem masked_cells_hold_zero (M : MathLib) (time : float)
  (s s' : WaveSimulation) (x y : Z) :
  Zlen (current s) = cols s * rows s ->
  Zlen (previous s) = cols s * rows s ->
  subSteps s <> XNaN ->
  step M time s = Some s' ->
  1 <= x < cols s - 1 -> 1 <= y < rows s - 1 ->
  mask_at (wallMask s') (getIndex s x y) = true ->
  ta_get (current s') (getIndex s x y) = Some 0%float
  /\ ta_get (previous s') (getIndex s x y) = Some 0%float.
Proof.
  intros Hc Hp Hnum Hstep Hx Hy Hm.
  rewrite (step_wallMask M time s s' Hstep) in Hm.
  destruct (step_ends_with_substep M time s s' Hnum Hstep)
    as (s2 & d & -> & (c & p & Hs2) & Hlc & Hlp).
  destruct (step_prepare_shape M time s) as (c0 & srcs & Hprep).
  destruct (rebuildWallMask_shape M s) as [m Hrb].
  assert (Hcols : cols s2 = cols s) by (by rewrite Hs2, Hprep, Hrb).
  assert (Hrows : rows s2 = rows s) by (by rewrite Hs2, Hprep, Hrb).
  assert (Hmask : wallMask s2 = wallMask (rebuildWallMask M s))
    by (by rewrite Hs2, Hprep).
  clear Hs2 Hprep Hrb.
  assert (Hidx : 0 <= y * cols s + x < cols s * rows s) by nia.
  set (k := (waveSpeed s2 * waveSpeed s2 * (d * d))%float).
  pose proof (sweep_masked s2 k (current s2, previous s2) x y) as Hsw.
  rewrite Hcols, Hrows, Hmask in Hsw. cbn [fst snd] in Hsw.
  destruct Hsw as [Z1 Z2]; [lia | lia | exact Hm | lia | lia |].
  assert (Hcur : zero_at (current (update_energy (substep d s2)))
                   (getIndex s x y)).
  { rewrite update_energy_current, substep_current. fold k.
    replace (getIndex s x y) with (getIndex s2 x y)
      by (unfold getIndex; by rewrite Hcols).
    unfold zero_at.
    rewrite applyBoundaryConditions_interior by (rewrite ?Hcols, ?Hrows; lia).
    unfold getIndex. rewrite Hcols. exact Z1. }
  assert (Hprev : zero_at (previous (update_energy (substep d s2)))
                    (getIndex s x y)).
  { destruct (update_energy_shape (substep d s2)) as [em ->]. simpl.
    rewrite substep_previous. exact Z2. }
  rewrite stabilityGuard_cases. destruct (guard_trips _); [|done].
  simpl. split; apply zero_at_fill0; by eapply ta_get_inv.
Qed.

Lemma masked_cells_hold_zero_witness :
  let s := addSource 8 8 0.1 100 (addWall 4 0 4 20 None (construct 20 20 4)) in
  exists s',
    step ref_math 1 s = Some s'
    /\ mask_at (wallMask s') (getIndex s 1 2) = true
    /\ ta_get (current s') (getIndex s 1 2) = Some 0%float.
Proof.
  intros s.
  destruct (step ref_math 1 s) as [s'|] eqn:Hs;
    [|vm_compute in Hs; discriminate Hs].
  exists s'. split; [reflexivity|].
  assert (Hm : mask_at (wallMask s') (getIndex s 1 2) = true).
  { pose proof Hs as Hv. vm_compute in Hv. injection Hv as <-.
    vm_compute. reflexivity. }
  split; [exact Hm|].
  apply (masked_cells_hold_zero ref_math 1 s s' 1 2).
  - vm_compute. reflexivity.
  - vm_compute. reflexivity.
  - vm_compute. discriminate.
  - exact Hs.
  - split; [vm_compute; discriminate | vm_compute; reflexivity].
  - split; [vm_compute; discriminate | vm_compute; reflexivity].
  - exact Hm.
Defined.

(** ** Arithmetic on zeros *)

Lemma is_zero_Prim2SF v :
  is_zero v = true <-> exists s, Prim2SF v = S754_zero s.
Proof.
  unfold is_zero. rewrite FloatAxioms.eqb_spec.
  change (Prim2SF zero) with (S754_zero false). split.
  - destruct (Prim2SF v) as [s|s| |s m e]; try done; [by exists s | by destruct s..].
  - by intros [s ->].
Qed.

Lemma is_finite_Prim2SF v :
  is_finite v = true ->
  (exists s, Prim2SF v = S754_zero s)
  \/ (exists s m e, Prim2SF v = S754_finite s m e).
Proof.
  unfold is_finite, is_nan, is_infinity.
  rewrite !FloatAxioms.eqb_spec, abs_spec.
  change (Prim2SF infinity) with (S754_infinity false).
  destruct (Prim2SF v) as [s|s| |s m e]; simpl; intros H; eauto;
    try done; by destruct s.
Qed.

Lemma zero_add a b : is_zero a = true -> is_zero b = true -> is_zero (a + b) = true.
Proof.
  rewrite !is_zero_Prim2SF. intros [s Ha] [s' Hb].
  rewrite add_spec, Ha, Hb. destruct s, s'; by eexists.
Qed.

Lemma zero_sub a b : is_zero a = true -> is_zero b = true -> is_zero (a - b) = true.
Proof.
  rewrite !is_zero_Prim2SF. intros [s Ha] [s' Hb].
  rewrite sub_spec, Ha, Hb. destruct s, s'; by eexists.
Qed.

Lemma zero_mul_l k z :
  is_finite k = true -> is_zero z = true -> is_zero (k * z) = true.
Proof.
  intros Hk. rewrite !is_zero_Prim2SF. intros [s Hz].
  rewrite mul_spec, Hz.
  destruct (is_finite_Prim2SF k Hk) as [[s' ->]|(s' & m & e & ->)]; by eexists.
Qed.

Lemma zero_mul_r z k :
  is_zero z = true -> is_finite k = true -> is_zero (z * k) = true.
Proof.
  intros Hz' Hk. revert Hz'. rewrite !is_zero_Prim2SF. intros [s Hz].
  rewrite mul_spec, Hz.
  destruct (is_finite_Prim2SF k Hk) as [[s' ->]|(s' & m & e & ->)]; by eexists.
Qed.

Lemma zero_fround z : is_zero z = true -> fround z = z.
Proof.
  intros [s Hz]%is_zero_Prim2SF. unfold fround. rewrite Hz.
  change (round32 (S754_zero s)) with (S754_zero s).
  rewrite <- Hz. apply SF2Prim_Prim2SF.
Qed.

Lemma zero_clamp50 z : is_zero z = true -> clamp50 z = z.
Proof.
  intros [s Hz]%is_zero_Prim2SF. unfold clamp50.
  rewrite !FloatAxioms.ltb_spec, Hz. by destruct s.
Qed.

Lemma zero_is_finite z : is_zero z = true -> is_finite z = true.
Proof.
  intros [s Hz]%is_zero_Prim2SF. unfold is_finite, is_nan, is_infinity.
  rewrite !FloatAxioms.eqb_spec, abs_spec, Hz. by destruct s.
Qed.

(** ** Rounding to binary32 yields a binary64 value *)

(** The shape of [round32] on a valid finite value. *)
Lemma round32_cases s m e :
  bounded prec emax m e = true ->
  round32 (S754_finite s m e) = S754_zero s
  \/ round32 (S754_finite s m e) = S754_infinity s
  \/ exists p e',
       round32 (S754_finite s m e) = S754_finite s p e'
       /\ bounded prec emax p e' = true.
Proof.
  unfold bounded, canonical_mantissa, fexp, SpecFloat.emin.
  rewrite !digits2_pos_log2.
  change prec with 53. change emax with 1024.
  intros [Hcan Hemax]%andb_true_iff.
  apply Z.eqb_eq in Hcan. apply Z.leb_le in Hemax.
  pose proof (Z.log2_spec (Zpos m) ltac:(done)) as [Hlo Hhi].
  pose proof (Z.log2_nonneg (Zpos m)) as Hl0.
  set (l := Z.log2 (Zpos m)) in *.
  unfold round32. fold l.
  destruct (Z.eq_dec e (-1074)) as [->|Hne].
  - left. assert (l <= 52) by lia.
    replace (Z.max (l + 1 + -1074 - 24) (-149) - -1074) with 925 by lia.
    simpl (925 <=? 0). cbv iota.
    rewrite rne_zero; [reflexivity | lia |].
    assert (2 ^ Z.succ l <= 2 ^ 924) by (apply Z.pow_le_mono_r; lia).
    change (925 - 1) with 924. lia.
  - assert (Hl : l = 52) by lia. assert (Hge : -1074 <= e) by lia.
    rewrite Hl in *. clear Hcan.
    set (k := Z.max (52 + 1 + e - 24) (-149) - e).
    assert (Hk : 29 <= k) by lia.
    destruct (k <=? 0) eqn:Ek; [lia|].
    pose proof (rounded_mantissa (Zpos m) k ltac:(lia) ltac:(split; assumption))
      as Hrm.
    set (m' := rne (Zpos m) k * 2 ^ k) in *.
    destruct (m' =? 2 ^ 53) eqn:Ecarry.
    + change (2 ^ 52) with (Zpos 4503599627370496).
      destruct (e + 1 <=? 75) eqn:E75; [|by right; left].
      right. right. exists 4503599627370496%positive, (e + 1). split; [done|].
      rewrite !digits2_pos_log2.
      change (Z.log2 (Zpos 4503599627370496)) with 52.
      apply andb_true_iff; split; [apply Z.eqb_eq | apply Z.leb_le]; lia.
    + apply Z.eqb_neq in Ecarry.
      destruct Hrm as [Hz|Hr]; [left; by rewrite Hz|].
      destruct m' as [|p|p] eqn:Em'; try lia.
      destruct (e <=? 75) eqn:E75; [|by right; left].
      right. right. exists p, e. split; [done|].
      rewrite !digits2_pos_log2.
      assert (Z.log2 (Zpos p) = 52) as ->
        by (apply Z.log2_unique; [lia | split; [lia|]; change (Z.succ 52) with 53; lia]).
      apply andb_true_iff; split; [apply Z.eqb_eq | apply Z.leb_le]; lia.
Qed.

Lemma round32_valid sf :
  valid_binary sf = true -> valid_binary (round32 sf) = true.
Proof.
  destruct sf as [s|s| |s m e]; try done. intros Hb.
  change (bounded prec emax m e = true) in Hb.
  destruct (round32_cases s m e Hb) as [->|[->|(p & e' & -> & Hb')]]; done.
Qed.

Lemma Prim2SF_fround v : Prim2SF (fround v) = round32 (Prim2SF v).
Proof.
  unfold fround. apply Prim2SF_SF2Prim, round32_valid, Prim2SF_valid.
Qed.

(** Rounding keeps the sign: a value that is not below zero stays so. *)
Lemma fround_nonneg v : (0 <=? v)%float = true -> (0 <=? fround v)%float = true.
Proof.
  rewrite !FloatAxioms.leb_spec, Prim2SF_fround.
  change (Prim2SF 0) with (S754_zero false).
  pose proof (Prim2SF_valid v) as Hv.
  destruct (Prim2SF v) as [s|s| |s m e]; try done.
  destruct (round32_cases s m e Hv) as [->|[->|(p & e' & -> & _)]];
    by destruct s.
Qed.

Lemma fround_is_nan v : is_nan (fround v) = is_nan v.
Proof.
  apply eq_true_iff_eq. rewrite !is_nan_Prim2SF, Prim2SF_fround.
  pose proof (Prim2SF_valid v) as Hv.
  destruct (Prim2SF v) as [s|s| |s m e]; try done.
  destruct (round32_cases s m e Hv) as [->|[->|(p & e' & -> & _)]]; done.
Qed.

(** [Math.max(a, |c|)] is NaN or not below zero. *)
Lemma Math_max_abs_nonneg a c :
  is_nan (Math_max a (abs c)) = true \/ (0 <=? Math_max a (abs c))%float = true.
Proof.
  unfold Math_max.
  destruct (is_nan a || is_nan (abs c)) eqn:En; [by left|]. right.
  apply orb_false_iff in En as [Ha Hb].
  assert (Hb0 : (0 <=? abs c)%float = true).
  { rewrite FloatAxioms.leb_spec, abs_spec.
    destruct (is_nan (abs c)) eqn:E; [done|].
    assert (Prim2SF (abs c) <> S754_nan) as Hn
      by (intros H%is_nan_Prim2SF; congruence).
    rewrite abs_spec in Hn.
    by destruct (Prim2SF c) as [s|s| |s m e]. }
  assert (Hlt : forall x, (abs c <? x)%float = true -> (0 <=? x)%float = true).
  { intros x. rewrite FloatAxioms.ltb_spec, FloatAxioms.leb_spec, abs_spec.
    change (Prim2SF 0) with (S754_zero false).
    destruct (Prim2SF c) as [s|s| |s m e], (Prim2SF x) as [s'|s'| |s' m' e'];
      simpl; try done; by destruct s'. }
  assert (Heq : (a <? abs c)%float = false -> (abs c <? a)%float = false ->
                (0 <=? a)%float = true).
  { assert (Prim2SF a <> S754_nan) as Hna
      by (intros H%is_nan_Prim2SF; congruence).
    assert (Prim2SF (abs c) <> S754_nan) as Hnb
      by (intros H%is_nan_Prim2SF; congruence).
    revert Hna Hnb.
    rewrite !FloatAxioms.ltb_spec, FloatAxioms.leb_spec, abs_spec.
    change (Prim2SF 0) with (S754_zero false).
    unfold SFltb.
    rewrite (SFcompare_antisym (Prim2SF a) (SFabs (Prim2SF c))).
    destruct (Prim2SF c) as [s|s| |s m e], (Prim2SF a) as [s'|s'| |s' m' e'];
      simpl; try done; by destruct s'. }
  destruct (a <? abs c)%float eqn:E1; [done|].
  destruct (abs c <? a)%float eqn:E2; [by apply Hlt|].
  destruct (get_sign a); [done | by apply Heq].
Qed.

(** ** Rounding twice is rounding once *)

(** A normal binary64 value whose low bits are already clear is a fixed
    point of [round32]. *)
Lemma round32_fixed s p e :
  2 ^ 52 <= Zpos p < 2 ^ 53 -> e <= 75 ->
  (let k := Z.max (52 + 1 + e - 24) (-149) - e in Zpos p mod 2 ^ k = 0) ->
  round32 (S754_finite s p e) = S754_finite s p e.
Proof.
  intros Hp He Hmod. cbv zeta in Hmod.
  assert (P52 : 2 ^ 52 = 4503599627370496) by reflexivity.
  assert (P53 : 2 ^ 53 = 9007199254740992) by reflexivity.
  unfold round32.
  assert (Z.log2 (Zpos p) = 52) as ->
    by (apply Z.log2_unique; [lia | split; [lia|]; change (Z.succ 52) with 53; lia]).
  set (k := Z.max (52 + 1 + e - 24) (-149) - e) in *.
  assert (Hk : 29 <= k) by lia.
  destruct (k <=? 0) eqn:Ek; [lia|].
  assert (Hpk : 0 < 2 ^ k) by (apply Z.pow_pos_nonneg; lia).
  destruct (rne_cases (Zpos p) k ltac:(lia)) as [_ Hex].
  rewrite (Hex Hmod).
  assert (Hdiv : Zpos p / 2 ^ k * 2 ^ k = Zpos p).
  { pose proof (Z.div_mod (Zpos p) (2 ^ k) ltac:(lia)). lia. }
  rewrite Hdiv.
  destruct (Zpos p =? 2 ^ 53) eqn:E; [lia|].
  destruct (e <=? 75) eqn:E75; [done | lia].
Qed.

Lemma round32_idem sf :
  valid_binary sf = true -> round32 (round32 sf) = round32 sf.
Proof.
  destruct sf as [s|s| |s m e]; try done. intros Hb.
  change (bounded prec emax m e = true) in Hb. revert Hb.
  unfold bounded, canonical_mantissa, fexp, SpecFloat.emin.
  rewrite !digits2_pos_log2.
  change prec with 53. change emax with 1024.
  intros [Hcan Hemax]%andb_true_iff.
  apply Z.eqb_eq in Hcan. apply Z.leb_le in Hemax.
  pose proof (Z.log2_spec (Zpos m) ltac:(done)) as [Hlo Hhi].
  pose proof (Z.log2_nonneg (Zpos m)) as Hl0.
  assert (P52 : 2 ^ 52 = 4503599627370496) by reflexivity.
  assert (P53 : 2 ^ 53 = 9007199254740992) by reflexivity.
  set (l := Z.log2 (Zpos m)) in *.
  unfold round32 at 2 3. fold l.
  destruct (Z.eq_dec e (-1074)) as [->|Hne].
  - assert (l <= 52) by lia.
    replace (Z.max (l + 1 + -1074 - 24) (-149) - -1074) with 925 by lia.
    simpl (925 <=? 0). cbv iota.
    rewrite rne_zero; [reflexivity | lia |].
    assert (2 ^ Z.succ l <= 2 ^ 924) by (apply Z.pow_le_mono_r; lia).
    change (925 - 1) with 924. lia.
  - assert (Hl : l = 52) by lia. assert (Hge : -1074 <= e) by lia.
    rewrite Hl in *. clear Hcan.
    set (k := Z.max (52 + 1 + e - 24) (-149) - e).
    assert (Hk : 29 <= k) by lia.
    assert (Hpk : 0 < 2 ^ k) by (apply Z.pow_pos_nonneg; lia).
    destruct (k <=? 0) eqn:Ek; [lia|].
    pose proof (rounded_mantissa (Zpos m) k ltac:(lia) ltac:(split; assumption))
      as Hrm.
    pose proof (rne_lower (Zpos m) k 0 ltac:(lia) ltac:(lia)) as Hr0.
    set (q := rne (Zpos m) k) in *.
    destruct (q * 2 ^ k =? 2 ^ 53) eqn:Ecarry.
    + apply Z.eqb_eq in Ecarry.
      change (2 ^ 52) with (Zpos 4503599627370496).
      destruct (e + 1 <=? 75) eqn:E75; [|done]. apply Z.leb_le in E75.
      apply round32_fixed; [lia | lia |]. cbv zeta.
      set (k' := Z.max (52 + 1 + (e + 1) - 24) (-149) - (e + 1)).
      assert (Hk53 : k <= 53).
      { destruct (Z_le_gt_dec k 53) as [?|Hgt]; [done|]. exfalso.
        assert (2 ^ 54 <= 2 ^ k) by (apply Z.pow_le_mono_r; lia).
        assert (P54 : 2 ^ 54 = 18014398509481984) by reflexivity.
        assert (q = 0 \/ 1 <= q) as [Hq|Hq] by lia;
          [rewrite Hq in Ecarry; lia | nia]. }
      assert (Hk' : 29 <= k' <= 52) by lia.
      rewrite <- P52.
      replace (2 ^ 52) with (2 ^ (52 - k') * 2 ^ k')
        by (rewrite <- Z.pow_add_r by lia; f_equal; lia).
      apply Z_mod_mult.
    + apply Z.eqb_neq in Ecarry.
      destruct Hrm as [Hz|Hr]; [by rewrite Hz|].
      destruct (q * 2 ^ k) as [|p|p] eqn:Em'; try lia.
      destruct (e <=? 75) eqn:E75; [|done]. apply Z.leb_le in E75.
      apply round32_fixed; [lia | lia |]. cbv zeta. fold k.
      rewrite <- Em'. apply Z_mod_mult.
Qed.

Lemma fround_idem v : fround (fround v) = fround v.
Proof.
  unfold fround at 1. rewrite Prim2SF_fround.
  rewrite round32_idem by apply Prim2SF_valid. reflexivity.
Qed.

(** ** A silent field stays silent *)

Lemma silent_st32 c i v : silent c -> is_zero v = true -> silent (st32 c i v).
Proof.
  intros Hc Hv j w [[_ ->]|[_ Hw]]%ta_get_st32.
  - by rewrite zero_fround.
  - by eapply Hc.
Qed.

Lemma silent_rd c j : silent c -> 0 <= j < Zlen c -> is_zero (rd c j) = true.
Proof.
  intros Hc Hj. unfold rd.
  destruct (ta_get_Some c j Hj) as [v Hv]. rewrite Hv. simpl. by eapply Hc.
Qed.

Lemma silent_fill0 c : silent (fill0 c).
Proof. intros i v Hv. by apply ta_get_fill0 in Hv as ->. Qed.

Section Silence.
Variables (s : WaveSimulation) (k : float).
Hypothesis Hk : is_finite k = true.
Hypothesis Hdamp : is_finite (damping s) = true.

Local Abbreviation quiet :=
  (fun cp : list float * list float =>
     (Zlen cp.1 = cols s * rows s /\ Zlen cp.2 = cols s * rows s)
     /\ silent cp.1 /\ silent cp.2).

Lemma newValue_silent cur prev x y :
  quiet (cur, prev) -> 1 <= x < cols s - 1 -> 1 <= y < rows s - 1 ->
  is_zero (newValue s k cur prev (y * cols s + x)) = true.
Proof.
  intros [[L1 L2] [S1 S2]] Hx Hy. simpl in *. unfold newValue.
  assert (Hr : forall j, 0 <= j < cols s * rows s -> is_zero (rd cur j) = true).
  { intros j Hj. apply silent_rd; [done | lia]. }
  assert (Hp : is_zero (rd prev (y * cols s + x)) = true).
  { apply silent_rd; [done | nia]. }
  apply zero_mul_r; [|done].
  apply zero_add.
  - apply zero_sub; [|done]. apply zero_mul_l; [done | apply Hr; nia].
  - apply zero_mul_l; [done|].
    apply zero_sub; [|apply zero_mul_l; [done | apply Hr; nia]].
    repeat apply zero_add; apply Hr; nia.
Qed.

Lemma sweep_cell_silent cp x y :
  quiet cp -> 1 <= x < cols s - 1 -> 1 <= y < rows s - 1 ->
  quiet (sweep_cell s k cp (y * cols s + x)).
Proof.
  intros Hq Hx Hy.
  pose proof (sweep_cell_Zlen s k cp (y * cols s + x)) as E1.
  pose proof (sweep_cell_Zlen2 s k cp (y * cols s + x)) as E2.
  destruct cp as [cur prev].
  pose proof (newValue_silent cur prev x y Hq Hx Hy) as Hv.
  destruct Hq as [[L1 L2] [S1 S2]]. simpl in *.
  split; [split; congruence|].
  unfold sweep_cell.
  destruct (mask_at (wallMask s) (y * cols s + x)); simpl.
  - split; by apply silent_st32.
  - split; apply silent_st32; try done.
    + by rewrite zero_clamp50.
    + apply silent_rd; [done | nia].
Qed.

Lemma sweep_silent cp : quiet cp -> quiet (sweep s k cp).
Proof.
  intros Hq. unfold sweep.
  apply (foldl_invariant quiet); [done|].
  intros a y Hy%elem_of_zrange Ha.
  apply (foldl_invariant quiet); [done|].
  intros a' x Hx%elem_of_zrange Ha'. by apply sweep_cell_silent.
Qed.

Lemma applyBoundaryConditions_silent cur :
  reflectiveBoundaries s = false \/ (2 <= cols s /\ 2 <= rows s) ->
  Zlen cur = cols s * rows s -> silent cur ->
  silent (applyBoundaryConditions s cur).
Proof.
  intros Hmode Hlen Hs. unfold applyBoundaryConditions.
  destruct (reflectiveBoundaries s) eqn:Hr.
  - destruct Hmode as [?|[Hc Hrw]]; [done|].
    set (I := fun c : list float => Zlen c = cols s * rows s /\ silent c).
    cut (I (foldl (fun c y =>
                     let c := st32 c (getIndex s 0 y) (rd c (getIndex s 1 y)) in
                     st32 c (getIndex s (cols s - 1) y)
                       (rd c (getIndex s (cols s - 2) y)))
              (foldl (fun c x =>
                        let c := st32 c (getIndex s x 0) (rd c (getIndex s x 1)) in
                        st32 c (getIndex s x (rows s - 1))
                          (rd c (getIndex s x (rows s - 2))))
                 cur (zrange 0 (cols s))) (zrange 0 (rows s)))); [by intros []|].
    apply (foldl_invariant I).
    + apply (foldl_invariant I); [done|].
      intros c x Hx%elem_of_zrange [Lc Sc]. unfold getIndex.
      split; [by rewrite !Zlen_st32|].
      apply silent_st32.
      * apply silent_st32; [done|]. apply silent_rd; [done | nia].
      * apply silent_rd; [|rewrite Zlen_st32; nia].
        apply silent_st32; [done|]. apply silent_rd; [done | nia].
    + intros c y Hy%elem_of_zrange [Lc Sc]. unfold getIndex.
      split; [by rewrite !Zlen_st32|].
      apply silent_st32.
      * apply silent_st32; [done|]. apply silent_rd; [done | nia].
      * apply silent_rd; [|rewrite Zlen_st32; nia].
        apply silent_st32; [done|]. apply silent_rd; [done | nia].
  - apply (foldl_invariant silent).
    + apply (foldl_invariant silent); [done|].
      intros c x _ Sc. by repeat apply silent_st32.
    + intros c y _ Sc. by repeat apply silent_st32.
Qed.

End Silence.

Lemma substep_silent d s :
  is_finite (waveSpeed s * waveSpeed s * (d * d)) = true ->
  is_finite (damping s) = true ->
  reflectiveBoundaries s = false \/ (2 <= cols s /\ 2 <= rows s) ->
  (Zlen (current s) = cols s * rows s /\ Zlen (previous s) = cols s * rows s)
  /\ silent (current s) /\ silent (previous s) ->
  silent (current (substep d s)) /\ silent (previous (substep d s)).
Proof.
  intros Hk Hd Hmode Hq.
  pose proof (sweep_silent s _ Hk Hd (current s, previous s) Hq)
    as [[L1 L2] [S1 S2]].
  rewrite substep_current, substep_previous. split; [|done].
  by apply applyBoundaryConditions_silent.
Qed.

Lemma iter_substep_silent n d s :
  is_finite (waveSpeed s * waveSpeed s * (d * d)) = true ->
  is_finite (damping s) = true ->
  reflectiveBoundaries s = false \/ (2 <= cols s /\ 2 <= rows s) ->
  (Zlen (current s) = cols s * rows s /\ Zlen (previous s) = cols s * rows s) ->
  silent (current s) /\ silent (previous s) ->
  silent (current (N.iter n (substep d) s))
  /\ silent (previous (N.iter n (substep d) s)).
Proof.
  intros Hk Hd Hmode [L1 L2] Hq.
  induction n as [|n IH] using N.peano_ind; [done|].
  rewrite N.iter_succ.
  destruct (iter_substep_fields n d s) as (c & p & Hs).
  pose proof (iter_substep_Zlen n d s) as E1.
  pose proof (iter_substep_previous_Zlen n d s) as E2.
  set (t := N.iter n (substep d) s) in *.
  apply substep_silent.
  - by rewrite Hs.
  - by rewrite Hs.
  - by rewrite Hs.
  - split; [|done]. rewrite E1, E2, Hs. simpl. done.
Qed.

Lemma emit_sources_inactive M s time cur srcs :
  (forall src, src ∈ srcs -> WaveSource.active src = false) ->
  emit_sources M s time cur srcs = (cur, srcs).
Proof.
  induction srcs as [|src rest IH]; intros Hin; [done|].
  simpl. rewrite (Hin src) by left. simpl.
  rewrite IH; [done|]. intros src' H. apply Hin. by right.
Qed.

Lemma orbit_update_active M src :
  WaveSource.active (orbit_update M src) = WaveSource.active src.
Proof.
  pose proof (orbit_update_fixed M src) as H. unfold source_fixed in H.
  by injection H.
Qed.

(** Without an active source, [step] writes nothing before the sub-steps. *)
Lemma step_prepare_inactive M time s :
  (forall src, src ∈ sources s -> WaveSource.active src = false) ->
  current (step_prepare M time s) = current s.
Proof.
  intros Hin. unfold step_prepare.
  destruct (rebuildWallMask_shape M s) as [m Hm].
  assert (Hs : sources (rebuildWallMask M s) = sources s) by (by rewrite Hm).
  assert (Hc : current (rebuildWallMask M s) = current s) by (by rewrite Hm).
  cbn [sources current set_sources].
  rewrite emit_sources_inactive.
  - simpl. exact Hc.
  - rewrite Hs. intros src (src0 & -> & H0)%list_elem_of_fmap.
    rewrite orbit_update_active. by apply Hin.
Qed.

Lemma stabilityGuard_silent (s : WaveSimulation) :
  silent (current s) -> silent (previous s) ->
  silent (current (stabilityGuard s)) /\ silent (previous (stabilityGuard s)).
Proof.
  intros S1 S2. rewrite stabilityGuard_cases.
  destruct (guard_trips s); simpl; [|done].
  split; apply silent_fill0.
Qed.

Lemma step_until_guard_silent (M : MathLib) (time : float)
  (s s1 : WaveSimulation) :
  Zlen (current s) = cols s * rows s ->
  Zlen (previous s) = cols s * rows s ->
  reflectiveBoundaries s = false \/ (2 <= cols s /\ 2 <= rows s) ->
  silent (current s) -> silent (previous s) ->
  (forall src, src ∈ sources s -> WaveSource.active src = false) ->
  is_finite (update_coefficient s) = true ->
  is_finite (damping s) = true ->
  step_until_guard M time s = Some s1 ->
  silent (current s1) /\ silent (previous s1).
Proof.
  intros L1 L2 Hmode S1 S2 Hin Hk Hd H1.
  apply step_until_guard_inv in H1 as (n & _ & ->).
  set (d := (dt s / xint_to_float (subSteps s))%float) in *.
  destruct (step_prepare_shape M time s) as (c0 & srcs & Hprep).
  destruct (rebuildWallMask_shape M s) as [m Hrb].
  pose proof (step_prepare_inactive M time s Hin) as Hcur.
  pose proof (step_prepare_previous M time s) as Hprev.
  set (t := step_prepare M time s) in *.
  assert (Hcfg : (waveSpeed t, damping t, reflectiveBoundaries t, cols t, rows t)
                 = (waveSpeed s, damping s, reflectiveBoundaries s, cols s, rows s))
    by (by rewrite Hprep, Hrb).
  injection Hcfg as Ew Ed Er Ec Erw. clear Hprep Hrb.
  destruct (iter_substep_silent n d t) as [T1 T2];
    rewrite ?Ew, ?Ed, ?Er, ?Ec, ?Erw, ?Hcur, ?Hprev; try done.
  by destruct (update_energy_shape (N.iter n (substep d) t)) as [em ->].
Qed.

(** X7.  A still field stays still.  If every value of [current] and
    [previous] is a zero, no source is active, and the update coefficient
    and the damping are finite, then after a [step] every value of both
    buffers is still a zero (on a reflective grid provided it has two rows
    and two columns, since a thinner one reads outside the buffer). *)
Theorem silence_is_kept (M : MathLib) (time : float) (s s' : WaveSimulation) :
  Zlen (current s) = cols s * rows s ->
  Zlen (previous s) = cols s * rows s ->
  reflectiveBoundaries s = false \/ (2 <= cols s /\ 2 <= rows s) ->
  silent (current s) -> silent (previous s) ->
  (forall src, src ∈ sources s -> WaveSource.active src = false) ->
  is_finite (update_coefficient s) = true ->
  is_finite (damping s) = true ->
  step M time s = Some s' ->
  silent (current s') /\ silent (previous s').
Proof.
  intros L1 L2 Hmode S1 S2 Hin Hk Hd (s1 & H1 & ->)%step_inv.
  destruct (step_until_guard_silent M time s s1) as [T1 T2]; try done.
  by apply stabilityGuard_silent.
Qed.

Lemma silence_is_kept_witness :
  let s := addWall 4 0 4 12 None sim_3x3 in
  exists s', step ref_math 7 s = Some s' /\ silent (current s').
Proof.
  intros s.
  destruct (step ref_math 7 s) as [s'|] eqn:Hs;
    [|vm_compute in Hs; discriminate Hs].
  exists s'. split; [reflexivity|].
  assert (Hz : silent (replicate 9 0%float)).
  { intros i v H. unfold ta_get in H. case_decide; [|done].
    by apply lookup_replicate in H as [-> _]. }
  apply (silence_is_kept ref_math 7 s s'); try exact Hz.
  - vm_compute. reflexivity.
  - vm_compute. reflexivity.
  - left. reflexivity.
  - intros src H. change (sources s) with (@nil WaveSource.t) in H.
    apply elem_of_nil in H. destruct H.
  - vm_compute. reflexivity.
  - vm_compute. reflexivity.
  - exact Hs.
Defined.

(** ** The stability guard: no false alarm, bounded cost *)

Lemma guard_stride_pos len : 1 <= guard_stride len.
Proof.
  unfold guard_stride.
  destruct (Z.shiftr (len mod 2 ^ 32) 4 =? 0) eqn:E; [done|].
  apply Z.eqb_neq in E.
  assert (0 <= Z.shiftr (len mod 2 ^ 32) 4).
  { apply Z.shiftr_nonneg. apply Z.mod_pos_bound. done. }
  lia.
Qed.

Lemma guard_stride_div len :
  0 <= len < 2 ^ 32 -> guard_stride len = Z.max 1 (len / 16).
Proof.
  intros Hl. unfold guard_stride.
  rewrite Z.mod_small by done. rewrite Z.shiftr_div_pow2 by lia.
  change (2 ^ 4) with 16.
  assert (0 <= len / 16) by (apply Z.div_pos; lia).
  destruct (len / 16 =? 0) eqn:E; lia.
Qed.

Lemma guard_samples_in_range len i :
  i ∈ guard_samples len -> 0 <= i < len.
Proof.
  unfold guard_samples.
  pose proof (guard_stride_pos len) as Hs.
  set (st := guard_stride len) in *.
  intros (k & -> & Hk%elem_of_zrange)%list_elem_of_fmap.
  assert (st * ((len + st - 1) / st) <= len + st - 1)
    by (apply Z.mul_div_le; lia).
  nia.
Qed.

Lemma guard_samples_count len :
  0 <= len < 2 ^ 32 -> (length (guard_samples len) <= 31)%nat.
Proof.
  intros Hl. unfold guard_samples. rewrite length_fmap.
  unfold zrange. rewrite length_seqZ.
  rewrite guard_stride_div by done.
  set (q := len / 16).
  assert (Hq : 0 <= q) by (apply Z.div_pos; lia).
  pose proof (Z.div_mod len 16 ltac:(lia)) as Hdm.
  pose proof (Z.mod_pos_bound len 16 ltac:(lia)) as Hr. fold q in Hdm.
  assert ((len + Z.max 1 q - 1) / Z.max 1 q < 32); [|lia].
  apply Z.div_lt_upper_bound; [lia|]. nia.
Qed.

Lemma scan_until_length cur l :
  (length (scan_until cur l).1 <= length l)%nat.
Proof.
  induction l as [|i l IH]; [done|]. simpl.
  destruct (corrupt cur i); simpl; [lia|].
  destruct (scan_until cur l). simpl in *. lia.
Qed.

Lemma scan_until_subset cur l i :
  i ∈ (scan_until cur l).1 -> i ∈ l.
Proof.
  induction l as [|j l IH]; [done|]. simpl.
  destruct (corrupt cur j); simpl.
  - intros ->%list_elem_of_singleton. left.
  - destruct (scan_until cur l). simpl in *.
    intros [->|H]%elem_of_cons; [left | right; auto].
Qed.

Lemma guard_trips_finite s :
  current s <> [] ->
  (forall i v, ta_get (current s) i = Some v -> is_finite v = true) ->
  guard_trips s = false.
Proof.
  intros Hne Hfin. unfold guard_trips.
  assert (Hlen : 0 < Zlen (current s)).
  { unfold Zlen. destruct (current s); [done | simpl; lia]. }
  assert (Hok : forall i, 0 <= i < Zlen (current s) ->
                  corrupt (current s) i = false).
  { intros i Hi. unfold corrupt.
    destruct (ta_get_Some (current s) i Hi) as [v Hv].
    rewrite Hv. simpl. by rewrite (Hfin i v Hv). }
  apply orb_false_iff. split; [|apply Hok; lia].
  apply not_true_is_false. intros (i & Hi & Hc)%existsb_exists.
  apply list_elem_of_In in Hi.
  apply guard_samples_in_range in Hi. rewrite Hok in Hc; done.
Qed.

Lemma fill0_fill0 a : fill0 (fill0 a) = fill0 a.
Proof. unfold fill0. by rewrite length_replicate. Qed.

(** X8.  The stability guard does not fire on a healthy field: if the
    buffer is not empty and every value in it is finite, the guard returns
    the object unchanged.  In any case running it twice is running it
    once. *)
Theorem stabilityGuard_no_false_alarm (s : WaveSimulation) :
  (current s <> [] ->
   (forall i v, ta_get (current s) i = Some v -> is_finite v = true) ->
   stabilityGuard s = s)
  /\ stabilityGuard (stabilityGuard s) = stabilityGuard s.
Proof.
  split.
  - intros Hne Hfin. rewrite stabilityGuard_cases.
    by rewrite guard_trips_finite.
  - rewrite (stabilityGuard_cases s).
    destruct (guard_trips s) eqn:Ht.
    + rewrite stabilityGuard_cases.
      destruct (guard_trips (hard_reset s)); [|done].
      unfold hard_reset. simpl. by rewrite !fill0_fill0.
    + rewrite stabilityGuard_cases. by rewrite Ht.
Qed.

Lemma stabilityGuard_no_false_alarm_witness :
  stabilityGuard sim_bump_3x3 = sim_bump_3x3.
Proof.
  destruct (stabilityGuard_no_false_alarm sim_bump_3x3) as [H _].
  apply H; clear H.
  - vm_compute. discriminate.
  - intros i v H. unfold ta_get in H.
    destruct (decide (0 <= i)) as [H0|]; [|discriminate H].
    destruct (Z.to_nat i) as [|[|[|[|[|[|[|[|[|n]]]]]]]]];
      vm_compute in H;
      first [discriminate H | injection H as <-; reflexivity].
Defined.

(** X9.  The stability guard is a sample, not a scan: whatever the size of
    the grid it reads at most 32 cells, and on a non-empty buffer every
    index it reads is inside the buffer. *)
Theorem stabilityGuard_reads_bounded (cur : list float) :
  Zlen cur < 2 ^ 32 ->
  (length (guard_reads cur) <= 32)%nat
  /\ (cur <> [] -> forall i, i ∈ guard_reads cur -> 0 <= i < Zlen cur).
Proof.
  intros Hl. unfold guard_reads.
  assert (Hl0 : 0 <= Zlen cur) by (unfold Zlen; lia).
  pose proof (guard_samples_count (Zlen cur) ltac:(lia)) as Hcount.
  pose proof (scan_until_length cur (guard_samples (Zlen cur))) as Hsl.
  pose proof (scan_until_subset cur (guard_samples (Zlen cur))) as Hss.
  destruct (scan_until cur (guard_samples (Zlen cur))) as [r hit].
  simpl in *. split.
  - destruct hit; rewrite ?length_app; simpl; lia.
  - intros Hne i Hi.
    assert (0 < Zlen cur) by (unfold Zlen; destruct cur; [done | simpl; lia]).
    destruct hit.
    + by apply guard_samples_in_range, Hss.
    + apply elem_of_app in Hi as [Hi|Hi%list_elem_of_singleton]; [|lia].
      by apply guard_samples_in_range, Hss.
Qed.

Lemma stabilityGuard_reads_bounded_witness :
  (length (guard_reads (current sim_3x16)) <= 32)%nat.
Proof.
  apply (stabilityGuard_reads_bounded (current sim_3x16)).
  vm_compute. reflexivity.
Defined.

(** ** The energy trail *)

Lemma zrange_snoc n : 0 <= n -> zrange 0 (n + 1) = zrange 0 n ++ [n].
Proof.
  intros Hn. unfold zrange. rewrite !Z.sub_0_r.
  rewrite seqZ_app by lia. simpl. f_equal.
Qed.

(** A loop that rewrites each slot from its own old value. *)
Lemma update_loop_lookup (g : float -> Z -> float) em0 n i :
  0 <= n ->
  ta_get (foldl (fun em j => st32 em j (g (rd em j) j)) em0 (zrange 0 n)) i
  = if decide (0 <= i < n /\ i < Zlen em0)
    then Some (fround (g (rd em0 i) i)) else ta_get em0 i.
Proof.
  intros Hn. revert i. pattern n. apply natlike_ind; [| |exact Hn]; clear n Hn.
  - intros i. simpl. rewrite decide_False by lia. done.
  - intros n Hn IH i. change (Z.succ n) with (n + 1) at 1.
    replace (Z.succ n) with (n + 1) by lia.
    rewrite zrange_snoc, foldl_app by done. simpl.
    set (em := foldl _ em0 (zrange 0 n)) in *.
    assert (Hlen : Zlen em = Zlen em0).
    { subst em. apply Zlen_foldl_st32. intros. apply Zlen_st32. }
    destruct (decide (i = n)) as [->|Hne].
    + assert (Hrd : rd em n = rd em0 n).
      { unfold rd. rewrite IH. by rewrite decide_False by lia. }
      rewrite Hrd.
      destruct (decide (n < Zlen em0)) as [Hin|Hout].
      * rewrite decide_True by lia. unfold st32.
        apply ta_get_set_eq. lia.
      * rewrite decide_False by lia.
        rewrite !ta_get_None; [done|lia|rewrite Zlen_st32; lia].
    + rewrite st32_other by done. rewrite IH.
      destruct (decide (0 <= i < n /\ i < Zlen em0)).
      * by rewrite decide_True by lia.
      * by rewrite decide_False by lia.
Qed.

Lemma update_energy_lookup s i :
  energyTrailEnabled s = true ->
  0 <= i < Zlen (current s) -> i < Zlen (energyMap s) ->
  ta_get (energyMap (update_energy s)) i
  = Some (fround (Math_max (rd (energyMap s) i * energyDecay s)
                    (abs (rd (current s) i)))).
Proof.
  intros He Hi Hj. unfold update_energy. rewrite He. simpl.
  rewrite (update_loop_lookup
             (fun e j => Math_max (e * energyDecay s) (abs (rd (current s) j)))).
  - by rewrite decide_True by lia.
  - unfold Zlen. lia.
Qed.

Lemma stabilityGuard_energyMap s : energyMap (stabilityGuard s) = energyMap s.
Proof. rewrite stabilityGuard_cases. by destruct (guard_trips s). Qed.

(** X10.  With the trail enabled and an energy map as long as [current],
    [step] sets every slot of the energy map to the larger of its decayed
    old value and the magnitude of the wave there after the last sub-step
    (before the guard), rounded to binary32:
    [fround (max (energy * energyDecay) (abs current))].  The stored value
    is never negative: it is NaN or at least 0. *)
Theorem energy_trail_max_hold (M : MathLib) (time : float)
  (s s' : WaveSimulation) :
  energyTrailEnabled s = true ->
  Zlen (energyMap s) = Zlen (current s) ->
  step M time s = Some s' ->
  exists s1,
    step_until_guard M time s = Some s1 /\ s' = stabilityGuard s1
    /\ forall i, 0 <= i < Zlen (current s) ->
         let e := Math_max (rd (energyMap s) i * energyDecay s)
                    (abs (rd (current s1) i)) in
         ta_get (energyMap s') i = Some (fround e)
         /\ (is_nan (fround e) = true \/ (0 <=? fround e)%float = true).
Proof.
  intros He Hlen Hstep.
  destruct (step_inv M time s s' Hstep) as (s1 & H1 & ->).
  exists s1. split; [done|]. split; [done|].
  apply step_until_guard_inv in H1 as (n & _ & ->).
  set (t := N.iter n (substep (dt s / xint_to_float (subSteps s)))
              (step_prepare M time s)).
  assert (Ht : energyTrailEnabled t = true /\ energyMap t = energyMap s
               /\ energyDecay t = energyDecay s
               /\ Zlen (current t) = Zlen (current s)).
  { subst t. rewrite iter_substep_Zlen, step_prepare_Zlen.
    destruct (iter_substep_fields n (dt s / xint_to_float (subSteps s))
                (step_prepare M time s)) as (c & p & ->).
    destruct (step_prepare_shape M time s) as (c0 & srcs & ->).
    destruct (rebuildWallMask_shape M s) as [m ->]. done. }
  destruct Ht as (Et & Em & Ed & El).
  intros i Hi e. rewrite stabilityGuard_energyMap.
  rewrite (update_energy_lookup t i Et) by (rewrite ?Em, ?El; lia).
  subst e. rewrite update_energy_current, Em, Ed. split; [done|].
  destruct (Math_max_abs_nonneg (rd (energyMap s) i * energyDecay s)
              (rd (current t) i)) as [Hn|Hp].
  - left. by rewrite fround_is_nan.
  - right. by apply fround_nonneg.
Qed.

Lemma energy_trail_max_hold_witness :
  let s := set_params 0.5 0.995 1 false true (addSource 4 4 0.1 100 sim_3x3) in
  exists s' e,
    step ref_math 5 s = Some s'
    /\ ta_get (energyMap s') 4 = Some e /\ (0 <=? e)%float = true
    /\ is_zero e = false.
Proof.
  intros s.
  destruct (step ref_math 5 s) as [s'|] eqn:Hs;
    [|vm_compute in Hs; discriminate Hs].
  destruct (energy_trail_max_hold ref_math 5 s s' eq_refl eq_refl Hs)
    as (s1 & H1 & _ & Hi).
  destruct (Hi 4 ltac:(split; [vm_compute; discriminate | vm_compute; reflexivity]))
    as [Hget _].
  vm_compute in H1. injection H1 as <-.
  exists s'. eexists. split; [reflexivity|]. split; [exact Hget|].
  split; vm_compute; reflexivity.
Defined.

(** ** Reflective boundaries mirror the interior *)

(** One loop of the reflective branch in general: iteration [b] copies slot
    [A' b] to slot [A b], then slot [B' b] to slot [B b].  When no target is
    a source and the targets are pairwise distinct, every target ends with
    the initial value of its source and every other slot is unchanged. *)
Section CopyPass.
Variables (A A' B B' : Z -> Z) (n : Z) (c0 : list float).
Hypothesis Hsrc : forall b b', 0 <= b < n -> 0 <= b' < n ->
  A b <> A' b' /\ A b <> B' b' /\ B b <> A' b' /\ B b <> B' b' /\ A b <> B b'.
Hypothesis Hinj : forall b b', 0 <= b < n -> 0 <= b' < n -> b <> b' ->
  A b <> A b' /\ B b <> B b'.
Hypothesis Hin : forall b, 0 <= b < n ->
  0 <= A b < Zlen c0 /\ 0 <= B b < Zlen c0.

Local Abbreviation body :=
  (fun (c : list float) (b : Z) =>
     let c := st32 c (A b) (rd c (A' b)) in st32 c (B b) (rd c (B' b))).

Lemma copy_pass_prefix m :
  0 <= m <= n ->
  let c := foldl body c0 (zrange 0 m) in
  Zlen c = Zlen c0
  /\ (forall b, 0 <= b < m ->
        ta_get c (A b) = Some (fround (rd c0 (A' b)))
        /\ ta_get c (B b) = Some (fround (rd c0 (B' b))))
  /\ (forall j, (forall b, 0 <= b < m -> j <> A b /\ j <> B b) ->
        ta_get c j = ta_get c0 j).
Proof.
  intros [Hm0 Hmn]. revert Hmn. pattern m.
  apply natlike_ind; [| |exact Hm0]; clear m Hm0.
  - intros _. simpl. split; [done|]. split; [lia | done].
  - intros m Hm IH Hmn. specialize (IH ltac:(lia)).
    replace (Z.succ m) with (m + 1) by lia.
    rewrite zrange_snoc, foldl_app by done. cbn [foldl].
    set (c := foldl body c0 (zrange 0 m)) in *. cbv zeta in IH.
    destruct IH as (Hlen & Hdone & Hrest).
    assert (Hrd : forall j, (forall b, 0 <= b < m -> j <> A b /\ j <> B b) ->
                   rd c j = rd c0 j).
    { intros j Hj. unfold rd. by rewrite Hrest. }
    assert (Hfree : forall b b', 0 <= b < n -> 0 <= b' < n ->
              forall k, 0 <= k < m -> (A' b <> A k /\ A' b <> B k)
                                   /\ (B' b' <> A k /\ B' b' <> B k)).
    { intros b b' Hb Hb' k Hk.
      destruct (Hsrc k b ltac:(lia) Hb) as (H1 & _ & H3 & _).
      destruct (Hsrc k b' ltac:(lia) Hb') as (_ & H2 & _ & H4 & _).
      repeat split; congruence. }
    destruct (Hin m ltac:(lia)) as [HAm HBm].
    destruct (Hsrc m m ltac:(lia) ltac:(lia)) as (Hs1 & Hs2 & Hs3 & Hs4 & Hs5).
    set (c1 := st32 c (A m) (rd c (A' m))).
    assert (Hrd1 : rd c1 (B' m) = rd c0 (B' m)).
    { unfold rd, c1. rewrite st32_other by done.
      rewrite Hrest; [reflexivity|]. intros k Hk.
      by destruct (Hfree m m ltac:(lia) ltac:(lia) k Hk) as [_ H]. }
    assert (Hrd0 : rd c (A' m) = rd c0 (A' m)).
    { apply Hrd. intros k Hk.
      by destruct (Hfree m m ltac:(lia) ltac:(lia) k Hk) as [H _]. }
    split; [unfold c1; by rewrite !Zlen_st32|]. split.
    + intros b Hb. destruct (decide (b = m)) as [->|Hne].
      * split.
        -- rewrite st32_other by done. unfold c1, st32.
           rewrite ta_get_set_eq by lia. by rewrite Hrd0.
        -- unfold st32 at 1. rewrite ta_get_set_eq
             by (unfold c1; rewrite Zlen_st32; lia).
           by rewrite Hrd1.
      * destruct (Hdone b ltac:(lia)) as [HA HB].
        destruct (Hinj b m ltac:(lia) ltac:(lia) Hne) as [Hi1 Hi2].
        destruct (Hsrc b m ltac:(lia) ltac:(lia)) as (_ & _ & _ & _ & Hab).
        destruct (Hsrc m b ltac:(lia) ltac:(lia)) as (_ & _ & _ & _ & Hba).
        split; unfold c1; rewrite !st32_other; try done; congruence.
    + intros j Hj.
      destruct (Hj m ltac:(lia)) as [Hj1 Hj2].
      unfold c1. rewrite !st32_other by congruence.
      apply Hrest. intros k Hk. apply Hj. lia.
Qed.

End CopyPass.

Lemma holds_f32_copy c j : holds_f32 c j -> Some (fround (rd c j)) = ta_get c j.
Proof. intros [v Hv]. unfold rd. rewrite Hv. simpl. by rewrite fround_idem. Qed.

Lemma sweep_cell_f32_keep s k cp idx j :
  holds_f32 cp.1 j -> holds_f32 (sweep_cell s k cp idx).1 j.
Proof.
  destruct cp as [cur prev]. simpl. intros [v Hv]. unfold sweep_cell.
  destruct (decide (idx = j)) as [->|Hne].
  - pose proof (ta_get_inv _ _ _ Hv) as Hr.
    destruct (mask_at _ _); simpl; eexists; unfold st32;
      by rewrite ta_get_set_eq.
  - exists v. destruct (mask_at _ _); simpl; by rewrite st32_other.
Qed.

(** After a sweep every interior cell holds a binary32 value. *)
Lemma sweep_interior_f32 s k cp x y :
  1 <= x < cols s - 1 -> 1 <= y < rows s - 1 ->
  0 <= y * cols s + x < Zlen cp.1 ->
  holds_f32 (sweep s k cp).1 (y * cols s + x).
Proof.
  intros Hx Hy Hr. unfold sweep.
  set (j := y * cols s + x) in *.
  set (I := fun a : list float * list float => 0 <= j < Zlen a.1).
  apply (foldl_reach I (fun a => holds_f32 a.1 j) _ _ _ y).
  - by apply elem_of_zrange.
  - done.
  - intros a y' _ Ha. apply (foldl_invariant I); [done|].
    intros a' x' _ Ha'. unfold I. by rewrite sweep_cell_Zlen.
  - intros a Ha.
    apply (foldl_reach I (fun a => holds_f32 a.1 j) _ _ _ x).
    + by apply elem_of_zrange.
    + done.
    + intros a' x' _ Ha'. unfold I. by rewrite sweep_cell_Zlen.
    + intros [cur prev] Ha'. unfold sweep_cell, I in *. fold j. simpl in Ha'.
      destruct (mask_at _ _); simpl; eexists; unfold st32;
        by rewrite ta_get_set_eq.
    + intros a' x' _ _ Hq. by apply sweep_cell_f32_keep.
  - intros a y' _ _ Hq. apply (foldl_invariant (fun a => holds_f32 a.1 j)); [done|].
    intros a' x' _ Hq'. by apply sweep_cell_f32_keep.
Qed.

Section Mirror.
Variables (s : WaveSimulation) (S : list float).
Hypothesis Hcols : 3 <= cols s.
Hypothesis Hrows : 3 <= rows s.
Hypothesis Hlen : Zlen S = cols s * rows s.
Hypothesis Hf32 : forall x y,
  1 <= x < cols s - 1 -> 1 <= y < rows s - 1 -> holds_f32 S (getIndex s x y).

Local Abbreviation R := (foldl (reflect_rows s) S (zrange 0 (cols s))).
Local Abbreviation F := (foldl (reflect_cols s) R (zrange 0 (rows s))).

Lemma getIndex_range x y :
  0 <= x < cols s -> 0 <= y < rows s -> 0 <= getIndex s x y < cols s * rows s.
Proof. unfold getIndex. nia. Qed.

Lemma rows_pass_spec :
  Zlen R = Zlen S
  /\ (forall x, 0 <= x < cols s ->
        ta_get R (getIndex s x 0) = Some (fround (rd S (getIndex s x 1)))
        /\ ta_get R (getIndex s x (rows s - 1))
           = Some (fround (rd S (getIndex s x (rows s - 2)))))
  /\ (forall x y, 0 <= x < cols s -> 1 <= y < rows s - 1 ->
        ta_get R (getIndex s x y) = ta_get S (getIndex s x y)).
Proof.
  pose proof (copy_pass_prefix
                (fun x => getIndex s x 0) (fun x => getIndex s x 1)
                (fun x => getIndex s x (rows s - 1))
                (fun x => getIndex s x (rows s - 2)) (cols s) S) as H.
  destruct (H) with (m := cols s) as (HL & Hd & Hr); clear H.
  - intros b b' Hb Hb'. repeat split; apply getIndex_ne; try done; pair_ne.
  - intros b b' Hb Hb' Hne. split; apply getIndex_ne; try done; pair_ne.
  - intros b Hb. rewrite Hlen. split; apply getIndex_range; lia.
  - lia.
  - split; [exact HL|]. split; [exact Hd|].
    intros x y Hx Hy. apply Hr. intros b Hb.
    split; apply getIndex_ne; try done; pair_ne.
Qed.

Lemma cols_pass_spec :
  (forall y, 0 <= y < rows s ->
     ta_get F (getIndex s 0 y) = Some (fround (rd R (getIndex s 1 y)))
     /\ ta_get F (getIndex s (cols s - 1) y)
        = Some (fround (rd R (getIndex s (cols s - 2) y))))
  /\ (forall x y, 1 <= x < cols s - 1 -> 0 <= y < rows s ->
        ta_get F (getIndex s x y) = ta_get R (getIndex s x y)).
Proof.
  destruct rows_pass_spec as (HL & _ & _).
  pose proof (copy_pass_prefix
                (fun y => getIndex s 0 y) (fun y => getIndex s 1 y)
                (fun y => getIndex s (cols s - 1) y)
                (fun y => getIndex s (cols s - 2) y) (rows s) R) as H.
  destruct (H) with (m := rows s) as (_ & Hd & Hr); clear H.
  - intros b b' Hb Hb'. repeat split; apply getIndex_ne; try lia; pair_ne.
  - intros b b' Hb Hb' Hne. split; apply getIndex_ne; try lia; pair_ne.
  - intros b Hb. rewrite HL, Hlen. split; apply getIndex_range; lia.
  - lia.
  - split; [exact Hd|].
    intros x y Hx Hy. apply Hr. intros b Hb.
    split; apply getIndex_ne; try lia; pair_ne.
Qed.

(** After both loops every cell holds the value of the nearest interior
    cell. *)
Lemma reflective_mirror x y :
  0 <= x < cols s -> 0 <= y < rows s ->
  ta_get F (getIndex s x y)
  = ta_get S (getIndex s (nearest_interior (cols s) x)
                (nearest_interior (rows s) y)).
Proof.
  intros Hx Hy.
  destruct rows_pass_spec as (_ & Hre & Hrm).
  destruct cols_pass_spec as (Hce & Hcm).
  (* the value of R at an interior column *)
  assert (HR : forall x' , 1 <= x' < cols s - 1 ->
            ta_get R (getIndex s x' y)
            = ta_get S (getIndex s x' (nearest_interior (rows s) y))
            /\ holds_f32 R (getIndex s x' y)).
  { intros x' Hx'. unfold nearest_interior.
    destruct (decide (y = 0)) as [->|Hy0].
    - replace (Z.max 1 (Z.min (rows s - 2) 0)) with 1 by lia.
      destruct (Hre x' ltac:(lia)) as [E0 _].
      pose proof (holds_f32_copy S (getIndex s x' 1)
                    (Hf32 x' 1 Hx' ltac:(lia))) as E.
      split; [by rewrite E0 | by eexists].
    - destruct (decide (y = rows s - 1)) as [->|Hy1].
      + replace (Z.max 1 (Z.min (rows s - 2) (rows s - 1))) with (rows s - 2)
          by lia.
        destruct (Hre x' ltac:(lia)) as [_ E0].
        pose proof (holds_f32_copy S (getIndex s x' (rows s - 2))
                      (Hf32 x' (rows s - 2) Hx' ltac:(lia))) as E.
        split; [by rewrite E0 | by eexists].
      + replace (Z.max 1 (Z.min (rows s - 2) y)) with y by lia.
        split; [by rewrite Hrm by lia|].
        destruct (Hf32 x' y Hx' ltac:(lia)) as [v Hv].
        exists v. by rewrite Hrm by lia. }
  unfold nearest_interior at 1.
  destruct (decide (x = 0)) as [->|Hx0].
  - replace (Z.max 1 (Z.min (cols s - 2) 0)) with 1 by lia.
    destruct (Hce y Hy) as [-> _].
    destruct (HR 1 ltac:(lia)) as [E1 E2].
    by rewrite (holds_f32_copy R _ E2).
  - destruct (decide (x = cols s - 1)) as [->|Hx1].
    + replace (Z.max 1 (Z.min (cols s - 2) (cols s - 1))) with (cols s - 2)
        by lia.
      destruct (Hce y Hy) as [_ ->].
      destruct (HR (cols s - 2) ltac:(lia)) as [E1 E2].
      by rewrite (holds_f32_copy R _ E2).
    + replace (Z.max 1 (Z.min (cols s - 2) x)) with x by lia.
      rewrite Hcm by lia. apply HR. lia.
Qed.

End Mirror.

Lemma nearest_interior_range n x : 3 <= n -> 1 <= nearest_interior n x < n - 1.
Proof. unfold nearest_interior. lia. Qed.

Lemma nearest_interior_id n x : 1 <= x < n - 1 -> nearest_interior n x = x.
Proof. unfold nearest_interior. lia. Qed.

(** X11.  With reflective boundaries, on a grid of at least 3 by 3 cells,
    after a [step] whose sub-step count is not NaN every cell holds the
    value of the interior cell nearest to it: an edge cell copies its inner
    neighbour and a corner copies the diagonal one. *)
Theorem reflective_edges_mirror (M : MathLib) (time : float)
  (s s' : WaveSimulation) (x y : Z) :
  reflectiveBoundaries s = true ->
  Zlen (current s) = cols s * rows s ->
  3 <= cols s -> 3 <= rows s ->
  subSteps s <> XNaN ->
  step M time s = Some s' ->
  0 <= x < cols s -> 0 <= y < rows s ->
  ta_get (current s') (getIndex s x y)
  = ta_get (current s')
      (getIndex s (nearest_interior (cols s) x) (nearest_interior (rows s) y)).
Proof.
  intros Hrefl Hlen Hc Hr Hnum Hstep Hx Hy.
  destruct (step_last_substep M time s s' Hnum Hstep)
    as (s2 & d & -> & Hc2 & Hr2 & Hrefl2 & Hlen2).
  pose proof (nearest_interior_range (cols s) x Hc) as Hnx.
  pose proof (nearest_interior_range (rows s) y Hr) as Hny.
  set (nx := nearest_interior (cols s) x) in *.
  set (ny := nearest_interior (rows s) y) in *.
  set (k := (waveSpeed s2 * waveSpeed s2 * (d * d))%float).
  set (S := (sweep s2 k (current s2, previous s2)).1).
  assert (HS : Zlen S = cols s2 * rows s2).
  { subst S. rewrite sweep_Zlen. simpl. congruence. }
  assert (Hf : forall a b, 1 <= a < cols s2 - 1 -> 1 <= b < rows s2 - 1 ->
                 holds_f32 S (getIndex s2 a b)).
  { intros a b Ha Hb. apply sweep_interior_f32; try done. simpl. nia. }
  assert (Hi : forall a b, getIndex s a b = getIndex s2 a b)
    by (intros; unfold getIndex; by rewrite Hc2).
  assert (Hcur : current (update_energy (substep d s2))
                 = foldl (reflect_cols s2)
                     (foldl (reflect_rows s2) S (zrange 0 (cols s2)))
                     (zrange 0 (rows s2))).
  { rewrite update_energy_current, substep_current. fold k. fold S.
    unfold applyBoundaryConditions. rewrite Hrefl2, Hrefl. reflexivity. }
  assert (Heq : ta_get (current (update_energy (substep d s2))) (getIndex s x y)
                = ta_get (current (update_energy (substep d s2)))
                    (getIndex s nx ny)).
  { rewrite Hcur, !Hi.
    pose proof (reflective_mirror s2 S ltac:(lia) ltac:(lia) HS Hf) as Hmir.
    rewrite (Hmir x y), (Hmir nx ny) by lia.
    rewrite Hc2, Hr2. fold nx ny.
    by rewrite !nearest_interior_id by lia. }
  rewrite stabilityGuard_cases. destruct (guard_trips _); [|exact Heq].
  simpl.
  assert (Hz : forall a b, 0 <= a < cols s -> 0 <= b < rows s ->
            ta_get (fill0 (current (update_energy (substep d s2))))
              (getIndex s a b) = Some 0%float).
  { intros a b Ha Hb. apply zero_at_fill0.
    rewrite Hcur, !Zlen_foldl_st32, HS, Hc2, Hr2;
      [unfold getIndex; nia | intros; unfold reflect_rows; by rewrite !Zlen_st32
       | intros; unfold reflect_cols; by rewrite !Zlen_st32]. }
  rewrite !Hz; [done | lia..].
Qed.

Lemma reflective_edges_mirror_witness :
  let s := set_params 0.5 0.995 1 true false (addSource 4 4 0.1 100 sim_3x3) in
  exists s',
    step ref_math 5 s = Some s'
    /\ ta_get (current s') (getIndex s 0 0)
       = ta_get (current s') (getIndex s 1 1)
    /\ is_zero (rd (current s') (getIndex s 1 1)) = false.
Proof.
  intros s.
  destruct (step ref_math 5 s) as [s'|] eqn:Hs;
    [|vm_compute in Hs; discriminate Hs].
  exists s'. split; [reflexivity|]. split.
  - apply (reflective_edges_mirror ref_math 5 s s' 0 0).
    + reflexivity.
    + vm_compute. reflexivity.
    + vm_compute. discriminate.
    + vm_compute. discriminate.
    + vm_compute. discriminate.
    + exact Hs.
    + split; [vm_compute; discriminate | vm_compute; reflexivity].
    + split; [vm_compute; discriminate | vm_compute; reflexivity].
  - vm_compute in Hs. injection Hs as <-. vm_compute. reflexivity.
Defined.

(** ** The sweep updates in place *)

Lemma foldl_bind_nested {A B C} (f : A -> C -> A) (g : B -> list C) l a :
  foldl (fun a b => foldl f a (g b)) a l = foldl f a (l ≫= g).
Proof.
  revert a. induction l as [|b l IH]; intros a; [done|].
  rewrite bind_cons, foldl_app. cbn [foldl]. apply IH.
Qed.

Lemma foldl_pointwise {A B} (f g : A -> B -> A) l a :
  (forall a b, f a b = g a b) -> foldl f a l = foldl g a l.
Proof.
  intros H. revert a. induction l as [|b l IH]; intros a; [done|].
  simpl. by rewrite H, IH.
Qed.

Lemma sweep_visit_order s k cp :
  sweep s k cp = foldl (sweep_cell s k) cp (visit_order s).
Proof.
  unfold sweep, visit_order.
  rewrite <- (foldl_bind_nested (sweep_cell s k)).
  apply foldl_pointwise. intros a y. by rewrite foldl_fmap.
Qed.

Lemma seqZ_sorted m n : StronglySorted Z.lt (seqZ m n).
Proof.
  destruct (Z_le_gt_dec n 0) as [Hn|Hn]; [rewrite seqZ_nil by lia; constructor|].
  revert m. pattern n. apply natlike_ind; [| |lia]; clear n Hn.
  - intros m. rewrite seqZ_nil by lia. constructor.
  - intros n Hn IH m. rewrite seqZ_cons by lia.
    replace (Z.pred (Z.succ n)) with n by lia.
    constructor; [apply IH|].
    apply Forall_forall. intros j Hj%elem_of_seqZ. lia.
Qed.

Lemma visit_order_sorted s : StronglySorted Z.lt (visit_order s).
Proof.
  unfold visit_order, zrange.
  destruct (Z_le_gt_dec (cols s) 2) as [Hc|Hc].
  { rewrite (seqZ_nil 1 (cols s - 1 - 1)) by lia.
    induction (seqZ 1 (rows s - 1 - 1)) as [|y l IH]; [constructor|].
    rewrite bind_cons. exact IH. }
  assert (G : forall l, StronglySorted Z.lt l ->
            StronglySorted Z.lt
              (l ≫= fun y => (fun x => y * cols s + x) <$> seqZ 1 (cols s - 1 - 1))).
  { induction 1 as [|y l Hl IH Hy]; [constructor|].
    rewrite bind_cons. apply StronglySorted_app_2; [| |exact IH].
    - intros a b (x & -> & Hx%elem_of_seqZ)%list_elem_of_fmap
        (y' & (x' & -> & Hx'%elem_of_seqZ)%list_elem_of_fmap & Hy')%list_elem_of_bind.
      rewrite Forall_forall in Hy. specialize (Hy y' Hy'). nia.
    - apply (StronglySorted_fmap _ Z.lt Z.lt); [|apply seqZ_sorted].
      intros a b Hab. lia. }
  apply G, seqZ_sorted.
Qed.

Lemma elem_of_visit_order s i :
  i ∈ visit_order s <->
  exists x y, 1 <= x < cols s - 1 /\ 1 <= y < rows s - 1 /\ i = y * cols s + x.
Proof.
  unfold visit_order. rewrite list_elem_of_bind. split.
  - intros (y & (x & -> & Hx%elem_of_zrange)%list_elem_of_fmap & Hy%elem_of_zrange).
    by exists x, y.
  - intros (x & y & Hx & Hy & ->). exists y. split; [|by apply elem_of_zrange].
    apply list_elem_of_fmap. exists x. split; [done|]. by apply elem_of_zrange.
Qed.

Section InPlace.
Variable body : list float * list float -> Z -> list float * list float.
Hypothesis body_frame : forall a i j, j <> i ->
  ta_get (body a i).1 j = ta_get a.1 j /\ ta_get (body a i).2 j = ta_get a.2 j.

Lemma foldl_frame L a j :
  j ∉ L ->
  ta_get (foldl body a L).1 j = ta_get a.1 j
  /\ ta_get (foldl body a L).2 j = ta_get a.2 j.
Proof.
  revert a. induction L as [|i L IH]; intros a Hj; [done|].
  simpl. apply not_elem_of_cons in Hj as [Hne Hj].
  destruct (IH (body a i) Hj) as [-> ->]. by apply body_frame.
Qed.

(** The state in which an item of a sorted visiting order is reached: not
    yet written from that item on, final before it. *)
Lemma foldl_in_place L a i :
  StronglySorted Z.lt L -> i ∈ L ->
  exists a_i,
    (forall j, i <= j ->
       ta_get a_i.1 j = ta_get a.1 j /\ ta_get a_i.2 j = ta_get a.2 j)
    /\ (forall j, j < i -> ta_get a_i.1 j = ta_get (foldl body a L).1 j)
    /\ ta_get (foldl body a L).1 i = ta_get (body a_i i).1 i
    /\ ta_get (foldl body a L).2 i = ta_get (body a_i i).2 i.
Proof.
  intros Hs (L1 & L2 & ->)%list_elem_of_split.
  exists (foldl body a L1).
  assert (H1 : forall j, j ∈ L1 -> j < i).
  { intros j Hj. apply (StronglySorted_app_1_elem_of _ _ _ _ _ Hs Hj). left. }
  assert (H2 : forall j, j ∈ L2 -> i < j).
  { intros j Hj. apply StronglySorted_app_1_r in Hs.
    apply StronglySorted_cons in Hs as [Hf _].
    rewrite Forall_forall in Hf. by apply Hf. }
  rewrite foldl_app. cbn [foldl].
  split; [|split].
  - intros j Hj. apply foldl_frame. intros Hin%H1. lia.
  - intros j Hj.
    assert (Hn2 : j ∉ L2) by (intros Hin%H2; lia).
    destruct (foldl_frame L2 (body (foldl body a L1) i) j Hn2) as [-> _].
    symmetry. apply body_frame. lia.
  - assert (Hn2 : i ∉ L2) by (intros Hin%H2; lia).
    destruct (foldl_frame L2 (body (foldl body a L1) i) i Hn2) as [-> ->].
    done.
Qed.

End InPlace.

Lemma sweep_cell_frame s k a i j :
  j <> i ->
  ta_get (sweep_cell s k a i).1 j = ta_get a.1 j
  /\ ta_get (sweep_cell s k a i).2 j = ta_get a.2 j.
Proof.
  intros Hne. destruct a as [cur prev]. unfold sweep_cell.
  destruct (mask_at _ _); simpl; by rewrite !st32_other.
Qed.

Lemma rd_eq c c' j : ta_get c j = ta_get c' j -> rd c j = rd c' j.
Proof. unfold rd. by intros ->. Qed.

Lemma sweep_in_place s k cur prev x y :
  1 <= x < cols s - 1 -> 1 <= y < rows s - 1 ->
  y * cols s + x < Zlen cur -> y * cols s + x < Zlen prev ->
  mask_at (wallMask s) (y * cols s + x) = false ->
  let idx := y * cols s + x in
  let out := sweep s k (cur, prev) in
  ta_get out.2 idx = Some (fround (rd cur idx))
  /\ ta_get out.1 idx
     = Some (fround (clamp50
               (update_rule s k (rd cur idx) (rd prev idx)
                  (rd cur (idx + 1)) (rd out.1 (idx - 1))
                  (rd cur (idx + cols s)) (rd out.1 (idx - cols s))))).
Proof.
  intros Hx Hy Hc Hp Hm idx out. subst out.
  change (mask_at (wallMask s) idx = false) in Hm.
  change (idx < Zlen cur) in Hc. change (idx < Zlen prev) in Hp.
  rewrite sweep_visit_order.
  assert (Hin : idx ∈ visit_order s)
    by (apply elem_of_visit_order; by exists x, y).
  destruct (foldl_in_place (sweep_cell s k) (sweep_cell_frame s k)
              (visit_order s) (cur, prev) idx (visit_order_sorted s) Hin)
    as (a & Hlater & Hbefore & -> & ->).
  assert (H0 : 0 <= idx) by (subst idx; nia).
  destruct (Hlater idx ltac:(lia)) as [E1 E2]. simpl in E1, E2.
  destruct (ta_get_Some cur idx ltac:(lia)) as [c Hcv].
  destruct (ta_get_Some prev idx ltac:(lia)) as [p Hpv].
  assert (R1 : 0 <= idx < Zlen a.1)
    by (apply (ta_get_inv _ _ c); by rewrite E1).
  assert (R2 : 0 <= idx < Zlen a.2)
    by (apply (ta_get_inv _ _ p); by rewrite E2).
  assert (Hnew : newValue s k a.1 a.2 idx
                 = update_rule s k (rd cur idx) (rd prev idx)
                     (rd cur (idx + 1))
                     (rd (foldl (sweep_cell s k) (cur, prev) (visit_order s)).1
                        (idx - 1))
                     (rd cur (idx + cols s))
                     (rd (foldl (sweep_cell s k) (cur, prev) (visit_order s)).1
                        (idx - cols s))).
  { unfold newValue, update_rule.
    rewrite (rd_eq a.1 cur idx) by apply E1.
    rewrite (rd_eq a.2 prev idx) by apply E2.
    rewrite (rd_eq a.1 cur (idx + 1)) by (apply Hlater; lia).
    rewrite (rd_eq a.1 cur (idx + cols s)) by (apply Hlater; lia).
    rewrite (rd_eq a.1 _ (idx - 1) (Hbefore (idx - 1) ltac:(lia))).
    rewrite (rd_eq a.1 _ (idx - cols s) (Hbefore (idx - cols s) ltac:(lia))).
    reflexivity. }
  destruct a as [ca pa]. unfold sweep_cell. rewrite Hm.
  cbn [fst snd] in *. unfold st32. rewrite !ta_get_set_eq by done.
  rewrite Hnew. by rewrite (rd_eq ca cur idx E1).
Qed.

(** X12.  One sub-step at an interior cell outside the walls: [previous]
    receives the old value of [current], and [current] receives the update
    rule, clamped to [-50, 50] and rounded to binary32.  The sweep writes
    into the buffer it reads, so the rule sees the old values of the cell
    itself, of its east and its south neighbour, but the values this very
    sweep has written for its west and its north neighbour (when they are
    interior). *)
Theorem substep_updates_in_place (d : float) (s : WaveSimulation) (x y : Z) :
  Zlen (current s) = cols s * rows s ->
  Zlen (previous s) = cols s * rows s ->
  1 <= x < cols s - 1 -> 1 <= y < rows s - 1 ->
  mask_at (wallMask s) (getIndex s x y) = false ->
  let idx := getIndex s x y in
  let s' := substep d s in
  let k := (waveSpeed s * waveSpeed s * (d * d))%float in
  let west := rd (if 1 <? x then current s' else current s) (idx - 1) in
  let north := rd (if 1 <? y then current s' else current s) (idx - cols s) in
  ta_get (previous s') idx = Some (fround (rd (current s) idx))
  /\ ta_get (current s') idx
     = Some (fround (clamp50
               (update_rule s k (rd (current s) idx) (rd (previous s) idx)
                  (rd (current s) (idx + 1)) west
                  (rd (current s) (idx + cols s)) north))).
Proof.
  intros Hc Hp Hx Hy Hm idx s' k west north.
  unfold getIndex in *.
  assert (Hr : 0 <= idx < cols s * rows s) by (subst idx; nia).
  destruct (sweep_in_place s k (current s) (previous s) x y Hx Hy
              ltac:(lia) ltac:(lia) Hm) as [Hprev Hcur].
  fold idx in Hprev, Hcur.
  set (out := sweep s k (current s, previous s)) in *.
  assert (Hs'c : current s' = applyBoundaryConditions s out.1)
    by apply substep_current.
  assert (Hs'p : previous s' = out.2) by apply substep_previous.
  assert (Hint : forall a b, 1 <= a < cols s - 1 -> 1 <= b < rows s - 1 ->
            ta_get (current s') (b * cols s + a) = ta_get out.1 (b * cols s + a)).
  { intros a b Ha Hb. rewrite Hs'c.
    apply (applyBoundaryConditions_interior s out.1 a b Ha Hb). }
  assert (Hedge : forall j, j ∉ visit_order s ->
            ta_get out.1 j = ta_get (current s) j).
  { intros j Hj. subst out. rewrite sweep_visit_order.
    by destruct (foldl_frame (sweep_cell s k) (sweep_cell_frame s k)
                   (visit_order s) (current s, previous s) j Hj) as [-> _]. }
  assert (Hw : west = rd out.1 (idx - 1)).
  { subst west. apply rd_eq. destruct (1 <? x) eqn:E.
    - apply Z.ltb_lt in E.
      replace (idx - 1) with (y * cols s + (x - 1)) by (subst idx; lia).
      apply Hint; lia.
    - apply Z.ltb_ge in E. symmetry. apply Hedge.
      intros (a & b & Ha & Hb & Heq)%elem_of_visit_order.
      assert (x = 1) by lia. subst idx x.
      assert (b = y) by nia. subst b. lia. }
  assert (Hn : north = rd out.1 (idx - cols s)).
  { subst north. apply rd_eq. destruct (1 <? y) eqn:E.
    - apply Z.ltb_lt in E.
      replace (idx - cols s) with ((y - 1) * cols s + x) by (subst idx; lia).
      apply Hint; lia.
    - apply Z.ltb_ge in E. symmetry. apply Hedge.
      intros (a & b & Ha & Hb & Heq)%elem_of_visit_order.
      assert (y = 1) by lia. subst idx y.
      assert (b = 0) by nia. lia. }
  rewrite Hw, Hn, Hs'p. split; [exact Hprev|].
  subst idx. rewrite (Hint x y Hx Hy). exact Hcur.
Qed.

Lemma substep_updates_in_place_witness :
  let s := default sim_0x0 (applyImpulse ref_math 6 6 4 3 (construct 16 16 4)) in
  ta_get (previous (substep 1 s)) (getIndex s 2 1)
  = Some (fround (rd (current s) (getIndex s 2 1)))
  /\ is_zero (rd (current s) (getIndex s 2 1)) = false.
Proof.
  intros s. split; [|vm_compute; reflexivity].
  apply (substep_updates_in_place 1 s 2 1).
  - vm_compute. reflexivity.
  - vm_compute. reflexivity.
  - split; [vm_compute; discriminate | vm_compute; reflexivity].
  - split; [vm_compute; discriminate | vm_compute; reflexivity].
  - vm_compute. reflexivity.
Defined.

(** ** Impulses *)

(** A loop in which one iteration alone writes slot [j], with a result that
    depends on the old content of that slot only. *)
Lemma foldl_single_writer {B} (body : list float -> B -> list float)
  (L : list B) (c : list float) (b : B) (j : Z) :
  NoDup L -> b ∈ L ->
  (forall c' b', b' ∈ L -> b' <> b -> ta_get (body c' b') j = ta_get c' j) ->
  (forall c1 c2, ta_get c1 j = ta_get c2 j ->
     ta_get (body c1 b) j = ta_get (body c2 b) j) ->
  ta_get (foldl body c L) j = ta_get (body c b) j.
Proof.
  intros Hnd Hb Hframe Hloc.
  apply list_elem_of_split in Hb as (L1 & L2 & ->).
  apply NoDup_app in Hnd as (_ & Hd1 & [Hd2 _]%NoDup_cons).
  rewrite foldl_app. cbn [foldl].
  assert (F : forall L' c', (forall b', b' ∈ L' -> b' ∈ L1 ++ b :: L2 /\ b' <> b) ->
            ta_get (foldl body c' L') j = ta_get c' j).
  { induction L' as [|b' L' IH]; intros c' HL'; [done|]. simpl.
    rewrite IH by (intros b'' H; apply HL'; by right).
    destruct (HL' b' ltac:(left)) as [Hin Hne]. by apply Hframe. }
  rewrite F.
  - apply Hloc. apply F. intros b' Hb'. split.
    + apply elem_of_app. by left.
    + intros ->. apply (Hd1 b Hb'). left.
  - intros b' Hb'. split.
    + apply elem_of_app. right. by right.
    + intros ->. by apply Hd2.
Qed.

Lemma foldl_no_writer {B} (body : list float -> B -> list float)
  (L : list B) (c : list float) (j : Z) :
  (forall c' b', b' ∈ L -> ta_get (body c' b') j = ta_get c' j) ->
  ta_get (foldl body c L) j = ta_get c j.
Proof.
  intros Hframe. apply (foldl_invariant (fun a => ta_get a j = ta_get c j)); [done|].
  intros a b Hb Ha. by rewrite Hframe.
Qed.

Lemma NoDup_zrange lo hi : NoDup (zrange lo hi).
Proof. apply NoDup_seqZ. Qed.

Lemma ta_get_None_inv {A} (a : list A) i :
  ta_get a i = None -> i < 0 \/ Zlen a <= i.
Proof.
  unfold ta_get, Zlen. case_decide; [|lia].
  intros Hn%lookup_ge_None. lia.
Qed.

(** A store outside the buffer is dropped. *)
Lemma st32_dropped c j v : ta_get c j = None -> ta_get (st32 c j v) j = None.
Proof.
  intros H%ta_get_None_inv. apply ta_get_None. by rewrite Zlen_st32.
Qed.

Section Impulse.
Variables (M : MathLib) (s : WaveSimulation) (icx icy r : Z) (amp : float).

Local Abbreviation sigma2 :=
  ((Z_to_float r * 0.5) * (Z_to_float r * 0.5))%float.
Local Abbreviation cell :=
  (impulse_cell M s (XInt icx) (XInt icy) r amp sigma2).

Lemma impulse_cell_skip c dy dx :
  interior s (icx + dx) (icy + dy) = false -> cell c dy dx = c.
Proof.
  unfold interior, impulse_cell. simpl. intros H.
  destruct (icx + dx <? 1) eqn:E1, (cols s - 1 <=? icx + dx) eqn:E2,
           (icy + dy <? 1) eqn:E3, (rows s - 1 <=? icy + dy) eqn:E4;
    simpl; try done.
  exfalso. revert H.
  destruct (1 <=? icx + dx) eqn:F1, (icx + dx <? cols s - 1) eqn:F2,
           (1 <=? icy + dy) eqn:F3, (icy + dy <? rows s - 1) eqn:F4;
    simpl; try done; lia.
Qed.

Lemma impulse_cell_frame c dy dx j :
  j <> getIndex s (icx + dx) (icy + dy) -> ta_get (cell c dy dx) j = ta_get c j.
Proof.
  intros Hne. unfold impulse_cell. simpl.
  destruct (_ || _); [done|]. destruct (_ <? _)%float; [done|].
  by rewrite st32_other.
Qed.

Lemma impulse_cell_at c dy dx :
  interior s (icx + dx) (icy + dy) = true ->
  - r <= dx <= r -> - r <= dy <= r ->
  ta_get (cell c dy dx) (getIndex s (icx + dx) (icy + dy))
  = match impulse_weight M r amp dx dy with
    | Some w => (fun old => fround (old + w)) <$>
                  ta_get c (getIndex s (icx + dx) (icy + dy))
    | None => ta_get c (getIndex s (icx + dx) (icy + dy))
    end.
Proof.
  unfold interior, impulse_cell, impulse_weight. simpl. intros H Hdx Hdy.
  apply andb_true_iff in H as [[[H1 H2]%andb_true_iff H3]%andb_true_iff H4].
  assert ((icx + dx <? 1) = false) as -> by lia.
  assert ((cols s - 1 <=? icx + dx) = false) as -> by lia.
  assert ((icy + dy <? 1) = false) as -> by lia.
  assert ((rows s - 1 <=? icy + dy) = false) as -> by lia.
  assert ((- r <=? dx) = true) as -> by lia.
  assert ((dx <=? r) = true) as -> by lia.
  assert ((- r <=? dy) = true) as -> by lia.
  assert ((dy <=? r) = true) as -> by lia.
  simpl.
  destruct (_ <? _)%float; simpl; [done|].
  set (j := getIndex s (icx + dx) (icy + dy)).
  destruct (ta_get c j) as [old|] eqn:E.
  - unfold st32, rd. rewrite ta_get_set_eq by (by eapply ta_get_inv).
    by rewrite E.
  - simpl. by apply st32_dropped.
Qed.

Lemma impulse_row_frame c dy j gx gy :
  0 <= gx < cols s -> j = getIndex s gx gy -> icy + dy <> gy ->
  ta_get (foldl (fun c dx => cell c dy dx) c (zrange (- r) (r + 1))) j
  = ta_get c j.
Proof.
  intros Hgx -> Hne. apply foldl_no_writer. intros c' dx _.
  destruct (interior s (icx + dx) (icy + dy)) eqn:E;
    [|by rewrite impulse_cell_skip].
  apply impulse_cell_frame, getIndex_ne; [done| |pair_ne].
  unfold interior in E.
  apply andb_true_iff in E as [[[H1 H2]%andb_true_iff H3]%andb_true_iff H4].
  lia.
Qed.

Lemma impulse_row_at c dy dx :
  interior s (icx + dx) (icy + dy) = true ->
  - r <= dx <= r -> - r <= dy <= r ->
  ta_get (foldl (fun c dx => cell c dy dx) c (zrange (- r) (r + 1)))
    (getIndex s (icx + dx) (icy + dy))
  = match impulse_weight M r amp dx dy with
    | Some w => (fun old => fround (old + w)) <$>
                  ta_get c (getIndex s (icx + dx) (icy + dy))
    | None => ta_get c (getIndex s (icx + dx) (icy + dy))
    end.
Proof.
  intros Hint Hdx Hdy.
  assert (Hx : 1 <= icx + dx < cols s - 1).
  { unfold interior in Hint.
    apply andb_true_iff in Hint
      as [[[H1 H2]%andb_true_iff H3]%andb_true_iff H4]. lia. }
  rewrite (foldl_single_writer _ _ c dx).
  - by apply impulse_cell_at.
  - apply NoDup_zrange.
  - apply elem_of_zrange. lia.
  - intros c' dx' _ Hne.
    destruct (interior s (icx + dx') (icy + dy)) eqn:E;
      [|by rewrite impulse_cell_skip].
    apply impulse_cell_frame, getIndex_ne; [lia| |pair_ne].
    unfold interior in E.
    apply andb_true_iff in E as [[[H1 H2]%andb_true_iff H3]%andb_true_iff H4].
    lia.
  - intros c1 c2 H12. rewrite !impulse_cell_at by done.
    by rewrite H12.
Qed.

Lemma impulse_loops_at c gx gy :
  0 <= gx < cols s ->
  ta_get (foldl (fun c dy =>
                   foldl (fun c dx => cell c dy dx) c (zrange (- r) (r + 1)))
            c (zrange (- r) (r + 1)))
    (getIndex s gx gy)
  = match (if interior s gx gy
           then impulse_weight M r amp (gx - icx) (gy - icy) else None) with
    | Some w => (fun old => fround (old + w)) <$> ta_get c (getIndex s gx gy)
    | None => ta_get c (getIndex s gx gy)
    end.
Proof.
  intros Hgx.
  destruct (interior s gx gy) eqn:Hint.
  2:{ apply foldl_no_writer. intros c' dy _.
      apply foldl_no_writer. intros c'' dx _.
      destruct (interior s (icx + dx) (icy + dy)) eqn:E;
        [|by rewrite impulse_cell_skip].
      apply impulse_cell_frame. intros Heq.
      apply getIndex_inj in Heq as [-> ->]; [congruence | done |].
      unfold interior in E.
      apply andb_true_iff in E
        as [[[H1 H2]%andb_true_iff H3]%andb_true_iff H4]. lia. }
  destruct (decide ((- r <= gx - icx <= r) /\ (- r <= gy - icy <= r)))
    as [[Hdx Hdy]|Hout].
  - replace gx with (icx + (gx - icx)) in Hint |- * by lia.
    replace gy with (icy + (gy - icy)) in Hint |- * by lia.
    replace (icx + (gx - icx) - icx) with (gx - icx) by lia.
    replace (icy + (gy - icy) - icy) with (gy - icy) by lia.
    rewrite (foldl_single_writer _ _ c (gy - icy)).
    + by apply impulse_row_at.
    + apply NoDup_zrange.
    + apply elem_of_zrange. lia.
    + intros c' dy' _ Hne.
      apply (impulse_row_frame c' dy' _ (icx + (gx - icx)) (icy + (gy - icy)));
        [lia | done | lia].
    + intros c1 c2 H12. rewrite !impulse_row_at by done. by rewrite H12.
  - assert (Hw : impulse_weight M r amp (gx - icx) (gy - icy) = None).
    { unfold impulse_weight.
      destruct (- r <=? gx - icx) eqn:E1, (gx - icx <=? r) eqn:E2,
               (- r <=? gy - icy) eqn:E3, (gy - icy <=? r) eqn:E4;
        simpl; try done. exfalso. apply Hout. lia. }
    rewrite Hw.
    apply foldl_no_writer. intros c' dy Hdy%elem_of_zrange.
    apply foldl_no_writer. intros c'' dx Hdx%elem_of_zrange.
    destruct (interior s (icx + dx) (icy + dy)) eqn:E;
      [|by rewrite impulse_cell_skip].
    apply impulse_cell_frame. intros Heq.
    apply getIndex_inj in Heq as [-> ->]; [apply Hout; lia | done |].
    unfold interior in E.
    apply andb_true_iff in E
      as [[[H1 H2]%andb_true_iff H3]%andb_true_iff H4]. lia.
Qed.

End Impulse.



Lemma mul_nan_r x : (x * nan)%float = nan.
Proof.
  apply Prim2SF_inj. rewrite mul_spec.
  change (Prim2SF nan) with S754_nan.
  by destruct (Prim2SF x).
Qed.

Lemma add_nan_r x : (x + nan)%float = nan.
Proof.
  apply Prim2SF_inj. rewrite add_spec.
  change (Prim2SF nan) with S754_nan.
  by destruct (Prim2SF x).
Qed.

Lemma set_current_same s : set_current (current s) s = s.
Proof. by destruct s. Qed.

(** X14.  [applyImpulse] with a radius that is not positive.  A negative
    radius (in cells) changes nothing at all.  A radius of zero cells makes
    [sigma] zero and the exponent [0 / 0]: if [Math.exp] maps NaN to NaN
    (as ECMAScript requires), the cell of the centre, when interior,
    becomes NaN. *)
Theorem applyImpulse_small_radius (M : MathLib) (px py radius amp : float)
  (s : WaveSimulation) (icx icy r : Z) :
  Math_floor (px / cellSize s) = XInt icx ->
  Math_floor (py / cellSize s) = XInt icy ->
  Math_ceil (radius / cellSize s) = XInt r ->
  (r < 0 -> applyImpulse M px py radius amp s = Some s)
  /\ (r = 0 -> Math_exp M nan = nan ->
      interior s icx icy = true ->
      0 <= getIndex s icx icy < Zlen (current s) ->
      exists s', applyImpulse M px py radius amp s = Some s'
                 /\ ta_get (current s') (getIndex s icx icy) = Some nan).
Proof.
  intros Hcx Hcy Hr. split.
  - intros Hneg. unfold applyImpulse. rewrite Hr.
    unfold zrange. rewrite seqZ_nil by lia. simpl.
    by rewrite set_current_same.
  - intros -> Hexp Hint Hrange.
    assert (Hx : 0 <= icx < cols s).
    { unfold interior in Hint.
      apply andb_true_iff in Hint
        as [[[H1 H2]%andb_true_iff H3]%andb_true_iff H4]. lia. }
    unfold applyImpulse. rewrite Hcx, Hcy, Hr.
    eexists. split; [reflexivity|]. cbn [current set_current].
    rewrite impulse_loops_at by exact Hx. rewrite Hint.
    rewrite !Z.sub_diag. unfold impulse_weight.
    change (Z_to_float 0) with 0%float. simpl.
    match goal with |- context [Math_exp M ?v] => change v with nan end.
    rewrite Hexp, mul_nan_r.
    destruct (ta_get_Some (current s) _ Hrange) as [old ->]. simpl.
    by rewrite add_nan_r.
Qed.

Lemma applyImpulse_small_radius_witness :
  applyImpulse ref_math 6 6 (-8) 3 sim_3x3 = Some sim_3x3
  /\ exists s',
       applyImpulse ref_math 6 6 0 3 sim_3x3 = Some s'
       /\ ta_get (current s') (getIndex sim_3x3 1 1) = Some nan.
Proof.
  split.
  - apply (applyImpulse_small_radius ref_math 6 6 (-8) 3 sim_3x3 1 1 (-2));
      reflexivity.
  - apply (applyImpulse_small_radius ref_math 6 6 0 3 sim_3x3 1 1 0);
      try reflexivity.
    split; [vm_compute; discriminate | vm_compute; reflexivity].
Defined.

(** ** The probe's scratch buffer *)

Lemma set_sampleBuffer_same s : set_sampleBuffer (sampleBuffer s) s = s.
Proof. by destruct s. Qed.

(** X15.  [sampleLine] changes nothing of the object but its scratch
    buffer, which only grows: its length afterwards is the larger of its old
    length and [numSamples].  For a count that is not negative the result
    is the first [numSamples] slots of the buffer; when the buffer was long
    enough, the slots from [numSamples] on keep their old values.  For a
    negative count nothing is written and the result is the old buffer
    without its last [- numSamples] slots. *)
Theorem sampleLine_reuses_buffer (px1 py1 px2 py2 : float) (n : Z)
  (s : WaveSimulation) :
  let s' := (sampleLine px1 py1 px2 py2 n s).1 in
  let out := (sampleLine px1 py1 px2 py2 n s).2 in
  (exists b, s' = set_sampleBuffer b s)
  /\ Zlen (sampleBuffer s') = Z.max (Zlen (sampleBuffer s)) n
  /\ (0 <= n -> out = take (Z.to_nat n) (sampleBuffer s'))
  /\ (n <= Zlen (sampleBuffer s) ->
      forall i, n <= i -> ta_get (sampleBuffer s') i = ta_get (sampleBuffer s) i)
  /\ (n < 0 ->
      s' = s
      /\ out = take (Z.to_nat (Zlen (sampleBuffer s) + n)) (sampleBuffer s)).
Proof.
  intros s' out. subst s' out. unfold sampleLine. cbn [fst snd].
  set (buf := if Zlen (sampleBuffer s) <? n
              then replicate (Z.to_nat n) 0%float else sampleBuffer s).
  set (f := sample_at s px1 py1
              ((px2 - px1) * (1 / Z_to_float (n - 1)))
              ((py2 - py1) * (1 / Z_to_float (n - 1)))).
  set (buf' := foldl (fun b i => st32 b i (f i)) buf (zrange 0 n)).
  assert (Hlen' : Zlen buf' = Zlen buf) by apply store_loop_Zlen.
  assert (Hbuf : Zlen buf = Z.max (Zlen (sampleBuffer s)) n).
  { subst buf. destruct (Zlen (sampleBuffer s) <? n) eqn:E.
    - unfold Zlen. rewrite length_replicate. unfold Zlen in E. lia.
    - lia. }
  split; [by eexists|]. cbn [sampleBuffer set_sampleBuffer].
  split; [lia|]. split; [|split].
  - intros Hn. by assert ((n <? 0) = false) as -> by lia.
  - intros Hn i Hi. subst buf' buf.
    assert ((Zlen (sampleBuffer s) <? n) = false) as -> by lia.
    apply foldl_no_writer. intros c j Hj%elem_of_zrange.
    apply st32_other. lia.
  - intros Hn. subst buf' buf.
    assert (H0 : 0 <= Zlen (sampleBuffer s)) by (unfold Zlen; lia).
    assert ((Zlen (sampleBuffer s) <? n) = false) as -> by lia.
    assert ((n <? 0) = true) as -> by lia.
    unfold zrange. rewrite seqZ_nil by lia. simpl.
    by rewrite set_sampleBuffer_same.
Qed.

Lemma sampleLine_reuses_buffer_witness :
  let s1 := (sampleLine 0 0 12 12 4 sim_bump_3x3).1 in
  Zlen (sampleBuffer s1) = 256
  /\ (sampleLine 0 0 12 12 (-250) s1).2
     = take 6 (sampleBuffer s1)
  /\ (sampleLine 0 0 12 12 (-250) s1).2 !! 1%nat = Some 3%float.
Proof.
  intros s1.
  destruct (sampleLine_reuses_buffer 0 0 12 12 4 sim_bump_3x3)
    as (_ & Hlen & _).
  destruct (sampleLine_reuses_buffer 0 0 12 12 (-250) s1)
    as (_ & _ & _ & _ & Hneg).
  destruct (Hneg ltac:(lia)) as [_ Hout].
  split; [exact Hlen|]. split.
  - rewrite Hout. fold s1 in Hlen. rewrite Hlen. reflexivity.
  - rewrite Hout. vm_compute. reflexivity.
Defined.

(** ** Orbital sources stay on their circle *)

(** X16.  [addOrbitalSource] appends a source that sits on its circle at the
    start angle.  A [step] keeps the number of sources, and a source on
    its circle (whose centre abscissa is not 0 or NaN, or which is
    inactive) is again on its circle afterwards, its angle advanced by its
    speed, its speed kept, and its velocity set to a tenth of its
    displacement. *)
Theorem orbital_source_stays_on_orbit (M : MathLib) (s : WaveSimulation) :
  (forall cx cy r sp freq amp a0,
     exists src,
       sources (addOrbitalSource M cx cy r sp freq amp a0 s)
       = sources s ++ [src]
       /\ on_orbit M src
       /\ WaveSource.orbitAngle src = Some a0
       /\ WaveSource.orbitSpeed src = Some sp)
  /\ (forall time s',
        step M time s = Some s' ->
        length (sources s') = length (sources s)
        /\ forall i src src' a sp cX,
             sources s !! i = Some src -> sources s' !! i = Some src' ->
             on_orbit M src ->
             WaveSource.orbitAngle src = Some a ->
             WaveSource.orbitSpeed src = Some sp ->
             WaveSource.orbitCenterX src = Some cX ->
             js_truthy cX = true \/ WaveSource.active src = false ->
             on_orbit M src'
             /\ WaveSource.orbitAngle src' = Some (a + sp)%float
             /\ WaveSource.orbitSpeed src' = Some sp
             /\ WaveSource.vx src'
                = Some ((WaveSource.x src' - WaveSource.x src) * 0.1)%float
             /\ WaveSource.vy src'
                = Some ((WaveSource.y src' - WaveSource.y src) * 0.1)%float).
Proof.
  split.
  - intros cx cy r sp freq amp a0. eexists. split; [reflexivity|].
    split; [|done]. by eexists _, _, _, _.
  - intros time s' Hstep. rewrite (step_sources M time s s' Hstep).
    split; [by rewrite length_fmap|].
    intros i src src' a sp cX Hi Hi' (cX' & cY & r & a' & E1 & E2 & E3 & E4 & Ex & Ey)
      Ha Hsp HcX Hkeep.
    rewrite list_lookup_fmap, Hi in Hi'. injection Hi' as <-.
    assert (cX' = cX) as -> by congruence.
    assert (a' = a) as -> by congruence.
    assert (Hmove : move_source M s src = orbit_update M src).
    { unfold move_source.
      destruct (WaveSource.active (orbit_update M src)) eqn:Hact; [|done].
      rewrite orbit_update_active in Hact.
      destruct Hkeep as [Ht|Hin]; [|congruence].
      unfold advance.
      assert (WaveSource.orbitCenterX (orbit_update M src) = Some cX) as ->.
      { unfold orbit_update. by rewrite HcX, E3, Hsp. }
      simpl. by rewrite Ht. }
    rewrite Hmove. unfold orbit_update. rewrite HcX, E3, Hsp, E4, E2. simpl.
    split; [|done]. by eexists _, _, _, _.
Qed.

Lemma orbital_source_stays_on_orbit_witness :
  let s := addOrbitalSource ref_math 40 40 20 0.05 0.05 1 0 (construct 100 100 4) in
  exists s' src',
    step ref_math 0 s = Some s'
    /\ sources s' = [src']
    /\ on_orbit ref_math src'
    /\ WaveSource.orbitAngle src' = Some (0 + 0.05)%float.
Proof.
  intros s.
  destruct (step ref_math 0 s) as [s'|] eqn:Hs;
    [|vm_compute in Hs; discriminate Hs].
  destruct (orbital_source_stays_on_orbit ref_math s) as [_ Hstep].
  destruct (Hstep 0%float s' Hs) as [Hlen Hkeep]. clear Hstep.
  change (length (sources s)) with 1%nat in Hlen.
  destruct (sources s') as [|src' [|]] eqn:E;
    [discriminate Hlen | | discriminate Hlen].
  exists s', src'. split; [reflexivity|]. split; [exact E|].
  set (src := WaveSource.mk (10 + 5 * Math_cos ref_math 0)
                (10 + 5 * Math_sin ref_math 0) 0.05 1 0 true None None
                (Some 10%float) (Some 10%float) (Some 5%float)
                (Some 0.05%float) (Some 0%float)).
  destruct (Hkeep 0%nat src src' 0%float 0.05%float 10%float)
    as (Ho & Ha & _).
  - reflexivity.
  - reflexivity.
  - exists 10%float, 10%float, 5%float, 0%float. repeat split.
  - reflexivity.
  - reflexivity.
  - reflexivity.
  - left. reflexivity.
  - split; [exact Ho | exact Ha].
Defined.

(** ** Inactive sources *)

Lemma substep_set_sources l d s :
  substep d (set_sources l s) = set_sources l (substep d s).
Proof.
  unfold substep.
  change (sweep (set_sources l s)) with (sweep s).
  cbn [waveSpeed current previous set_sources].
  destruct (sweep s _ _) as [cur prev]. reflexivity.
Qed.

Lemma iter_substep_set_sources l n d s :
  N.iter n (substep d) (set_sources l s)
  = set_sources l (N.iter n (substep d) s).
Proof.
  induction n as [|n IH] using N.peano_ind; [done|].
  by rewrite !N.iter_succ, IH, substep_set_sources.
Qed.

Lemma update_energy_set_sources l s :
  update_energy (set_sources l s) = set_sources l (update_energy s).
Proof. unfold update_energy. simpl. by destruct (energyTrailEnabled s). Qed.

Lemma stabilityGuard_set_sources l s :
  stabilityGuard (set_sources l s) = set_sources l (stabilityGuard s).
Proof.
  rewrite !stabilityGuard_cases.
  change (guard_trips (set_sources l s)) with (guard_trips s).
  by destruct (guard_trips s).
Qed.

Lemma rebuildWallMask_set_sources M l s :
  rebuildWallMask M (set_sources l s) = set_sources l (rebuildWallMask M s).
Proof.
  unfold rebuildWallMask. simpl.
  destruct (wallMaskDirty s); simpl; [|done].
  destruct (walls s); reflexivity.
Qed.

Lemma emit_sources_mute M s time cur srcs :
  (forall src, src ∈ srcs ->
     WaveSource.active src = false \/ source_cell s src = None) ->
  (emit_sources M s time cur srcs).1 = cur.
Proof.
  revert cur. induction srcs as [|src rest IH]; intros cur Hin; [done|].
  simpl. destruct (WaveSource.active src) eqn:Ha; simpl.
  - destruct (Hin src ltac:(left)) as [?|Hc]; [congruence|].
    unfold inject. rewrite Hc.
    specialize (IH cur ltac:(intros src' H; apply Hin; by right)).
    by destruct (emit_sources M s time cur rest).
  - specialize (IH cur ltac:(intros src' H; apply Hin; by right)).
    by destruct (emit_sources M s time cur rest).
Qed.

Lemma source_cell_set_sources l s src :
  source_cell (set_sources l s) src = source_cell s src.
Proof. reflexivity. Qed.

Lemma step_mute_sources M time s :
  (forall src, src ∈ sources s ->
     WaveSource.active src = false
     \/ source_cell s (orbit_update M src) = None) ->
  step M time s
  = set_sources (map (move_source M s) (sources s)) <$>
      step M time (set_sources [] s).
Proof.
  intros Hin. unfold step, step_until_guard.
  change (subSteps (set_sources [] s)) with (subSteps s).
  change (dt (set_sources [] s)) with (dt s).
  destruct (loop_count (subSteps s)) as [n|]; [|done]. simpl. f_equal.
  set (d := (dt s / xint_to_float (subSteps s))%float).
  assert (Hnil : step_prepare M time (set_sources [] s)
                 = set_sources [] (rebuildWallMask M s)).
  { unfold step_prepare. rewrite rebuildWallMask_set_sources.
    cbn [sources current set_sources emit_sources fmap list_fmap map].
    by destruct (rebuildWallMask M s). }
  assert (Hp : step_prepare M time s
               = set_sources (map (move_source M s) (sources s))
                   (rebuildWallMask M s)).
  { unfold step_prepare.
    destruct (rebuildWallMask_shape M s) as [m Hm].
    assert (Hsrc : sources (rebuildWallMask M s) = sources s) by (by rewrite Hm).
    assert (Hdt : dt (rebuildWallMask M s) = dt s) by (by rewrite Hm).
    assert (Hcell : forall src, source_cell (rebuildWallMask M s) src
                                = source_cell s src) by (by rewrite Hm).
    set (t := rebuildWallMask M s) in *. clearbody t.
    set (t2 := set_sources (map (orbit_update M) (sources t)) t).
    set (e := emit_sources M t2 time (current t2) (sources t2)).
    assert (H1 : e.1 = current t2).
    { apply emit_sources_mute. subst t2. cbn [sources set_sources].
      rewrite Hsrc. intros src' (src & -> & Hs)%list_elem_of_fmap.
      rewrite orbit_update_active.
      destruct (Hin src Hs) as [?|Hc]; [by left | right].
      by rewrite source_cell_set_sources, Hcell. }
    assert (H2 : e.2 = map (move_source M s) (sources s)).
    { subst e. rewrite emit_sources_snd. subst t2. cbn [sources set_sources].
      rewrite Hsrc, <- list_fmap_compose.
      apply list_fmap_ext. intros _ src _. unfold move_source. simpl.
      destruct (WaveSource.active (orbit_update M src)); [|done].
      by apply advance_dt. }
    destruct e as [c l]. simpl in H1, H2. subst c l.
    subst t2. by destruct t. }
  rewrite Hp, Hnil.
  rewrite !iter_substep_set_sources, !update_energy_set_sources,
    !stabilityGuard_set_sources.
  reflexivity.
Qed.

(** X17.  Sources that are inactive, or whose cell after their move lies
    outside the grid, leave no trace in the field: if all sources are such,
    a [step] gives the result of the same [step] on the object without
    sources, with the moved sources put back.  An inactive source is moved
    by its orbit only, and not at all when it has no orbit. *)
Theorem mute_sources_emit_nothing (M : MathLib) (time : float)
  (s : WaveSimulation) :
  (forall src, src ∈ sources s ->
     WaveSource.active src = false
     \/ source_cell s (orbit_update M src) = None) ->
  step M time s
  = set_sources (map (move_source M s) (sources s)) <$>
      step M time (set_sources [] s)
  /\ (forall src,
        WaveSource.active src = false ->
        move_source M s src = orbit_update M src
        /\ (WaveSource.orbitCenterX src = None
            \/ WaveSource.orbitRadius src = None
            \/ WaveSource.orbitSpeed src = None ->
            move_source M s src = src)).
Proof.
  intros Hin. split; [by apply step_mute_sources|].
  intros src Ha.
  assert (Hm : move_source M s src = orbit_update M src).
  { unfold move_source. by rewrite orbit_update_active, Ha. }
  split; [exact Hm|]. intros H. rewrite Hm. unfold orbit_update.
  destruct (WaveSource.orbitCenterX src), (WaveSource.orbitRadius src),
    (WaveSource.orbitSpeed src); try done; by destruct H as [?|[?|?]].
Qed.

Lemma mute_sources_emit_nothing_witness :
  let idle := WaveSource.mk 1 1 0.1 100 0 false (Some 0.5%float)
                (Some 0.5%float) None None None None None in
  let s := addSource 400 4 0.1 100 (set_sources [idle] sim_3x3) in
  exists s',
    step ref_math 5 s = Some s'
    /\ sources s' = sources s
    /\ current s' = replicate 9 0%float.
Proof.
  intros idle s.
  destruct (mute_sources_emit_nothing ref_math 5 s) as [Hstep _].
  { intros src [->|[->|H]%elem_of_cons]%elem_of_cons.
    - left. reflexivity.
    - right. vm_compute. reflexivity.
    - by apply elem_of_nil in H. }
  rewrite Hstep. eexists. split; [vm_compute; reflexivity|].
  split; reflexivity.
Defined.

(** ** The cell of a source and the cell of a query *)

(** [Math.round] is [Math.floor] or one more. *)
Lemma Math_round_floor v f :
  Math_floor v = XInt f ->
  exists r, Math_round v = XInt r /\ (r = f \/ r = f + 1).
Proof.
  unfold Math_floor, Math_round.
  destruct (Prim2SF v) as [s|s| |s m e]; try done.
  - intros [= <-]. exists 0. by split; [|left].
  - intros [= <-]. destruct (0 <=? e) eqn:E; [eexists; split; [done | by left]|].
    apply Z.leb_gt in E.
    set (Mz := cond_Zopp s (Zpos m)).
    set (k := - e). assert (Hk : 0 < k) by lia.
    eexists. split; [reflexivity|].
    rewrite Z.shiftr_div_pow2 by lia.
    replace (Z.shiftl Mz e) with (Z.shiftr Mz k)
      by (unfold k; by rewrite Z.shiftr_opp_r).
    rewrite Z.shiftr_div_pow2 by lia. fold k.
    assert (Hp : 0 < 2 ^ k) by (apply Z.pow_pos_nonneg; lia).
    assert (Hp1 : 2 ^ (k + 1) = 2 * 2 ^ k) by (rewrite Z.pow_add_r by lia; lia).
    rewrite Hp1.
    pose proof (Z.div_mod Mz (2 ^ k) ltac:(lia)) as Hdm.
    pose proof (Z.mod_pos_bound Mz (2 ^ k) Hp) as Hr.
    set (q := Mz / 2 ^ k) in *. set (r := Mz mod 2 ^ k) in *.
    assert (Hlo : q <= (2 * Mz + 2 ^ k) / (2 * 2 ^ k))
      by (apply Z.div_le_lower_bound; nia).
    assert (Hhi : (2 * Mz + 2 ^ k) / (2 * 2 ^ k) < q + 2)
      by (apply Z.div_lt_upper_bound; nia).
    lia.
Qed.

(** X22.  A source and a query at the same pixel need not meet.  The
    source appended by [addSource] emits into the cell obtained with
    [Math.round], which is the cell obtained with [Math.floor], used by
    [getValue], or the next one on either axis. *)
Theorem source_cell_rounds (s : WaveSimulation) (px py freq amp : float)
  (gx gy : Z) :
  Math_floor (px / cellSize s) = XInt gx ->
  Math_floor (py / cellSize s) = XInt gy ->
  exists src rx ry,
    sources (addSource px py freq amp s) = sources s ++ [src]
    /\ Math_round (WaveSource.x src) = XInt rx
    /\ Math_round (WaveSource.y src) = XInt ry
    /\ (rx = gx \/ rx = gx + 1) /\ (ry = gy \/ ry = gy + 1)
    /\ source_cell (addSource px py freq amp s) src
       = (if (0 <=? rx) && (rx <? cols s) && (0 <=? ry) && (ry <? rows s)
          then Some (getIndex s rx ry) else None)
    /\ getValue px py (addSource px py freq amp s)
       = (if (gx <? 0) || (cols s <=? gx) || (gy <? 0) || (rows s <=? gy)
          then Some 0%float else ta_get (current s) (getIndex s gx gy)).
Proof.
  intros Hx Hy.
  destruct (Math_round_floor _ _ Hx) as (rx & Hrx & Hdx).
  destruct (Math_round_floor _ _ Hy) as (ry & Hry & Hdy).
  eexists _, rx, ry. split; [reflexivity|]. simpl.
  split; [exact Hrx|]. split; [exact Hry|]. split; [exact Hdx|].
  split; [exact Hdy|]. split.
  - unfold source_cell. simpl. rewrite Hrx, Hry. simpl.
    by destruct (0 <=? rx), (rx <? cols s), (0 <=? ry), (ry <? rows s).
  - unfold getValue, cell_lookup. simpl. rewrite Hx, Hy. simpl. reflexivity.
Qed.

Lemma source_cell_rounds_witness :
  exists src,
    sources (addSource 6 6 0.1 1 sim_3x3) = [src]
    /\ source_cell (addSource 6 6 0.1 1 sim_3x3) src
       = Some (getIndex sim_3x3 2 2)
    /\ Math_floor (6 / cellSize sim_3x3) = XInt 1.
Proof.
  destruct (source_cell_rounds sim_3x3 6 6 0.1 1 1 1 eq_refl eq_refl)
    as (src & rx & ry & Hs & Hrx & Hry & _ & _ & Hcell & _).
  exists src. split; [exact Hs|]. split; [|reflexivity].
  rewrite Hcell. clear Hcell.
  change (sources sim_3x3 ++ [src]) with [src] in Hs.
  injection Hs as Hsrc. subst src.
  vm_compute in Hrx, Hry. injection Hrx as <-. injection Hry as <-.
  reflexivity.
Defined.

(** ** Point queries *)

(** X18.  [getValue] and [getEnergyValue] at a pixel.  When the cell of
    the pixel is inside the grid they return the value stored for that
    cell; when it is outside (also at infinity) they return 0; whenever no
    coordinate is NaN they return a number.  A NaN abscissa with an
    ordinate inside the grid passes the bounds test and reads
    [undefined]. *)
Theorem point_query_bounds (s : WaveSimulation) (px py : float) :
  Zlen (current s) = cols s * rows s ->
  Zlen (energyMap s) = cols s * rows s ->
  let gx := Math_floor (px / cellSize s) in
  let gy := Math_floor (py / cellSize s) in
  (forall ix iy, gx = XInt ix -> gy = XInt iy ->
     0 <= ix < cols s -> 0 <= iy < rows s ->
     (exists v, ta_get (current s) (getIndex s ix iy) = Some v
                /\ getValue px py s = Some v)
     /\ (exists e, ta_get (energyMap s) (getIndex s ix iy) = Some e
                   /\ getEnergyValue px py s = Some e))
  /\ (x_lt gx 0 || x_ge gx (cols s) || x_lt gy 0 || x_ge gy (rows s) = true ->
      getValue px py s = Some 0%float
      /\ getEnergyValue px py s = Some 0%float)
  /\ (gx <> XNaN -> gy <> XNaN ->
      exists v e, getValue px py s = Some v /\ getEnergyValue px py s = Some e)
  /\ (forall iy, gx = XNaN -> gy = XInt iy -> 0 <= iy < rows s ->
      getValue px py s = None /\ getEnergyValue px py s = None).
Proof.
  intros Hc He gx gy.
  assert (Hin : forall (a : list float) ix iy,
            Zlen a = cols s * rows s -> gx = XInt ix -> gy = XInt iy ->
            0 <= ix < cols s -> 0 <= iy < rows s ->
            exists v, ta_get a (getIndex s ix iy) = Some v
                      /\ cell_lookup s a px py = Some v).
  { intros a ix iy Ha Hx Hy Hix Hiy.
    destruct (ta_get_Some a (getIndex s ix iy)) as [v Hv];
      [unfold getIndex; nia|].
    exists v. split; [done|]. unfold cell_lookup. fold gx gy.
    rewrite Hx, Hy. simpl.
    assert ((ix <? 0) = false) as -> by lia.
    assert ((cols s <=? ix) = false) as -> by lia.
    assert ((iy <? 0) = false) as -> by lia.
    assert ((rows s <=? iy) = false) as -> by lia.
    done. }
  split; [|split; [|split]].
  - intros ix iy Hx Hy Hix Hiy. unfold getValue, getEnergyValue. split; eauto.
  - intros Hout. unfold getValue, getEnergyValue, cell_lookup.
    fold gx gy. by rewrite Hout.
  - intros Hnx Hny. unfold getValue, getEnergyValue, cell_lookup. fold gx gy.
    destruct (x_lt gx 0 || x_ge gx (cols s) || x_lt gy 0 || x_ge gy (rows s))
      eqn:E; [by eexists _, _|].
    destruct gx as [|sx|ix]; [done|by destruct sx|].
    destruct gy as [|sy|iy]; [done| |].
    { simpl in E. destruct sy; simpl in E;
        by rewrite ?orb_true_r in E. }
    simpl in E.
    apply orb_false_iff in E as [[[E1 E2]%orb_false_iff E3]%orb_false_iff E4].
    destruct (ta_get_Some (current s) (getIndex s ix iy)) as [v ->];
      [unfold getIndex; nia|].
    destruct (ta_get_Some (energyMap s) (getIndex s ix iy)) as [e ->];
      [unfold getIndex; nia|].
    by eexists _, _.
  - intros iy Hx Hy Hiy. unfold getValue, getEnergyValue, cell_lookup.
    fold gx gy. rewrite Hx, Hy. simpl.
    assert ((iy <? 0) = false) as -> by lia.
    assert ((rows s <=? iy) = false) as -> by lia. done.
Qed.

Lemma point_query_bounds_witness :
  getValue 6 6 sim_bump_3x3 = Some 3%float
  /\ getValue 1000 6 sim_bump_3x3 = Some 0%float
  /\ getValue nan 6 sim_bump_3x3 = None.
Proof.
  destruct (point_query_bounds sim_bump_3x3 6 6 eq_refl eq_refl)
    as (Hin & _).
  destruct (point_query_bounds sim_bump_3x3 1000 6 eq_refl eq_refl)
    as (_ & Hout & _).
  destruct (point_query_bounds sim_bump_3x3 nan 6 eq_refl eq_refl)
    as (_ & _ & _ & Hnan).
  split; [|split].
  - destruct (Hin 1 1 eq_refl eq_refl) as [(v & Hv & ->) _];
      [split; [vm_compute; discriminate | vm_compute; reflexivity]..|].
    rewrite <- Hv. vm_compute. reflexivity.
  - apply Hout. vm_compute. reflexivity.
  - apply (Hnan 1); [reflexivity | reflexivity |].
    split; [vm_compute; discriminate | vm_compute; reflexivity].
Defined.

(** ** [clear], then [step] *)

Lemma mask_at_fill0_u8 m i : mask_at (fill0_u8 m) i = false.
Proof.
  unfold mask_at, ta_get, fill0_u8. case_decide; [|done].
  destruct (replicate (length m) 0 !! Z.to_nat i) as [v|] eqn:E; [|done].
  by apply lookup_replicate in E as [-> _].
Qed.

(** X19.  [clear] resets the simulation: the next [step] ends with every
    value of [current] and [previous] a zero, without sources, without
    walls, with no cell marked in the mask, and with the configuration
    untouched. *)
Theorem clear_then_step (M : MathLib) (time : float) (s s' : WaveSimulation) :
  Zlen (current s) = cols s * rows s ->
  Zlen (previous s) = cols s * rows s ->
  reflectiveBoundaries s = false \/ (2 <= cols s /\ 2 <= rows s) ->
  is_finite (update_coefficient s) = true ->
  is_finite (damping s) = true ->
  step M time (clear s) = Some s' ->
  silent (current s') /\ silent (previous s')
  /\ sources s' = [] /\ walls s' = []
  /\ (forall i, mask_at (wallMask s') i = false)
  /\ config s' = config s.
Proof.
  intros Hc Hp Hmode Hk Hd Hstep.
  assert (S : silent (current s') /\ silent (previous s')).
  { pose proof Hstep as (s1 & H1 & Es)%step_inv. rewrite Es.
    destruct (step_until_guard_silent M time (clear s) s1) as [T1 T2];
      try done.
    - simpl. by rewrite Zlen_fill0.
    - simpl. by rewrite Zlen_fill0.
    - apply silent_fill0.
    - apply silent_fill0.
    - intros src H. by apply elem_of_nil in H.
    - by apply stabilityGuard_silent. }
  destruct S as [S1 S2]. split; [done|]. split; [done|].
  pose proof (step_sources M time _ _ Hstep) as Hsrc.
  pose proof (step_wallMask M time _ _ Hstep) as Hmask.
  pose proof Hstep as (c & p & v & em & srcs & Hs)%step_shape.
  split; [exact Hsrc|]. split; [by rewrite Hs|].
  split; [|by rewrite Hs].
  intros i. rewrite Hmask. apply mask_at_fill0_u8.
Qed.

Lemma clear_then_step_witness :
  exists s',
    step ref_math 9 (clear sim_loud_3x3) = Some s'
    /\ silent (current s') /\ sources s' = [].
Proof.
  destruct (step ref_math 9 (clear sim_loud_3x3)) as [s'|] eqn:Hs;
    [|vm_compute in Hs; discriminate Hs].
  exists s'. split; [reflexivity|].
  destruct (clear_then_step ref_math 9 sim_loud_3x3 s')
    as (H1 & _ & H2 & _).
  - vm_compute. reflexivity.
  - vm_compute. reflexivity.
  - left. reflexivity.
  - vm_compute. reflexivity.
  - vm_compute. reflexivity.
  - exact Hs.
  - split; [exact H1 | exact H2].
Defined.

(** ** Grids without interior *)

(** X20.  With absorbing boundaries a grid of at most two rows or at most
    two columns has no cell to carry a wave: after a [step] whose sub-step
    count is not NaN every cell of [current] is 0, whatever the sources
    emit. *)
Theorem thin_grid_absorbs_everything (M : MathLib) (time : float)
  (s s' : WaveSimulation) :
  reflectiveBoundaries s = false ->
  Zlen (current s) = cols s * rows s -> 0 <= cols s ->
  cols s <= 2 \/ rows s <= 2 ->
  subSteps s <> XNaN ->
  step M time s = Some s' ->
  forall i v, ta_get (current s') i = Some v -> v = 0%float.
Proof.
  intros Hr Hlen Hc0 Hthin Hnum Hstep i v Hv.
  destruct (step_last_substep M time s s' Hnum Hstep)
    as (s2 & d & -> & Hc2 & Hr2 & Hrefl2 & Hlen2).
  pose proof (ta_get_inv _ _ _ Hv) as Hi.
  rewrite stabilityGuard_cases in Hv, Hi.
  destruct (guard_trips _); [by apply ta_get_fill0 in Hv|].
  rewrite update_energy_current, substep_current in Hv, Hi.
  rewrite applyBoundaryConditions_Zlen, sweep_Zlen in Hi. simpl in Hi.
  destruct (index_cell s2 i) as (x & y & Hx & Hy & ->); [lia | nia |].
  assert (He : on_edge s2 x y) by (unfold on_edge; lia).
  rewrite absorbing_edges in Hv; try done; [congruence | congruence |].
  rewrite sweep_Zlen. simpl. congruence.
Qed.

Lemma thin_grid_absorbs_everything_witness :
  exists s',
    step ref_math 3 (addSource 4 4 0.1 100 sim_2x2) = Some s'
    /\ current s' = replicate 4 0%float.
Proof.
  destruct (step ref_math 3 (addSource 4 4 0.1 100 sim_2x2)) as [s'|] eqn:Hs;
    [|vm_compute in Hs; discriminate Hs].
  exists s'. split; [reflexivity|].
  pose proof (thin_grid_absorbs_everything ref_math 3
                (addSource 4 4 0.1 100 sim_2x2) s' eq_refl eq_refl
                ltac:(vm_compute; discriminate) ltac:(left; vm_compute; discriminate)
                ltac:(vm_compute; discriminate) Hs) as Hz.
  assert (Hl : length (current s') = 4%nat).
  { pose proof Hs as Hv. vm_compute in Hv. injection Hv as <-. reflexivity. }
  apply list_eq. intros k.
  destruct (decide (k < 4)%nat) as [Hk|Hk].
  - destruct (lookup_lt_is_Some_2 (current s') k ltac:(lia)) as [v Hv].
    rewrite Hv. specialize (Hz (Z.of_nat k) v).
    unfold ta_get in Hz. rewrite decide_True, Nat2Z.id in Hz by lia.
    rewrite (Hz Hv). symmetry. apply lookup_replicate_2. lia.
  - rewrite !lookup_ge_None_2; [done | rewrite length_replicate; lia | lia].
Defined.

(** ** Reflective boundaries on a grid one cell wide *)

Lemma rd_outside c j : j < 0 \/ Zlen c <= j -> rd c j = nan.
Proof. intros H. unfold rd. by rewrite ta_get_None. Qed.

Lemma st32_nan c j : 0 <= j < Zlen c -> ta_get (st32 c j nan) j = Some nan.
Proof. intros H. unfold st32. by rewrite ta_get_set_eq. Qed.

Lemma rd_nan c j : ta_get c j = Some nan -> rd c j = nan.
Proof. unfold rd. by intros ->. Qed.

(** One row: the first loop reads row 1 and row -1, which do not exist. *)
Lemma reflect_single_row s S :
  rows s = 1 -> 1 <= cols s -> Zlen S = cols s ->
  ta_get (foldl (reflect_cols s)
            (foldl (reflect_rows s) S (zrange 0 (cols s)))
            (zrange 0 (rows s))) 0 = Some nan.
Proof.
  intros Hr Hc Hlen.
  set (R := foldl (reflect_rows s) S (zrange 0 (cols s))).
  assert (HR : Zlen R = cols s /\ forall x, 0 <= x < cols s -> ta_get R x = Some nan).
  { cut (Zlen R = cols s
         /\ forall x, x ∈ zrange 0 (cols s) -> ta_get R x = Some nan).
    { intros [H1 H2]. split; [done|]. intros x Hx.
      by apply H2, elem_of_zrange. }
    apply (foldl_visited
             (fun done_ c => Zlen c = cols s
                /\ forall x, x ∈ done_ -> ta_get c x = Some nan)).
    - split; [done|]. intros x Hx. by apply elem_of_nil in Hx.
    - intros done_ b c Hb%elem_of_zrange [Lc Hd].
      unfold reflect_rows, getIndex. rewrite Hr.
      replace (0 * cols s + b) with b by lia.
      replace ((1 - 1) * cols s + b) with b by lia.
      split; [by rewrite !Zlen_st32|].
      set (c1 := st32 c b (rd c (1 * cols s + b))).
      assert (rd c1 ((1 - 2) * cols s + b) = nan) as ->
        by (apply rd_outside; lia).
      intros x Hx. destruct (decide (x = b)) as [->|Hne].
      + apply st32_nan. unfold c1. rewrite Zlen_st32. lia.
      + apply elem_of_app in Hx as [Hx|Hx%list_elem_of_singleton]; [|done].
        unfold c1. rewrite !st32_other by done. by apply Hd. }
  destruct HR as [LR HR].
  rewrite Hr. change (zrange 0 1) with [0]. cbn [foldl].
  unfold reflect_cols, getIndex. rewrite !Z.mul_0_l, !Z.add_0_l.
  assert (Hrd1 : rd R 1 = nan).
  { destruct (decide (1 < cols s)).
    - apply rd_nan, HR. lia.
    - apply rd_outside. lia. }
  rewrite Hrd1.
  set (c1 := st32 R 0 nan).
  assert (H0 : ta_get c1 0 = Some nan) by (apply st32_nan; lia).
  destruct (decide (cols s = 1)) as [E|E].
  - rewrite E. change (1 - 1) with 0. change (1 - 2) with (-1).
    rewrite (rd_outside c1 (-1)) by lia.
    apply st32_nan. unfold c1. rewrite Zlen_st32. lia.
  - rewrite st32_other by lia. exact H0.
Qed.

(** One column: the second loop reads column -1. *)
Lemma reflect_single_column s S :
  cols s = 1 -> 1 <= rows s -> Zlen S = rows s ->
  ta_get (foldl (reflect_cols s)
            (foldl (reflect_rows s) S (zrange 0 (cols s)))
            (zrange 0 (rows s))) 0 = Some nan.
Proof.
  intros Hc Hr Hlen.
  set (R := foldl (reflect_rows s) S (zrange 0 (cols s))).
  assert (LR : Zlen R = rows s).
  { subst R. rewrite Zlen_foldl_st32; [done|].
    intros. unfold reflect_rows. by rewrite !Zlen_st32. }
  cut (Zlen (foldl (reflect_cols s) R (zrange 0 (rows s))) = rows s
       /\ (0 ∈ zrange 0 (rows s) ->
           ta_get (foldl (reflect_cols s) R (zrange 0 (rows s))) 0 = Some nan)).
  { intros [_ H]. apply H, elem_of_zrange. lia. }
  apply (foldl_visited
           (fun done_ c => Zlen c = rows s
              /\ (0 ∈ done_ -> ta_get c 0 = Some nan))).
  - split; [done|]. intros H. by apply elem_of_nil in H.
  - intros done_ b c Hb%elem_of_zrange [Lc Hd].
    unfold reflect_cols, getIndex. rewrite Hc.
    replace (b * 1 + 0) with b by lia.
    replace (b * 1 + (1 - 1)) with b by lia.
    replace (b * 1 + 1) with (b + 1) by lia.
    replace (b * 1 + (1 - 2)) with (b - 1) by lia.
    split; [by rewrite !Zlen_st32|].
    set (c1 := st32 c b (rd c (b + 1))).
    intros H0. destruct (decide (b = 0)) as [->|Hne].
    + rewrite (rd_outside c1 (0 - 1)) by lia.
      apply st32_nan. unfold c1. rewrite Zlen_st32. lia.
    + apply elem_of_app in H0 as [H0|H0%list_elem_of_singleton]; [|done].
      unfold c1. rewrite !st32_other by done. by apply Hd.
Qed.

Lemma guard_trips_first s v :
  ta_get (current s) 0 = Some v -> is_finite v = false -> guard_trips s = true.
Proof.
  intros Hv Hf. unfold guard_trips. apply orb_true_iff. left.
  apply existsb_exists. exists 0. split.
  - apply list_elem_of_In. unfold guard_samples.
    apply list_elem_of_fmap. exists 0. split; [lia|].
    apply elem_of_zrange.
    pose proof (guard_stride_pos (Zlen (current s))) as Hs.
    pose proof (ta_get_inv _ _ _ Hv) as Hl.
    split; [lia|]. apply Z.div_str_pos. lia.
  - unfold corrupt. rewrite Hv. simpl. by rewrite Hf.
Qed.

(** X21.  With reflective boundaries a grid of a single row or a single
    column cannot be simulated: the mirror copies read outside the buffer,
    every cell becomes NaN, and the guard resets the state.  After every
    [step] whose sub-step count is not NaN, [current], [previous] and
    [velocity] are all zero. *)
Theorem reflective_thin_grid_resets (M : MathLib) (time : float)
  (s s' : WaveSimulation) :
  reflectiveBoundaries s = true ->
  Zlen (current s) = cols s * rows s ->
  1 <= cols s -> 1 <= rows s ->
  cols s = 1 \/ rows s = 1 ->
  subSteps s <> XNaN ->
  step M time s = Some s' ->
  current s' = replicate (length (current s)) 0%float
  /\ previous s' = replicate (length (previous s)) 0%float
  /\ velocity s' = replicate (length (velocity s)) 0%float.
Proof.
  intros Hrefl Hlen Hc Hr Hthin Hnum Hstep.
  pose proof (dims_step M time s s' Hstep) as Hdims.
  destruct (step_last_substep M time s s' Hnum Hstep)
    as (s2 & d & -> & Hc2 & Hr2 & Hrefl2 & Hlen2).
  set (t := update_energy (substep d s2)) in *.
  assert (Hnan : ta_get (current t) 0 = Some nan).
  { subst t. rewrite update_energy_current, substep_current.
    unfold applyBoundaryConditions. rewrite Hrefl2, Hrefl.
    set (S := (sweep s2 _ _).1).
    assert (HS : Zlen S = cols s2 * rows s2).
    { subst S. rewrite sweep_Zlen. simpl. congruence. }
    change (ta_get (foldl (reflect_cols s2)
                      (foldl (reflect_rows s2) S (zrange 0 (cols s2)))
                      (zrange 0 (rows s2))) 0 = Some nan).
    destruct Hthin as [E|E].
    - apply reflect_single_column; [congruence | lia | rewrite HS; nia].
    - apply reflect_single_row; [congruence | lia | rewrite HS; nia]. }
  rewrite stabilityGuard_cases in Hdims |- *.
  rewrite (guard_trips_first t nan Hnan eq_refl) in Hdims |- *.
  unfold dims, hard_reset in Hdims.
  cbn [current previous velocity set_current set_previous set_velocity]
    in Hdims.
  apply (f_equal snd) in Hdims. cbn [snd] in Hdims.
  injection Hdims as E1 E2 E3 _ _.
  rewrite Zlen_fill0 in E1, E2, E3.
  unfold Zlen in E1, E2, E3.
  unfold hard_reset, fill0.
  cbn [current previous velocity set_current set_previous set_velocity].
  repeat split; f_equal; lia.
Qed.

Lemma reflective_thin_grid_resets_witness :
  let s := set_params 0.5 0.995 1 true false
             (addSource 6 2 0.1 100 (construct 12 4 4)) in
  exists s', step ref_math 3 s = Some s'
             /\ current s' = replicate 3 0%float.
Proof.
  intros s.
  destruct (step ref_math 3 s) as [s'|] eqn:Hs;
    [|vm_compute in Hs; discriminate Hs].
  exists s'. split; [reflexivity|].
  apply (reflective_thin_grid_resets ref_math 3 s s').
  - reflexivity.
  - vm_compute. reflexivity.
  - vm_compute. discriminate.
  - vm_compute. discriminate.
  - right. reflexivity.
  - vm_compute. discriminate.
  - exact Hs.
Defined.
